(** * split_cl.py: the partition of a change into reviewable units

    A shallow embedding of [ChangeList] and [SplitCLs] of split_cl.py,
    with the containers and library functions they call, followed by the
    properties of the partition algorithm. *)

From Stdlib Require Import Bool Arith ZArith Lia List Ascii String.
From Stdlib Require Import Permutation Sorted.
Import ListNotations.
Local Open Scope string_scope.
Local Open Scope list_scope.
Local Open Scope Z_scope.

(* ------------------------------------------------------------------ *)
(** ** Outcomes of a call *)

(** The exceptions the modelled code can raise: the [assert] of
    [_EnsureOwners] and the [KeyError] of the trie. *)
Inductive exn : Type :=
| AssertionError
| KeyError.

(** A call returns a value, raises, or (for the model of [while]) runs
    out of fuel. *)
Inductive outcome (A : Type) : Type :=
| Return (a : A)
| Raise (e : exn)
| OutOfFuel.

Arguments Return {A} a.
Arguments Raise {A} e.
Arguments OutOfFuel {A}.

Definition bind {A B : Type} (m : outcome A) (k : A -> outcome B) : outcome B :=
  match m with
  | Return a => k a
  | Raise e => Raise e
  | OutOfFuel => OutOfFuel
  end.

Notation "x <- m ;; k" := (bind m (fun x => k))
  (at level 61, m at next level, right associativity).
Notation "' p <- m ;; k" := (bind m (fun x => let p := x in k))
  (at level 61, p pattern, m at next level, right associativity).

(* ------------------------------------------------------------------ *)
(** ** Strings: [str.rfind], slices, [str.rstrip], [os.path.dirname] *)

Definition slash : ascii := "/"%char.

(** [s.rfind(c)]: the highest index of [c] in [s], or -1. *)
Fixpoint rfind (c : ascii) (s : string) : Z :=
  match s with
  | EmptyString => -1
  | String a r =>
      let k := rfind c r in
      if 0 <=? k then k + 1
      else if Ascii.eqb a c then 0 else -1
  end.

(** [s[:i]] for [0 <= i]. *)
Definition slice_to (i : Z) (s : string) : string :=
  substring 0 (Z.to_nat i) s.

(** [c * n]. *)
Fixpoint repeat_char (c : ascii) (n : nat) : string :=
  match n with
  | O => EmptyString
  | S n' => String c (repeat_char c n')
  end.

(** [s.rstrip(c)]. *)
Fixpoint rstrip (c : ascii) (s : string) : string :=
  match s with
  | EmptyString => EmptyString
  | String a r =>
      match rstrip c r with
      | EmptyString => if Ascii.eqb a c then EmptyString else String a EmptyString
      | r' => String a r'
      end
  end.

(** [posixpath.dirname]:
    << i = p.rfind('/') + 1
       head = p[:i]
       if head and head != '/'*len(head):
           head = head.rstrip('/')
       return head >> *)
Definition dirname (p : string) : string :=
  let i := rfind slash p + 1 in
  let head := slice_to i p in
  if negb (head =? "")%string
     && negb (head =? repeat_char slash (String.length head))%string
  then rstrip slash head
  else head.

(* ------------------------------------------------------------------ *)
(** ** The candidates container

    [candidates] is a [third_party.pygtrie.Trie] with sorting enabled.
    The library is imported by split_cl.py and is not one of the source
    files; it is modelled here by what the calls of [SplitCLs] observe.
    A [Trie] takes any sequence as a key and uses its elements as the
    steps from the root: for a [str] key the steps are its characters,
    and the keys it hands back are tuples of characters, which the source
    joins again with [''.join(...)].  With sorting enabled the traversal
    is pre-order with the children of a node in increasing order, so the
    entries come out in the lexicographic order of their keys, a key
    before its extensions.  The model is the list of entries in that
    order. *)
Module Trie.

Definition t (V : Type) : Type := list (string * V).

Definition empty {V : Type} : t V := [].

(** [trie[key] = value] *)
Fixpoint set {V : Type} (key : string) (value : V) (tr : t V) : t V :=
  match tr with
  | [] => [(key, value)]
  | (k, v) :: rest =>
      match String.compare key k with
      | Lt => (key, value) :: (k, v) :: rest
      | Eq => (key, value) :: rest
      | Gt => (k, v) :: set key value rest
      end
  end.

(** [trie[key]], [None] for the [KeyError]. *)
Fixpoint find {V : Type} (key : string) (tr : t V) : option V :=
  match tr with
  | [] => None
  | (k, v) :: rest => if (key =? k)%string then Some v else find key rest
  end.

(** [key in trie] *)
Definition contains {V : Type} (key : string) (tr : t V) : bool :=
  match find key tr with Some _ => true | None => false end.

Fixpoint remove {V : Type} (key : string) (tr : t V) : t V :=
  match tr with
  | [] => []
  | (k, v) :: rest =>
      if (key =? k)%string then remove key rest else (k, v) :: remove key rest
  end.

(** [trie[key]] as a call. *)
Definition get {V : Type} (key : string) (tr : t V) : outcome V :=
  match find key tr with
  | Some v => Return v
  | None => Raise KeyError
  end.

(** [del trie[key]]: a [KeyError] when [key] has no value. *)
Definition del {V : Type} (key : string) (tr : t V) : outcome (t V) :=
  if contains key tr then Return (remove key tr) else Raise KeyError.

(** [trie.items()]: a list, built when it is called. *)
Definition items {V : Type} (tr : t V) : list (string * V) := tr.

(** [trie.keys(prefix)]: the keys below the node of [prefix], that is
    the keys that start with the characters of [prefix]; a [KeyError]
    when there is no such node.  The node of the empty prefix is the
    root, which is always there. *)
Definition keys {V : Type} (pre : string) (tr : t V) : outcome (list string) :=
  match filter (fun k => String.prefix pre k) (map fst tr) with
  | [] => if (pre =? "")%string then Return [] else Raise KeyError
  | ks => Return ks
  end.

End Trie.

(* ------------------------------------------------------------------ *)
(** ** Files, the owners database, change lists *)

(** An [AffectedFile], by the two methods [SplitCLs] calls:
    [LocalPath()] and [ChangeSizeInBytes()], the pairs of bytes added
    and removed.  The files of a set are told apart by their value. *)
Record AffectedFile : Type := mkAffectedFile {
  LocalPath : string;
  ChangeSizeInBytes : list (Z * Z)
}.

Definition AffectedFile_eq_dec (f g : AffectedFile) : {f = g} + {f <> g}.
Proof.
  decide equality.
  - apply (list_eq_dec (fun a b : Z * Z =>
      ltac:(decide equality; apply Z.eq_dec) : {a = b} + {a <> b})).
  - apply string_dec.
Defined.

(** The two queries of [owners.Database] that [ChangeList] makes.
    [all_possible_owners] stands for the keys of the dict it returns. *)
Record Database : Type := mkDatabase {
  all_possible_owners : list string -> option string -> list string;
  files_not_covered_by : list string -> list string -> list string
}.

(** Sets of files and of owners, as lists without repetition. *)
Definition mem_file (f : AffectedFile) (s : list AffectedFile) : bool :=
  if in_dec AffectedFile_eq_dec f s then true else false.

(** [a | b] *)
Definition union_files (a b : list AffectedFile) : list AffectedFile :=
  a ++ filter (fun f => negb (mem_file f a)) b.

Definition mem_owner (o : string) (s : list string) : bool :=
  if in_dec string_dec o s then true else false.

(** [s | set([o])] *)
Definition add_owner (o : string) (s : list string) : list string :=
  if mem_owner o s then s else s ++ [o].

(** [a & b] *)
Definition inter_owners (a b : list string) : list string :=
  filter (fun o => mem_owner o b) a.

(** The fields of a [ChangeList] that change; [_owners_db] and
    [_author] are the same for every change list of a run and are
    parameters of the methods below. *)
Record ChangeList : Type := mkChangeList {
  _path : string;
  _files : list AffectedFile;
  _owners : option (list string)
}.

Definition set_owners (self : ChangeList) (o : option (list string)) : ChangeList :=
  mkChangeList (_path self) (_files self) o.

Definition set_files (self : ChangeList) (fs : list AffectedFile) : ChangeList :=
  mkChangeList (_path self) fs (_owners self).

Definition GetPath (self : ChangeList) : string := _path self.
Definition GetFiles (self : ChangeList) : list AffectedFile := _files self.

(** [sum([c[0] + c[1] for f in self._files for c in f.ChangeSizeInBytes()])] *)
Definition GetChangeSizeInBytes (self : ChangeList) : Z :=
  fold_right Z.add 0
    (flat_map (fun f => map (fun c => fst c + snd c) (ChangeSizeInBytes f))
              (_files self)).

(** The truth value of [self._owners]: false for [None] and for the
    empty set. *)
Definition owners_truthy (o : option (list string)) : bool :=
  match o with
  | Some (_ :: _) => true
  | _ => false
  end.

Definition owners_value (o : option (list string)) : list string :=
  match o with
  | Some l => l
  | None => []
  end.

Section Methods.

Variable owners_db : Database.
Variable author : option string.

(** The paths [_EnsureOwners] asks the database about: the files of
    the change list, or its own path when it has no file. *)
Definition owner_query (self : ChangeList) : list string :=
  match map LocalPath (GetFiles self) with
  | [] => [GetPath self]
  | files => files
  end.

(** The set the loop of [_EnsureOwners] builds: the possible owners
    that leave no file uncovered. *)
Definition covering_owners (files : list string) : list string :=
  fold_left
    (fun acc owner =>
       if (Z.of_nat (List.length (files_not_covered_by owners_db files [owner])) =? 0)
       then add_owner owner acc else acc)
    (all_possible_owners owners_db files author)
    [].

(** << def _EnsureOwners(self):
         if not self._owners:
           self._owners = set()
           files = [f.LocalPath() for f in self.GetFiles()]
           if not files:
             files = [self.GetPath()]
           possible_owners = self._owners_db.all_possible_owners(
               files, self._author).keys()
           for owner in possible_owners:
             if 0 == len(self._owners_db.files_not_covered_by(files, [owner])):
               self._owners |= set([owner])
           assert len(self._owners) >>
    The method returns the object as it has changed it. *)
Definition _EnsureOwners (self : ChangeList) : outcome ChangeList :=
  if negb (owners_truthy (_owners self)) then
    let owners := covering_owners (owner_query self) in
    match owners with
    | [] => Raise AssertionError
    | _ => Return (set_owners self (Some owners))
    end
  else Return self.

Definition GetOwners (self : ChangeList) : outcome (ChangeList * list string) :=
  self <- _EnsureOwners self ;;
  Return (self, owners_value (_owners self)).

(** [self.GetOwners() & other.GetOwners()].  The methods that touch
    two objects return both.  When [self] and [other] are one object
    the two results are the same value: the second call finds the
    owners the first one stored, or computes them again from the same
    files. *)
Definition GetCommonOwners (self other : ChangeList)
  : outcome (ChangeList * ChangeList * list string) :=
  '(self, a) <- GetOwners self ;;
  '(other, b) <- GetOwners other ;;
  Return (self, other, inter_owners a b).

Definition HaveCommonOwners (self other : ChangeList)
  : outcome (ChangeList * ChangeList * bool) :=
  '(self, other, common) <- GetCommonOwners self other ;;
  Return (self, other, 0 <? Z.of_nat (List.length common)).

(** << def Merge(self, other):
         self._owners = self.GetCommonOwners(other)
         self._files |= other.GetFiles() >> *)
Definition Merge (self other : ChangeList) : outcome (ChangeList * ChangeList) :=
  '(self, other, common) <- GetCommonOwners self other ;;
  let self := set_owners self (Some common) in
  let self := set_files self (union_files (_files self) (GetFiles other)) in
  Return (self, other).

(** *** SplitCLs *)

(** [max_cl_size = 1000], the target size in changed bytes. *)
Definition max_cl_size : Z := 1000.

(** The local variables [candidates] and [change_lists]. *)
Record state : Type := mkState {
  candidates : Trie.t ChangeList;
  change_lists : list ChangeList
}.

(** Step 1: one candidate for every affected file, in the order the
    set [files] hands them out.
    << for f in files:
         path = f.LocalPath()
         candidates[path] = ChangeList(path, owners_database, author, set([f])) >> *)
Definition seed (files : list AffectedFile) : Trie.t ChangeList :=
  fold_left
    (fun cands f =>
       let path := LocalPath f in
       Trie.set path (mkChangeList path [f] None) cands)
    files Trie.empty.

(** [sub_cls = len([''.join(k) for k in candidates.keys(path)]) - 1] *)
Definition count_sub_cls (cands : Trie.t ChangeList) (path : string)
  : outcome Z :=
  ks <- Trie.keys path cands ;;
  Return (Z.of_nat (List.length ks) - 1).

(** The body of the [for] loop of step 2.1, for one entry
    [(path, candidate)] of the list [candidates.items()] returned; the
    result carries whether the body set [edited].
    << sub_cls = len([''.join(k) for k in candidates.keys(path)]) - 1
       if not sub_cls:
         parent_path = os.path.dirname(path)
         if len(parent_path) < 1:
           continue
         if parent_path not in candidates:
           candidates[parent_path] = ChangeList(parent_path, owners_database,
                                                author, set())
         parent_cl = candidates[parent_path]
         if not parent_cl.HaveCommonOwners(candidate):
           continue
         edited = True
         del candidates[path]
         parent_cl.Merge(candidate)
         if parent_cl.GetChangeSizeInBytes() > max_cl_size:
           change_lists.append(parent_cl)
           del candidates[parent_path] >>
    Objects are held by value.  [candidate] is the object the trie has
    under [path] (lemma [merge_pass_rel]: no earlier iteration of the
    pass touches the entries still to visit), and [parent_cl] is the
    object under [parent_path]; the two are one object when the two keys
    are equal.  What [HaveCommonOwners] stores in the two objects is
    written under their keys; after [del candidates[path]] the object
    [parent_cl] is written back when it is still in the trie, that is
    when it is not [candidate] itself. *)
Definition merge_item (st : state) (path : string) (candidate : ChangeList)
  : outcome (state * bool) :=
  sub_cls <- count_sub_cls (candidates st) path ;;
  if negb (sub_cls =? 0) then Return (st, false)
  else
    let parent_path := dirname path in
    if Z.of_nat (String.length parent_path) <? 1 then Return (st, false)
    else
      let cands :=
        if negb (Trie.contains parent_path (candidates st))
        then Trie.set parent_path (mkChangeList parent_path [] None) (candidates st)
        else candidates st in
      parent_cl <- Trie.get parent_path cands ;;
      '(parent_cl, candidate, have) <- HaveCommonOwners parent_cl candidate ;;
      let cands := Trie.set path candidate (Trie.set parent_path parent_cl cands) in
      if negb have then Return (mkState cands (change_lists st), false)
      else
        cands <- Trie.del path cands ;;
        '(parent_cl, candidate) <- Merge parent_cl candidate ;;
        let cands :=
          if Trie.contains parent_path cands
          then Trie.set parent_path parent_cl cands
          else cands in
        if max_cl_size <? GetChangeSizeInBytes parent_cl then
          let lists := change_lists st ++ [parent_cl] in
          cands <- Trie.del parent_path cands ;;
          Return (mkState cands lists, true)
        else Return (mkState cands (change_lists st), true).

(** [for item in candidates.items()]: the loop goes through the list
    made when the pass starts, while the body changes the trie. *)
Fixpoint merge_pass (items : list (string * ChangeList)) (st : state)
         (edited : bool) : outcome (state * bool) :=
  match items with
  | [] => Return (st, edited)
  | (path, candidate) :: rest =>
      '(st, e) <- merge_item st path candidate ;;
      merge_pass rest st (edited || e)
  end.

(** << edited = True
       while edited:
         edited = False
         for item in candidates.items(): ... >>
    [fuel] bounds the number of passes. *)
Fixpoint merge_loop (fuel : nat) (st : state) : outcome state :=
  match fuel with
  | O => OutOfFuel
  | S fuel' =>
      '(st, edited) <- merge_pass (Trie.items (candidates st)) st false ;;
      if edited then merge_loop fuel' st else Return st
  end.

(** Step 3: the remaining candidates, in the order of the trie.
    << for item in candidates.items():
         change_lists.append(item[1]) >> *)
Definition drain (st : state) : list ChangeList :=
  map snd (Trie.items (candidates st)).

(** [SplitCLs(owners_database, author, files)]; [files] is the set of
    files in the order of its iteration. *)
Definition SplitCLs (fuel : nat) (files : list AffectedFile)
  : outcome (list ChangeList) :=
  st <- merge_loop fuel (mkState (seed files) []) ;;
  Return (change_lists st ++ drain st).

End Methods.

(* ------------------------------------------------------------------ *)
(** ** The text of a description: [FormatDescriptionOrComment],
       [AddUploadedByGitClSplitToDescription] *)

(** [s.replace(old, new)] for an [old] that is not empty: the
    occurrences of [old] are found from the left, an occurrence starts
    after the end of the one before, and each is replaced by [new].
    [skip] counts the characters of an occurrence still to pass. *)
Fixpoint replace_from (old new : string) (skip : nat) (s : string) : string :=
  match s with
  | EmptyString => EmptyString
  | String c r =>
      match skip with
      | S k => replace_from old new k r
      | O =>
          if String.prefix old s
          then (new ++ replace_from old new (String.length old - 1) r)%string
          else String c (replace_from old new 0 r)
      end
  end.

Definition str_replace (old new s : string) : string :=
  replace_from old new 0 s.

Definition placeholder : string := "$directory".

(** << def FormatDescriptionOrComment(txt, directory):
         return txt.replace('$directory', '/' + directory) >> *)
Definition FormatDescriptionOrComment (txt directory : string) : string :=
  str_replace placeholder ("/" ++ directory)%string txt.

(** What can go wrong outside [SplitCLs]: an exception of [SplitCLs],
    the [IndexError] of an index out of range, the
    [subprocess2.CalledProcessError] of a git command that fails, which
    [SplitCl] catches, and the end of the fuel of a call of [SplitCLs]. *)
Inductive failure : Type :=
| Core (e : exn)
| IndexError
| CalledProcessError
| NoFuel.

Inductive result (A : Type) : Type :=
| Ok (a : A)
| Err (e : failure).

Arguments Ok {A} a.
Arguments Err {A} e.

Definition lift {A : Type} (m : outcome A) : result A :=
  match m with
  | Return a => Ok a
  | Raise e => Err (Core e)
  | OutOfFuel => Err NoFuel
  end.

(** The line feed. *)
Definition newline : string := String "010"%char EmptyString.

(** [s.isspace()] on a [str]: [s] is not empty and all its characters
    are the space, the tab, the line feed, the carriage return, the
    vertical tab or the form feed. *)
Definition is_space_char (c : ascii) : bool :=
  let n := nat_of_ascii c in
  (n =? 32)%nat || ((9 <=? n)%nat && (n <=? 13)%nat).

Fixpoint all_space (s : string) : bool :=
  match s with
  | EmptyString => true
  | String c r => is_space_char c && all_space r
  end.

Definition isspace (s : string) : bool :=
  match s with
  | EmptyString => false
  | _ => all_space s
  end.

(** [lines[-1]], with the [IndexError] of the empty list. *)
Definition last_line (lines : list string) : result string :=
  match lines with
  | [] => Err IndexError
  | _ => Ok (List.last lines EmptyString)
  end.

Definition uploaded_by_line : string :=
  "This CL was uploaded by git cl split.".

(** << def AddUploadedByGitClSplitToDescription(description):
         split_footers = git_footers.split_footers(description)
         lines = split_footers[0]
         if not lines[-1] or lines[-1].isspace():
           lines = lines + ['']
         lines = lines + ['This CL was uploaded by git cl split.']
         if split_footers[1]:
           lines += [''] + split_footers[1]
         return '\n'.join(lines) >>
    [git_footers] is not one of the source files: [split_footers] is a
    parameter, by the two components of its result that are used, the
    lines before the footers and the lines of the footers. *)
Definition AddUploadedByGitClSplitToDescription
    (split_footers : string -> list string * list string)
    (description : string) : result string :=
  let lines := fst (split_footers description) in
  match last_line lines with
  | Err e => Err e
  | Ok l =>
      let lines :=
        if (l =? "")%string || isspace l then lines ++ [""] else lines in
      let lines := lines ++ [uploaded_by_line] in
      let lines :=
        match snd (split_footers description) with
        | [] => lines
        | footers => lines ++ [""] ++ footers
        end in
      Ok (String.concat newline lines)
  end.

(* ------------------------------------------------------------------ *)
(** ** The reviewers: [_SelectReviewer] and the loop of [SplitCl] *)

(** [a.difference(b)] *)
Definition diff_owners (a b : list string) : list string :=
  filter (fun o => negb (mem_owner o b)) a.

(** [random.choice(seq)]: the element of [seq] at the index the
    generator draws, an [IndexError] when [seq] is empty.  The draw is an
    argument, any number, taken modulo the length. *)
Definition random_choice {A : Type} (draw : nat) (seq : list A) : result A :=
  match seq with
  | [] => Err IndexError
  | _ =>
      match nth_error seq (draw mod List.length seq) with
      | Some x => Ok x
      | None => Err IndexError
      end
  end.

(** << def _SelectReviewer(owners, used_reviwers=set()):
         unused_reviewers = owners.difference(used_reviwers)
         if len(unused_reviewers) < 1:
           unused_reviewers = owners
         reviewer = random.choice(tuple(unused_reviewers))
         used_reviwers.add(reviewer)
         return reviewer >>
    The result is the reviewer and the set [used_reviwers] as the call
    leaves it. *)
Definition _SelectReviewer (draw : nat) (owners used_reviwers : list string)
  : result (string * list string) :=
  let unused_reviewers := diff_owners owners used_reviwers in
  let unused_reviewers :=
    if Z.of_nat (List.length unused_reviewers) <? 1
    then owners else unused_reviewers in
  match random_choice draw unused_reviewers with
  | Ok reviewer => Ok (reviewer, add_owner reviewer used_reviwers)
  | Err e => Err e
  end.

(** [os.path.sep], as for [posixpath.dirname]. *)
Definition os_path_sep : string := "/".

(** The two calls the loop of [SplitCl] makes for a change list, by the
    arguments that change from one change list to the next (and
    [num_cls], [files], the same for all). *)
Inductive cl_call : Type :=
| PrintClInfo_call (cl_index num_cls : nat) (directory : string)
                   (file_paths : list string) (reviewer : string)
| UploadCl_call (cl_index : nat) (directory : string)
                (files : list AffectedFile) (reviewer : string).

Definition call_reviewer (c : cl_call) : string :=
  match c with
  | PrintClInfo_call _ _ _ _ r => r
  | UploadCl_call _ _ _ r => r
  end.

Definition call_index (c : cl_call) : nat :=
  match c with
  | PrintClInfo_call i _ _ _ _ => i
  | UploadCl_call i _ _ _ => i
  end.

Definition call_directory (c : cl_call) : string :=
  match c with
  | PrintClInfo_call _ _ d _ _ => d
  | UploadCl_call _ d _ _ => d
  end.

(** The loop of [SplitCl] over the change lists [SplitCLs] returned:
    << reviewers = set()
       for cl_index, cl in enumerate(change_lists, 1):
         directory = cl.GetPath().replace(os.path.sep, '/')
         file_paths = [f.LocalPath() for f in cl.GetFiles()]
         reviewer = _SelectReviewer(cl.GetOwners(), reviewers)
         if dry_run:
           PrintClInfo(cl_index, num_cls, directory, file_paths, description,
                       reviewer)
         else:
           UploadCl(cl_index, refactor_branch, refactor_branch_upstream,
                    directory, files, description, comment, reviewer,
                    changelist, cmd_upload, cq_dry_run, enable_auto_submit) >>
    The result is the list of the calls made, in their order, and the
    exception that ended the loop, if one did.  [files] is the list of
    all the files of the change, [draw i] what the generator draws in
    the iteration of index [i].  [UploadCl] runs git and the upload, and
    [PrintClInfo] prints: what they do is outside the source, and
    [raised call] is the exception the call raises, if it raises one
    (the calls of one run differ by their index, so that [raised] can
    give any course of the calls).  A call that raises is the last one
    of the loop. *)
Fixpoint review_loop (db : Database) (au : option string) (dry_run : bool)
    (files : list AffectedFile) (num_cls : nat)
    (raised : cl_call -> option failure) (draw : nat -> nat)
    (cl_index : nat) (change_lists : list ChangeList) (reviewers : list string)
  : list cl_call * option failure :=
  match change_lists with
  | [] => ([], None)
  | cl :: rest =>
      let directory := str_replace os_path_sep "/" (GetPath cl) in
      let file_paths := map LocalPath (GetFiles cl) in
      match lift (GetOwners db au cl) with
      | Err e => ([], Some e)
      | Ok (cl, owners) =>
          match _SelectReviewer (draw cl_index) owners reviewers with
          | Err e => ([], Some e)
          | Ok (reviewer, reviewers) =>
              let call :=
                if dry_run
                then PrintClInfo_call cl_index num_cls directory file_paths
                                      reviewer
                else UploadCl_call cl_index directory files reviewer in
              match raised call with
              | Some e => ([call], Some e)
              | None =>
                  let '(calls, ended) :=
                    review_loop db au dry_run files num_cls raised draw
                                (S cl_index) rest reviewers in
                  (call :: calls, ended)
              end
          end
      end
  end.

(* ------------------------------------------------------------------ *)
(** ** The two objects of [HaveCommonOwners] after an exception

    Inside [SplitCLs] an exception leaves the function, and the objects
    with it.  A caller that catches the [AssertionError] finds the
    objects as the methods left them: [_EnsureOwners] stores the set
    before it asserts, so that an object whose [assert] fails is left
    with the empty set, and [GetCommonOwners] asks [self] before [other],
    so that [other] is not touched when the [assert] of [self] fails.
    The two objects are taken to be different ones. *)

(** [_EnsureOwners] with the object as it is left, and the exception
    if the [assert] fails. *)
Definition _EnsureOwners_obj (db : Database) (au : option string)
    (self : ChangeList) : ChangeList * option exn :=
  if negb (owners_truthy (_owners self)) then
    let owners := covering_owners db au (owner_query self) in
    let self := set_owners self (Some owners) in
    match owners with
    | [] => (self, Some AssertionError)
    | _ => (self, None)
    end
  else (self, None).

(** [self.GetOwners() & other.GetOwners()], then the test of
    [HaveCommonOwners]: the two objects as they are left, and the answer
    or the exception. *)
Definition HaveCommonOwners_obj (db : Database) (au : option string)
    (self other : ChangeList) : ChangeList * ChangeList * outcome bool :=
  let '(self, e) := _EnsureOwners_obj db au self in
  match e with
  | Some x => (self, other, Raise x)
  | None =>
      let a := owners_value (_owners self) in
      let '(other, e) := _EnsureOwners_obj db au other in
      match e with
      | Some x => (self, other, Raise x)
      | None =>
          let b := owners_value (_owners other) in
          (self, other, Return (0 <? Z.of_nat (List.length (inter_owners a b))))
      end
  end.

(* ------------------------------------------------------------------ *)
(** ** Notions used to state the properties *)

(** [s] ends with the character [c]. *)
Fixpoint ends_with (c : ascii) (s : string) : bool :=
  match s with
  | EmptyString => false
  | String a EmptyString => Ascii.eqb a c
  | String _ r => ends_with c r
  end.

(** A path that starts with a slash: not relative to the repository. *)
Definition leading_slash (p : string) : bool := String.prefix "/" p.

(** The entries of a trie are in the strict order of their keys. *)
Definition key_lt {V : Type} (a b : string * V) : Prop :=
  String.compare (fst a) (fst b) = Lt.

Definition sorted {V : Type} (tr : Trie.t V) : Prop :=
  StronglySorted key_lt tr.

(** The object [_EnsureOwners] leaves behind when its [assert] holds. *)
Definition ensured (db : Database) (au : option string) (self : ChangeList)
  : ChangeList :=
  if owners_truthy (_owners self) then self
  else set_owners self (Some (covering_owners db au (owner_query self))).

(** The object [self.Merge(other)] leaves behind when both approver sets
    are already known. *)
Definition merged (self other : ChangeList) : ChangeList :=
  mkChangeList (_path self)
    (union_files (_files self) (_files other))
    (Some (inter_owners (owners_value (_owners self))
                        (owners_value (_owners other)))).

(** The trie after the candidate of the parent directory is looked up,
    and created when there is none. *)
Definition with_parent (parent_path : string) (tr : Trie.t ChangeList)
  : Trie.t ChangeList :=
  if negb (Trie.contains parent_path tr)
  then Trie.set parent_path (mkChangeList parent_path [] None) tr
  else tr.

(** What one run of the body of the [for] loop does to the state, by
    the path it takes through the body. *)
Section ItemStep.

Variable db : Database.
Variable au : option string.

(** The owners [candidate] and the candidate [p] of its parent
    directory have in common. *)
Definition common (p c : ChangeList) : list string :=
  inter_owners (owners_value (_owners (ensured db au p)))
               (owners_value (_owners (ensured db au c))).

(** The body reaches the test [HaveCommonOwners] with [p] as the
    candidate of the parent directory, and the test does not raise. *)
Definition attempt (st : state) (path : string) (c p : ChangeList) : Prop :=
  List.length (filter (fun k => String.prefix path k)
                      (map fst (candidates st))) = 1%nat /\
  dirname path <> "" /\
  Trie.find (dirname path) (with_parent (dirname path) (candidates st))
    = Some p /\
  owners_truthy (_owners (ensured db au p)) = true /\
  owners_truthy (_owners (ensured db au c)) = true.

(** The trie after the test. *)
Definition checked (st : state) (path : string) (c p : ChangeList)
  : Trie.t ChangeList :=
  Trie.set path (ensured db au c)
    (Trie.set (dirname path) (ensured db au p)
       (with_parent (dirname path) (candidates st))).

(** The parent candidate after [Merge]. *)
Definition unit_of (p c : ChangeList) : ChangeList :=
  merged (ensured db au p) (ensured db au c).

(** The trie after [del candidates[path]] and [Merge]. *)
Definition folded (st : state) (path : string) (c p : ChangeList)
  : Trie.t ChangeList :=
  let tr := Trie.remove path (checked st path c p) in
  if Trie.contains (dirname path) tr
  then Trie.set (dirname path) (unit_of p c) tr
  else tr.

Inductive item_step (st : state) (path : string) (c : ChangeList)
    : state -> bool -> Prop :=
  | step_skip :
      item_step st path c st false
  | step_reject p :
      attempt st path c p ->
      common p c = [] ->
      item_step st path c
        (mkState (checked st path c p) (change_lists st)) false
  | step_keep p :
      attempt st path c p ->
      common p c <> [] ->
      GetChangeSizeInBytes (unit_of p c) <= max_cl_size ->
      item_step st path c
        (mkState (folded st path c p) (change_lists st)) true
  | step_emit p :
      attempt st path c p ->
      common p c <> [] ->
      max_cl_size < GetChangeSizeInBytes (unit_of p c) ->
      Trie.contains (dirname path) (folded st path c p) = true ->
      item_step st path c
        (mkState (Trie.remove (dirname path) (folded st path c p))
                 (change_lists st ++ [unit_of p c])) true.

End ItemStep.

(** An entry of the list a pass goes through is the entry the trie has
    under the same key. *)
Definition in_sync (tr : Trie.t ChangeList) (kv : string * ChangeList) : Prop :=
  Trie.find (fst kv) tr = Some (snd kv).

(** [s] is a node of the trie: the characters of [s] lead to a key. *)
Definition node {V : Type} (tr : Trie.t V) (s : string) : bool :=
  existsb (fun k => String.prefix s k) (map fst tr).

(** The prefixes of a string, the empty one and the string included. *)
Fixpoint prefixes (s : string) : list string :=
  match s with
  | EmptyString => [EmptyString]
  | String a r => EmptyString :: map (String a) (prefixes r)
  end.

(** The nodes the trie can ever have: the prefixes of the paths of the
    files. *)
Definition universe (files : list AffectedFile) : list string :=
  flat_map (fun f => prefixes (LocalPath f)) files.

(** The number of strings of [U] that are nodes of the trie. *)
Definition nodes_in {V : Type} (U : list string) (tr : Trie.t V) : nat :=
  List.length (filter (node tr) U).

(** The passes that are enough for the files: one more than the nodes
    of the seeded trie can be. *)
Definition enough_fuel (files : list AffectedFile) : nat :=
  S (List.length (universe files)).

(** A step never adds a node, and a step that merges takes one away. *)
Definition fewer_nodes (st st' : state) (edited : bool) : Prop :=
  (forall s, node (candidates st') s = true -> node (candidates st) s = true) /\
  (edited = true ->
   exists s, node (candidates st) s = true /\ node (candidates st') s = false).

(** The body of the loop of step 1. *)
Definition seed_step (cands : Trie.t ChangeList) (f : AffectedFile)
  : Trie.t ChangeList :=
  Trie.set (LocalPath f) (mkChangeList (LocalPath f) [f] None) cands.

(** The files of a list of units, unit after unit. *)
Definition files_of (units : list ChangeList) : list AffectedFile :=
  flat_map _files units.

(** The files of the candidates of a trie. *)
Definition tr_files (tr : Trie.t ChangeList) : list AffectedFile :=
  files_of (map snd tr).

(** The files of the candidate under [k], none when there is no
    candidate. *)
Definition files_at (k : string) (tr : Trie.t ChangeList) : list AffectedFile :=
  match Trie.find k tr with
  | Some v => _files v
  | None => []
  end.

(** The units a state holds: the candidates and the emitted ones. *)
Definition all_units (st : state) : list ChangeList :=
  map snd (candidates st) ++ change_lists st.

(** No key of the trie starts with a slash. *)
Definition relative (tr : Trie.t ChangeList) : Prop :=
  forall k, Trie.contains k tr = true -> leading_slash k = false.

(** Databases and files of the examples. *)

(** Every path has the one owner [o]. *)
Definition everyone (o : string) : Database :=
  mkDatabase (fun _ _ => [o]) (fun _ _ => []).

(** A file right under the root directory [/], ten bytes changed. *)
Definition file_slash_x : AffectedFile := mkAffectedFile "/x" [(10, 0)].

(** A small file in the directory [b]. *)
Definition file_b_z : AffectedFile := mkAffectedFile "b/z.txt" [(10, 0)].

(** What holds of a unit the loop has emitted: it is over the budget
    and its approver set is known and not empty. *)
Definition over_budget (u : ChangeList) : Prop :=
  max_cl_size < GetChangeSizeInBytes u /\ owners_truthy (_owners u) = true.

(** Two files with the one path [a/x]. *)
Definition file_dup_1 : AffectedFile := mkAffectedFile "a/x" [(1, 0)].
Definition file_dup_2 : AffectedFile := mkAffectedFile "a/x" [(2, 0)].

(** No path has an owner. *)
Definition nobody : Database :=
  mkDatabase (fun _ _ => []) (fun files _ => files).

(** The owners of a path, by a table. *)
Fixpoint owners_for (tbl : list (string * list string)) (p : string)
  : list string :=
  match tbl with
  | [] => []
  | (k, os) :: rest => if (p =? k)%string then os else owners_for rest p
  end.

(** A database read off a table: the possible owners of some paths are
    the owners of any of them, and an owner covers the paths the table
    gives to them. *)
Definition table_db (tbl : list (string * list string)) : Database :=
  mkDatabase
    (fun files _ => flat_map (owners_for tbl) files)
    (fun files owners =>
       filter (fun f => negb (existsb (fun o => mem_owner o (owners_for tbl f))
                                      owners))
              files).

(** The count the specification asks for: the entries whose key lies
    in a strict subdirectory of [P], by path components, that is the keys
    that go on after [P] with a slash. *)
Definition in_strict_subdirectory (P k : string) : bool :=
  String.prefix (P ++ "/")%string k.

Definition spec_sub_candidate_count (tr : Trie.t ChangeList) (P : string) : Z :=
  Z.of_nat (List.length (filter (in_strict_subdirectory P) (map fst tr))).

(** Three files of 600 bytes in the sibling directories [d/a], [d/ab]
    and [d/b]. *)
Definition file_d_a_x : AffectedFile := mkAffectedFile "d/a/x" [(600, 0)].
Definition file_d_ab_y : AffectedFile := mkAffectedFile "d/ab/y" [(600, 0)].
Definition file_d_b_z : AffectedFile := mkAffectedFile "d/b/z" [(600, 0)].

(** A file right under the root of the repository. *)
Definition file_x : AffectedFile := mkAffectedFile "x" [(10, 0)].

(** A file with the empty path. *)
Definition file_nameless : AffectedFile := mkAffectedFile "" [(10, 0)].

(** A file in the directory [a]; [ann] owns the file and [root] owns
    the path of the directory. *)
Definition file_a_x : AffectedFile := mkAffectedFile "a/x" [(10, 0)].
Definition ann_and_root : Database :=
  table_db [("a", ["root"]); ("a/x", ["ann"])].

(** [root] and [ann] own the file, [root] alone the path of the
    directory. *)
Definition root_above_ann : Database :=
  table_db [("a", ["root"]); ("a/x", ["root"; "ann"])].

(** [dirname] applied [k] times. *)
Fixpoint iter_dirname (k : nat) (p : string) : string :=
  match k with
  | O => p
  | S k' => dirname (iter_dirname k' p)
  end.

(** Every file of the unit is in the directory of the unit or below:
    the path of the unit is the path of the file, or its directory, or
    the directory of that, and so on. *)
Definition anchored (u : ChangeList) : Prop :=
  forall f, In f (_files u) ->
            exists k, iter_dirname k (LocalPath f) = _path u.

(** The units come in the strict order of their paths. *)
Definition path_lt (a b : ChangeList) : Prop :=
  String.compare (_path a) (_path b) = Lt.

(** The changed bytes of one file. *)
Definition file_size (f : AffectedFile) : Z :=
  fold_right Z.add 0 (map (fun c => fst c + snd c) (ChangeSizeInBytes f)).

(** The owner [o] is a possible owner of the path [p] and leaves it
    covered, by the two queries of the database. *)
Definition covers (db : Database) (au : option string) (o p : string) : Prop :=
  In o (all_possible_owners db [p] au) /\
  files_not_covered_by db [p] [o] = [].

(** The approver set a unit has stored is sound: every owner in it
    is, for every file of the unit, one of the owners [_EnsureOwners]
    finds for that file alone; and a unit whose approver set is not known
    yet has one file at most. *)
Definition owners_sound (db : Database) (au : option string) (u : ChangeList)
  : Prop :=
  (owners_truthy (_owners u) = false -> (List.length (_files u) <= 1)%nat) /\
  (forall o f,
     owners_truthy (_owners u) = true ->
     In o (owners_value (_owners u)) -> In f (_files u) ->
     In o (covering_owners db au [LocalPath f])).

(** The call the loop of [SplitCl] makes for the change list [cl] in
    the iteration of index [i], with [r] as the reviewer: in a dry run
    [PrintClInfo] with the paths of the files of [cl], otherwise
    [UploadCl] with [files], all the files of the change. *)
Definition call_for (dry_run : bool) (files : list AffectedFile)
    (num_cls i : nat) (cl : ChangeList) (r : string) : cl_call :=
  if dry_run
  then PrintClInfo_call i num_cls (_path cl) (map LocalPath (_files cl)) r
  else UploadCl_call i (_path cl) files r.

(** The key [k] is not the path [d] and does not go on after it: no
    candidate under [k] is a candidate of the directory [d] or of
    something below it. *)
Definition outside (d k : string) : Prop := String.prefix d k = false.

(** What a run keeps while its steps stay away from the path [p]: the
    keys of the trie are as [ok] asks, no emitted unit is anchored at
    [p], and every candidate is anchored at its key. *)
Definition apart (p : string) (ok : string -> Prop) (st : state) : Prop :=
  (forall k, Trie.contains k (candidates st) = true -> ok k) /\
  Forall (fun u => _path u <> p) (change_lists st) /\
  (forall k v, Trie.find k (candidates st) = Some v -> _path v = k).

(** Before the body visits the candidate of the file [f]: the candidate
    is in the trie as the seed made it, and no other key is in the
    directory of [f]. *)
Definition waiting (f : AffectedFile) (st : state) : Prop :=
  Trie.find (LocalPath f) (candidates st)
    = Some (mkChangeList (LocalPath f) [f] None) /\
  apart (LocalPath f)
        (fun k => k = LocalPath f \/ outside (dirname (LocalPath f)) k) st.

(** After the visit: the unit [u] is in the list of the emitted units,
    and no key is in the directory of [f]. *)
Definition emitted_in_dir (f : AffectedFile) (u : ChangeList) (st : state)
  : Prop :=
  In u (change_lists st) /\
  apart (LocalPath f) (outside (dirname (LocalPath f))) st.

(** The state with one more candidate, under the empty key: the empty
    string comes before every other key. *)
Definition with_nameless (c0 : ChangeList) (st : state) : state :=
  mkState (("", c0) :: candidates st) (change_lists st).

(** The result of a call, seen through a function. *)
Definition outcome_map {A B : Type} (g : A -> B) (m : outcome A) : outcome B :=
  match m with
  | Return a => Return (g a)
  | Raise x => Raise x
  | OutOfFuel => OutOfFuel
  end.

(* ================================================================== *)
(** * Properties

    The development first establishes the order of the keys, [dirname]
    and the trie, then what one run of the loop body does ([item_step]),
    and lifts what the steps keep to a pass and to the loop
    ([merge_pass_rel], [merge_loop_rel]).  The statements about the
    program follow:

    - [SplitCLs_partition]: on relative, pairwise distinct paths the
      returned units hold every file exactly once;
    - [approvers_resolved_lazily]: [GetOwners] never returns an empty
      set, and the drain does not call it;
    - [SplitCLs_order_independent]: on pairwise distinct paths the result
      does not depend on the order of the files;
    - [SplitCLs_single_over_budget]: a file over the budget that is
      alone in its directory is merged into the candidate of the
      directory, which is then emitted;
    - [Merge_stores_common_owners]: the approver set kept after a merge;
    - [SplitCLs_no_ingestion_check]: empty and repeated paths are taken
      as they come, and the call ends as it does without them;
    - [loop_emits_over_budget]: the loop emits only units over the budget;
    - [sub_cls_counts_sibling]: the count of [sub_cls] takes in the
      siblings whose name goes on after the name of the directory;
    - [merge_loop_terminates]: the loop ends, and the measure that says
      why;
    - [empty_unit_emitted]: a unit without files can be returned. *)

(* ------------------------------------------------------------------ *)
(** ** The order of the keys *)

Lemma ascii_compare_refl (a : ascii) : Ascii.compare a a = Eq.
Proof. unfold Ascii.compare. apply N.compare_refl. Qed.

Lemma ascii_compare_lt_trans (a b c : ascii) :
  Ascii.compare a b = Lt -> Ascii.compare b c = Lt -> Ascii.compare a c = Lt.
Proof.
  unfold Ascii.compare. rewrite !N.compare_lt_iff. apply N.lt_trans.
Qed.

Lemma compare_refl (s : string) : String.compare s s = Eq.
Proof.
  induction s as [|a s IH]; simpl; [reflexivity|].
  now rewrite ascii_compare_refl.
Qed.

Lemma compare_eq (a b : string) : String.compare a b = Eq <-> a = b.
Proof.
  split; [apply String.compare_eq_iff|intros ->; apply compare_refl].
Qed.

Lemma compare_lt_neq (a b : string) : String.compare a b = Lt -> a <> b.
Proof. intros H ->. rewrite compare_refl in H. discriminate. Qed.

Lemma compare_gt_lt (a b : string) :
  String.compare a b = Gt <-> String.compare b a = Lt.
Proof.
  rewrite (String.compare_antisym b a).
  destruct (String.compare a b); simpl; split; congruence.
Qed.

Lemma compare_lt_trans (a b c : string) :
  String.compare a b = Lt -> String.compare b c = Lt -> String.compare a c = Lt.
Proof.
  revert b c.
  induction a as [|x a IH]; intros [|y b] [|z c]; simpl; try congruence.
  destruct (Ascii.compare x y) eqn:Exy; try discriminate;
    destruct (Ascii.compare y z) eqn:Eyz; try discriminate; intros Hab Hbc.
  - apply Ascii.compare_eq_iff in Exy, Eyz. subst.
    rewrite ascii_compare_refl. eauto.
  - apply Ascii.compare_eq_iff in Exy. subst. now rewrite Eyz.
  - apply Ascii.compare_eq_iff in Eyz. subst. now rewrite Exy.
  - now rewrite (ascii_compare_lt_trans _ _ _ Exy Eyz).
Qed.

Lemma compare_lt_asym (a b : string) :
  String.compare a b = Lt -> String.compare b a = Lt -> False.
Proof.
  intros H1 H2. pose proof (compare_lt_trans _ _ _ H1 H2) as H.
  rewrite compare_refl in H. discriminate.
Qed.

(** *** Prefixes *)

Lemma prefix_refl (s : string) : String.prefix s s = true.
Proof.
  induction s as [|a s IH]; simpl; [reflexivity|].
  destruct (ascii_dec a a); congruence.
Qed.


Lemma prefix_cons (a b : ascii) (s r : string) :
  String.prefix (String a s) (String b r) = true <->
  a = b /\ String.prefix s r = true.
Proof.
  simpl. destruct (ascii_dec a b); split; intros; try tauto; try congruence.
Qed.

Lemma prefix_trans (a b c : string) :
  String.prefix a b = true -> String.prefix b c = true ->
  String.prefix a c = true.
Proof.
  revert b c. induction a as [|x a IH]; intros b c; [now destruct c|].
  destruct b as [|y b]; [simpl; discriminate|].
  destruct c as [|z c]; [simpl; discriminate|].
  rewrite !prefix_cons. intros [-> Hab] [-> Hbc]. eauto.
Qed.

Lemma prefix_length (a b : string) :
  String.prefix a b = true -> (String.length a <= String.length b)%nat.
Proof.
  revert b. induction a as [|x a IH]; intros b; simpl; [lia|].
  destruct b as [|y b]; [discriminate|].
  rewrite prefix_cons. intros [_ H]. apply IH in H. simpl. lia.
Qed.

Lemma prefix_full (a b : string) :
  String.prefix a b = true -> (String.length b <= String.length a)%nat -> a = b.
Proof.
  revert b. induction a as [|x a IH]; intros [|y b];
    try discriminate; try reflexivity; try (simpl; lia).
  rewrite prefix_cons. simpl. intros [-> H] Hl. f_equal. apply IH; [assumption|lia].
Qed.

Lemma prefix_antisym (a b : string) :
  String.prefix a b = true -> String.prefix b a = true -> a = b.
Proof.
  intros H1 H2. apply prefix_full; [assumption|].
  now apply prefix_length.
Qed.

(** A key comes before its extensions. *)
Lemma prefix_compare (a b : string) :
  String.prefix a b = true -> a = b \/ String.compare a b = Lt.
Proof.
  revert b. induction a as [|x a IH]; intros [|y b]; auto; try discriminate.
  rewrite prefix_cons. intros [-> H]. simpl. rewrite ascii_compare_refl.
  destruct (IH _ H); [left; congruence|now right].
Qed.

Lemma prefix_not_after (a b : string) :
  String.prefix a b = true -> String.compare b a = Lt -> False.
Proof.
  intros Hp Hlt. destruct (prefix_compare _ _ Hp) as [->|H].
  - rewrite compare_refl in Hlt. discriminate.
  - eapply compare_lt_asym; eassumption.
Qed.

(* ------------------------------------------------------------------ *)
(** ** [dirname] *)

Lemma substring_prefix (n : nat) (s : string) :
  String.prefix (substring 0 n s) s = true.
Proof.
  revert n. induction s as [|a s IH]; intros [|n]; simpl; try reflexivity.
  destruct (ascii_dec a a); [apply IH|congruence].
Qed.

Lemma rstrip_prefix (c : ascii) (s : string) :
  String.prefix (rstrip c s) s = true.
Proof.
  induction s as [|a s IH]; [reflexivity|].
  cbn [rstrip]. destruct (rstrip c s) as [|b r] eqn:E.
  - destruct (Ascii.eqb a c); [reflexivity|].
    apply prefix_cons. split; [reflexivity|now destruct s].
  - apply prefix_cons. tauto.
Qed.

Lemma dirname_prefix (p : string) : String.prefix (dirname p) p = true.
Proof.
  unfold dirname, slice_to.
  set (h := substring 0 _ p).
  assert (Hh : String.prefix h p = true) by apply substring_prefix.
  destruct (_ && _); [|assumption].
  eapply prefix_trans; [apply rstrip_prefix|eassumption].
Qed.


Lemma slice_to_cons (k : Z) (a : ascii) (s : string) :
  0 <= k -> slice_to (k + 1) (String a s) = String a (slice_to k s).
Proof.
  intros Hk. unfold slice_to.
  replace (Z.to_nat (k + 1)) with (S (Z.to_nat k)) by lia.
  reflexivity.
Qed.

Lemma slice_to_0 (s : string) : slice_to 0 s = "".
Proof. now destruct s. Qed.

Lemma ends_with_cons (c a : ascii) (s : string) :
  s <> "" -> ends_with c (String a s) = ends_with c s.
Proof. destruct s; [congruence|reflexivity]. Qed.

(** The slice [p[:p.rfind(c) + 1]] is empty or ends with [c]. *)
Lemma slice_rfind_ends (c : ascii) (p : string) :
  slice_to (rfind c p + 1) p = "" \/
  ends_with c (slice_to (rfind c p + 1) p) = true.
Proof.
  induction p as [|a p IH]; [now left|].
  cbn [rfind]. destruct (0 <=? rfind c p) eqn:E.
  - apply Z.leb_le in E. rewrite slice_to_cons by lia. right.
    destruct p as [|b p]; [simpl in E; lia|].
    rewrite slice_to_cons in * by assumption.
    destruct IH as [IH|IH]; [discriminate|].
    rewrite ends_with_cons; [assumption|discriminate].
  - destruct (Ascii.eqb a c) eqn:Eac.
    + right. rewrite (slice_to_cons 0) by lia. rewrite slice_to_0.
      simpl. assumption.
    + left. apply slice_to_0.
Qed.

Lemma rstrip_length_cons (c a : ascii) (s : string) :
  (String.length (rstrip c (String a s)) <= S (String.length (rstrip c s)))%nat.
Proof.
  cbn [rstrip]. destruct (rstrip c s); [|simpl; lia].
  destruct (Ascii.eqb a c); simpl; lia.
Qed.

Lemma rstrip_shorter (c : ascii) (s : string) :
  ends_with c s = true ->
  (String.length (rstrip c s) < String.length s)%nat.
Proof.
  induction s as [|a s IH]; [discriminate|].
  destruct s as [|b s].
  - simpl. intros ->. simpl. lia.
  - rewrite ends_with_cons by discriminate. intros H. apply IH in H.
    pose proof (rstrip_length_cons c a (String b s)).
    change (String.length (String a (String b s)))
      with (S (String.length (String b s))).
    lia.
Qed.

(** Only the empty path and the paths made of slashes are their own
    directory. *)
Lemma dirname_fixed (p : string) :
  dirname p = p -> p = "" \/ leading_slash p = true.
Proof.
  unfold dirname. set (h := slice_to (rfind slash p + 1) p).
  assert (Hh : String.prefix h p = true) by apply substring_prefix.
  destruct (negb (h =? "")%string) eqn:E1; simpl.
  - apply negb_true_iff, String.eqb_neq in E1.
    destruct (negb (h =? repeat_char slash (String.length h))%string) eqn:E2.
    + intros Hp. exfalso.
      destruct (slice_rfind_ends slash p) as [H|H]; fold h in H; [tauto|].
      apply rstrip_shorter in H. rewrite Hp in H.
      apply prefix_length in Hh. lia.
    + apply negb_false_iff, String.eqb_eq in E2. intros ->. right.
      destruct p as [|a p]; [congruence|].
      simpl in E2. injection E2 as -> _.
      apply prefix_cons. split; [reflexivity|now destruct p].
  - apply negb_false_iff, String.eqb_eq in E1. intros Hp. left. congruence.
Qed.

Lemma leading_slash_prefix (q p : string) :
  String.prefix q p = true -> leading_slash q = true -> leading_slash p = true.
Proof. unfold leading_slash. intros Hq H. eapply prefix_trans; eassumption. Qed.

Lemma dirname_relative (p : string) :
  leading_slash p = false -> leading_slash (dirname p) = false.
Proof.
  intros H. destruct (leading_slash (dirname p)) eqn:E; [|reflexivity].
  rewrite (leading_slash_prefix _ _ (dirname_prefix p) E) in H. discriminate.
Qed.

Lemma dirname_proper (p : string) :
  leading_slash p = false -> dirname p <> "" -> dirname p <> p.
Proof.
  intros Hrel Hne Hfix. destruct (dirname_fixed _ Hfix); congruence.
Qed.

(* ------------------------------------------------------------------ *)
(** ** The trie *)

Section TrieFacts.

Context {V : Type}.
Implicit Types (tr : Trie.t V) (k key : string) (v : V).

Lemma find_set_same key v tr : Trie.find key (Trie.set key v tr) = Some v.
Proof.
  induction tr as [|[k0 v0] tr IH]; simpl.
  - now rewrite String.eqb_refl.
  - destruct (String.compare key k0) eqn:E; simpl.
    + now rewrite String.eqb_refl.
    + now rewrite String.eqb_refl.
    + apply compare_gt_lt, compare_lt_neq in E.
      apply not_eq_sym, String.eqb_neq in E. now rewrite E.
Qed.

Lemma find_set_other k key v tr :
  k <> key -> Trie.find k (Trie.set key v tr) = Trie.find k tr.
Proof.
  intros Hne. apply String.eqb_neq in Hne.
  induction tr as [|[k0 v0] tr IH]; simpl.
  - now rewrite Hne.
  - destruct (String.compare key k0) eqn:E; simpl.
    + apply compare_eq in E. subst. now rewrite Hne.
    + now rewrite Hne.
    + now rewrite IH.
Qed.

Lemma find_remove_same key tr : Trie.find key (Trie.remove key tr) = None.
Proof.
  induction tr as [|[k0 v0] tr IH]; simpl; [reflexivity|].
  destruct (key =? k0)%string eqn:E; simpl; [assumption|now rewrite E].
Qed.

Lemma find_remove_other k key tr :
  k <> key -> Trie.find k (Trie.remove key tr) = Trie.find k tr.
Proof.
  intros Hne. induction tr as [|[k0 v0] tr IH]; simpl; [reflexivity|].
  destruct (key =? k0)%string eqn:E; simpl.
  - apply String.eqb_eq in E. subst.
    apply String.eqb_neq in Hne. now rewrite Hne.
  - now rewrite IH.
Qed.

Lemma find_In k v tr : Trie.find k tr = Some v -> In (k, v) tr.
Proof.
  induction tr as [|[k0 v0] tr IH]; simpl; [discriminate|].
  destruct (k =? k0)%string eqn:E.
  - apply String.eqb_eq in E. intros [= ->]. left. congruence.
  - auto.
Qed.

Lemma find_None k tr : Trie.find k tr = None <-> ~ In k (map fst tr).
Proof.
  induction tr as [|[k0 v0] tr IH]; simpl; [tauto|].
  destruct (k =? k0)%string eqn:E.
  - apply String.eqb_eq in E. split; [discriminate|]. intros H.
    exfalso. apply H. left. congruence.
  - apply String.eqb_neq in E. rewrite IH. split; [|tauto].
    intros H [H1|H1]; [congruence|tauto].
Qed.

Lemma contains_In k tr : Trie.contains k tr = true <-> In k (map fst tr).
Proof.
  unfold Trie.contains. pose proof (find_None k tr) as H.
  destruct (Trie.find k tr).
  - split; [intros _|reflexivity].
    destruct (in_dec string_dec k (map fst tr)) as [Hin|Hin]; [assumption|].
    apply H in Hin. discriminate.
  - split; [discriminate|]. intros Hin.
    exfalso. now apply (proj1 H eq_refl).
Qed.

Lemma In_set kv key v tr :
  In kv (Trie.set key v tr) -> kv = (key, v) \/ In kv tr.
Proof.
  induction tr as [|[k0 v0] tr IH]; simpl; [intuition auto|].
  destruct (String.compare key k0); simpl; intuition auto.
Qed.

Lemma In_remove kv key tr : In kv (Trie.remove key tr) -> In kv tr.
Proof.
  induction tr as [|[k0 v0] tr IH]; simpl; [tauto|].
  destruct (key =? k0)%string; simpl; intuition auto.
Qed.

Lemma sorted_set key v tr : sorted tr -> sorted (Trie.set key v tr).
Proof.
  unfold sorted. induction 1 as [|[k0 v0] tr Hs IH Hall]; simpl.
  - repeat constructor.
  - destruct (String.compare key k0) eqn:E.
    + apply compare_eq in E. subst. now constructor.
    + constructor; [now constructor|]. constructor; [exact E|].
      eapply Forall_impl; [|exact Hall]. intros [k1 v1] H.
      unfold key_lt in *. simpl in *. eapply compare_lt_trans; eassumption.
    + constructor; [assumption|]. apply Forall_forall. intros kv Hin.
      apply In_set in Hin. destruct Hin as [->|Hin].
      * now apply compare_gt_lt.
      * rewrite Forall_forall in Hall. auto.
Qed.

Lemma sorted_remove key tr : sorted tr -> sorted (Trie.remove key tr).
Proof.
  unfold sorted. induction 1 as [|[k0 v0] tr Hs IH Hall]; simpl.
  - constructor.
  - destruct (key =? k0)%string; [assumption|].
    constructor; [assumption|]. apply Forall_forall. intros kv Hin.
    apply In_remove in Hin. rewrite Forall_forall in Hall. auto.
Qed.

Lemma sorted_head_fresh k v tr : sorted ((k, v) :: tr) -> Trie.find k tr = None.
Proof.
  intros Hs. apply find_None. intros Hin. apply in_map_iff in Hin.
  destruct Hin as [[k1 v1] [Hk Hin]]. simpl in Hk. subst.
  inversion Hs as [|x l _ Hall]; subst. rewrite Forall_forall in Hall.
  apply Hall in Hin. unfold key_lt in Hin. simpl in Hin.
  rewrite compare_refl in Hin. discriminate.
Qed.

Lemma sorted_tail x tr : sorted (x :: tr) -> sorted tr.
Proof. intros Hs. now inversion Hs. Qed.

(** A sorted trie is determined by its lookups. *)
Lemma sorted_ext tr1 tr2 :
  sorted tr1 -> sorted tr2 ->
  (forall k, Trie.find k tr1 = Trie.find k tr2) -> tr1 = tr2.
Proof.
  intros Hs1. revert tr2.
  induction tr1 as [|[k1 v1] tr1 IH]; intros [|[k2 v2] tr2] Hs2 Hf.
  - reflexivity.
  - specialize (Hf k2). simpl in Hf. rewrite String.eqb_refl in Hf. discriminate.
  - specialize (Hf k1). simpl in Hf. rewrite String.eqb_refl in Hf. discriminate.
  - assert (Hk : k1 = k2).
    { destruct (String.compare k1 k2) eqn:E.
      - now apply compare_eq.
      - exfalso. pose proof (Hf k1) as H. simpl in H.
        rewrite String.eqb_refl in H.
        destruct (k1 =? k2)%string eqn:E2;
          [apply String.eqb_eq in E2; subst; rewrite compare_refl in E;
           discriminate|].
        symmetry in H. apply find_In in H.
        inversion Hs2 as [|x l _ Hall]; subst. rewrite Forall_forall in Hall.
        apply Hall in H. unfold key_lt in H. simpl in H.
        eapply compare_lt_asym; eassumption.
      - exfalso. apply compare_gt_lt in E. pose proof (Hf k2) as H. simpl in H.
        rewrite String.eqb_refl in H.
        destruct (k2 =? k1)%string eqn:E2;
          [apply String.eqb_eq in E2; subst; rewrite compare_refl in E;
           discriminate|].
        apply find_In in H.
        inversion Hs1 as [|x l _ Hall]; subst. rewrite Forall_forall in Hall.
        apply Hall in H. unfold key_lt in H. simpl in H.
        eapply compare_lt_asym; eassumption. }
    subst k2. pose proof (Hf k1) as H. simpl in H.
    rewrite String.eqb_refl in H. injection H as ->.
    f_equal. apply IH; [eapply sorted_tail; eassumption
                       |eapply sorted_tail; eassumption|].
    intros k. specialize (Hf k). simpl in Hf.
    destruct (k =? k1)%string eqn:E; [|assumption].
    apply String.eqb_eq in E. subst.
    rewrite (sorted_head_fresh _ _ _ Hs1), (sorted_head_fresh _ _ _ Hs2).
    reflexivity.
Qed.

Lemma remove_absent key tr : Trie.find key tr = None -> Trie.remove key tr = tr.
Proof.
  induction tr as [|[k0 v0] tr IH]; simpl; [reflexivity|].
  destruct (key =? k0)%string; [discriminate|]. intros H. now rewrite IH.
Qed.

Lemma set_remove key v tr :
  sorted tr -> Trie.set key v (Trie.remove key tr) = Trie.set key v tr.
Proof.
  intros Hs. apply sorted_ext.
  - now apply sorted_set, sorted_remove.
  - now apply sorted_set.
  - intros k. destruct (string_dec k key) as [->|Hne].
    + now rewrite !find_set_same.
    + now rewrite !find_set_other, find_remove_other by assumption.
Qed.

Lemma set_set_comm k1 v1 k2 v2 tr :
  sorted tr -> k1 <> k2 ->
  Trie.set k1 v1 (Trie.set k2 v2 tr) = Trie.set k2 v2 (Trie.set k1 v1 tr).
Proof.
  intros Hs Hne. apply sorted_ext; try (now repeat apply sorted_set).
  intros k. destruct (string_dec k k1) as [->|H1].
  - rewrite find_set_same, find_set_other, find_set_same by assumption.
    reflexivity.
  - rewrite (find_set_other k k1) by assumption.
    destruct (string_dec k k2) as [->|H2].
    + now rewrite !find_set_same.
    + now rewrite !find_set_other by assumption.
Qed.

(** The values of a trie, insertion and removal. *)
Lemma values_set_fresh key v tr :
  Trie.find key tr = None ->
  Permutation (map snd (Trie.set key v tr)) (v :: map snd tr).
Proof.
  induction tr as [|[k0 v0] tr IH]; simpl; [auto|].
  destruct (key =? k0)%string eqn:E; [discriminate|]. intros H.
  destruct (String.compare key k0) eqn:Ec; simpl.
  - apply compare_eq in Ec. apply String.eqb_neq in E. contradiction.
  - reflexivity.
  - rewrite IH by assumption. apply perm_swap.
Qed.

Lemma values_remove key v tr :
  sorted tr -> Trie.find key tr = Some v ->
  Permutation (map snd tr) (v :: map snd (Trie.remove key tr)).
Proof.
  induction tr as [|[k0 v0] tr IH]; simpl; [discriminate|]. intros Hs.
  destruct (key =? k0)%string eqn:E.
  - apply String.eqb_eq in E. subst. intros [= ->].
    rewrite remove_absent; [reflexivity|].
    eapply sorted_head_fresh; eassumption.
  - intros H. simpl. rewrite IH; [apply perm_swap|..|assumption].
    eapply sorted_tail; eassumption.
Qed.

Lemma values_set key v tr :
  sorted tr ->
  Permutation (map snd (Trie.set key v tr))
              (v :: map snd (Trie.remove key tr)).
Proof.
  intros Hs. rewrite <- set_remove by assumption.
  apply values_set_fresh, find_remove_same.
Qed.

Lemma keys_set k key v tr :
  In k (map fst (Trie.set key v tr)) <-> k = key \/ In k (map fst tr).
Proof.
  rewrite <- !contains_In. unfold Trie.contains.
  destruct (string_dec k key) as [->|Hne].
  - rewrite find_set_same. tauto.
  - rewrite find_set_other by assumption.
    destruct (Trie.find k tr); intuition congruence.
Qed.

Lemma keys_remove k key tr :
  In k (map fst (Trie.remove key tr)) <-> k <> key /\ In k (map fst tr).
Proof.
  rewrite <- !contains_In. unfold Trie.contains.
  destruct (string_dec k key) as [->|Hne].
  - rewrite find_remove_same. intuition congruence.
  - rewrite find_remove_other by assumption.
    destruct (Trie.find k tr); intuition congruence.
Qed.

End TrieFacts.

(* ------------------------------------------------------------------ *)
(** ** The methods of [ChangeList] *)

Section MethodFacts.

Variable db : Database.
Variable au : option string.

Lemma ensured_path self : _path (ensured db au self) = _path self.
Proof. unfold ensured. now destruct (owners_truthy _). Qed.

Lemma ensured_files self : _files (ensured db au self) = _files self.
Proof. unfold ensured. now destruct (owners_truthy _). Qed.

Lemma ensured_truthy self :
  owners_truthy (_owners self) = true -> ensured db au self = self.
Proof. unfold ensured. now intros ->. Qed.

Lemma ensured_idem self :
  ensured db au (ensured db au self) = ensured db au self.
Proof.
  unfold ensured at 2 3. destruct (owners_truthy (_owners self)) eqn:E.
  - now apply ensured_truthy.
  - unfold ensured. simpl.
    destruct (covering_owners db au (owner_query self)) eqn:Ec; simpl;
      [|reflexivity].
    unfold owner_query, set_owners, GetFiles, GetPath. simpl.
    unfold owner_query, GetFiles, GetPath in Ec. now rewrite Ec.
Qed.

Lemma owners_truthy_value o :
  owners_truthy o = true <-> owners_value o <> [].
Proof.
  destruct o as [[|x l]|]; simpl; split; congruence.
Qed.

Lemma EnsureOwners_eq self :
  _EnsureOwners db au self =
  if owners_truthy (_owners (ensured db au self))
  then Return (ensured db au self) else Raise AssertionError.
Proof.
  unfold _EnsureOwners, ensured.
  destruct (owners_truthy (_owners self)) eqn:E; simpl; [now rewrite E|].
  now destruct (covering_owners db au (owner_query self)).
Qed.

Lemma GetOwners_eq self :
  GetOwners db au self =
  if owners_truthy (_owners (ensured db au self))
  then Return (ensured db au self,
               owners_value (_owners (ensured db au self)))
  else Raise AssertionError.
Proof.
  unfold GetOwners. rewrite EnsureOwners_eq.
  now destruct (owners_truthy _).
Qed.

Lemma GetCommonOwners_eq self other :
  GetCommonOwners db au self other =
  if owners_truthy (_owners (ensured db au self))
     && owners_truthy (_owners (ensured db au other))
  then Return (ensured db au self, ensured db au other,
               inter_owners (owners_value (_owners (ensured db au self)))
                            (owners_value (_owners (ensured db au other))))
  else Raise AssertionError.
Proof.
  unfold GetCommonOwners. rewrite !GetOwners_eq.
  destruct (owners_truthy (_owners (ensured db au self))); simpl;
    [|reflexivity].
  now destruct (owners_truthy (_owners (ensured db au other))).
Qed.

Lemma HaveCommonOwners_eq self other :
  HaveCommonOwners db au self other =
  if owners_truthy (_owners (ensured db au self))
     && owners_truthy (_owners (ensured db au other))
  then Return (ensured db au self, ensured db au other,
               0 <? Z.of_nat (List.length
                 (inter_owners (owners_value (_owners (ensured db au self)))
                               (owners_value (_owners (ensured db au other))))))
  else Raise AssertionError.
Proof.
  unfold HaveCommonOwners. rewrite GetCommonOwners_eq.
  now destruct (_ && _).
Qed.

Lemma Merge_eq self other :
  Merge db au self other =
  if owners_truthy (_owners (ensured db au self))
     && owners_truthy (_owners (ensured db au other))
  then Return (merged (ensured db au self) (ensured db au other),
               ensured db au other)
  else Raise AssertionError.
Proof.
  unfold Merge. rewrite GetCommonOwners_eq.
  now destruct (_ && _).
Qed.

Lemma nonempty_length {A : Type} (l : list A) :
  (0 <? Z.of_nat (List.length l)) = true <-> l <> [].
Proof.
  destruct l; simpl; split; try congruence; try lia.
  intros _. apply Z.ltb_lt. lia.
Qed.

End MethodFacts.

(* ------------------------------------------------------------------ *)
(** ** One entry of a pass *)

Section ItemFacts.

Variable db : Database.
Variable au : option string.

(** Every return of the body is one of the four steps. *)
Lemma merge_item_step st path c st' e :
  merge_item db au st path c = Return (st', e) ->
  item_step db au st path c st' e.
Proof.
  unfold merge_item, count_sub_cls, Trie.keys.
  destruct (filter _ _) as [|k0 ks] eqn:Ek.
  { destruct (path =? "")%string; [|discriminate].
    cbn. intros [= <- <-]. constructor. }
  cbn [bind].
  destruct (negb _) eqn:E0; [intros [= <- <-]; constructor|].
  apply negb_false_iff, Z.eqb_eq in E0.
  assert (Hlen : List.length (k0 :: ks) = 1%nat) by lia.
  rewrite <- Ek in Hlen. clear E0.
  destruct (_ <? 1) eqn:E1; [intros [= <- <-]; constructor|].
  assert (Hpp : dirname path <> "").
  { intros H. rewrite H in E1. discriminate. }
  cbv zeta. fold (with_parent (dirname path) (candidates st)).
  unfold Trie.get.
  destruct (Trie.find _ (with_parent _ _)) as [p|] eqn:Ef; [|discriminate].
  cbn [bind]. rewrite HaveCommonOwners_eq.
  destruct (_ && _) eqn:Et; [|discriminate]. cbn [bind].
  apply andb_true_iff in Et. destruct Et as [Etp Etc].
  assert (Hat : attempt db au st path c p) by (repeat split; assumption).
  destruct (negb _) eqn:Eh.
  - intros [= <- <-]. apply step_reject; [assumption|].
    apply negb_true_iff in Eh. unfold common.
    destruct (inter_owners _ _) eqn:Ei; [reflexivity|].
    simpl in Eh. apply Z.ltb_ge in Eh. lia.
  - apply negb_false_iff, nonempty_length in Eh.
    unfold Trie.del. unfold Trie.contains at 1. rewrite find_set_same.
    cbn [bind]. rewrite Merge_eq, !ensured_idem, Etp, Etc. cbn [bind andb].
    fold (checked db au st path c p). fold (unit_of db au p c).
    fold (folded db au st path c p).
    destruct (max_cl_size <? _) eqn:Es.
    + apply Z.ltb_lt in Es.
      destruct (Trie.contains _ (folded _ _ _ _ _ _)) eqn:Ec; [|discriminate].
      cbn [bind]. intros [= <- <-]. now apply step_emit.
    + apply Z.ltb_ge in Es. intros [= <- <-]. now apply step_keep.
Qed.

(** *** The tries of a step, by their lookups *)

Lemma sorted_with_parent pp tr : sorted tr -> sorted (with_parent pp tr).
Proof.
  intros Hs. unfold with_parent. destruct (negb _); [|assumption].
  now apply sorted_set.
Qed.

Lemma find_with_parent_other k pp tr :
  k <> pp -> Trie.find k (with_parent pp tr) = Trie.find k tr.
Proof.
  intros Hne. unfold with_parent. destruct (negb _); [|reflexivity].
  now apply find_set_other.
Qed.

Lemma find_with_parent pp tr :
  Trie.find pp (with_parent pp tr) =
  match Trie.find pp tr with
  | Some p => Some p
  | None => Some (mkChangeList pp [] None)
  end.
Proof.
  unfold with_parent, Trie.contains.
  destruct (Trie.find pp tr) eqn:E; simpl; [assumption|].
  apply find_set_same.
Qed.

Lemma find_checked st path c p k :
  Trie.find k (checked db au st path c p) =
  if (k =? path)%string then Some (ensured db au c)
  else if (k =? dirname path)%string then Some (ensured db au p)
  else Trie.find k (candidates st).
Proof.
  unfold checked. destruct (String.eqb_spec k path) as [->|Hp].
  - apply find_set_same.
  - rewrite find_set_other by assumption.
    destruct (String.eqb_spec k (dirname path)) as [->|Hpp].
    + apply find_set_same.
    + rewrite find_set_other by assumption.
      now apply find_with_parent_other.
Qed.

Lemma sorted_checked st path c p :
  sorted (candidates st) -> sorted (checked db au st path c p).
Proof.
  intros Hs. unfold checked. now apply sorted_set, sorted_set, sorted_with_parent.
Qed.

Lemma find_folded st path c p k :
  Trie.find k (folded db au st path c p) =
  if (k =? path)%string then None
  else if (k =? dirname path)%string then Some (unit_of db au p c)
  else Trie.find k (candidates st).
Proof.
  unfold folded, Trie.contains. cbv zeta.
  destruct (String.eqb_spec (dirname path) path) as [Ha|Ha].
  - rewrite Ha, find_remove_same.
    destruct (String.eqb_spec k path) as [->|Hp].
    + apply find_remove_same.
    + rewrite find_remove_other, find_checked by assumption.
      rewrite Ha. apply String.eqb_neq in Hp. now rewrite Hp.
  - rewrite find_remove_other, find_checked by assumption.
    apply String.eqb_neq in Ha. rewrite Ha, String.eqb_refl.
    apply String.eqb_neq in Ha.
    destruct (String.eqb_spec k path) as [->|Hp].
    + rewrite find_set_other by congruence. apply find_remove_same.
    + destruct (String.eqb_spec k (dirname path)) as [->|Hpp].
      * apply find_set_same.
      * rewrite find_set_other, find_remove_other, find_checked by assumption.
        apply String.eqb_neq in Hp, Hpp. now rewrite Hp, Hpp.
Qed.

Lemma sorted_folded st path c p :
  sorted (candidates st) -> sorted (folded db au st path c p).
Proof.
  intros Hs. unfold folded. cbv zeta.
  assert (sorted (Trie.remove path (checked db au st path c p)))
    by now apply sorted_remove, sorted_checked.
  destruct (Trie.contains _ _); [now apply sorted_set|assumption].
Qed.

(** *** What every step keeps *)

Lemma step_sorted st path c st' e :
  item_step db au st path c st' e ->
  sorted (candidates st) -> sorted (candidates st').
Proof.
  intros Hstep Hs. destruct Hstep; simpl.
  - assumption.
  - now apply sorted_checked.
  - now apply sorted_folded.
  - now apply sorted_remove, sorted_folded.
Qed.

(** A step touches the entries of [path] and of its directory only. *)
Lemma step_frame st path c st' e k :
  item_step db au st path c st' e ->
  k <> path -> k <> dirname path ->
  Trie.find k (candidates st') = Trie.find k (candidates st).
Proof.
  intros Hstep Hp Hpp.
  pose proof Hp as Ep. pose proof Hpp as Epp.
  apply String.eqb_neq in Ep, Epp.
  destruct Hstep; simpl.
  - reflexivity.
  - now rewrite find_checked, Ep, Epp.
  - now rewrite find_folded, Ep, Epp.
  - rewrite find_remove_other by assumption.
    now rewrite find_folded, Ep, Epp.
Qed.

Lemma step_lists st path c st' e :
  item_step db au st path c st' e ->
  change_lists st' = change_lists st \/
  exists p,
    change_lists st' = change_lists st ++ [unit_of db au p c] /\
    common db au p c <> [] /\
    max_cl_size < GetChangeSizeInBytes (unit_of db au p c).
Proof.
  intros Hstep. destruct Hstep; simpl; auto.
  right. exists p. auto.
Qed.

(** The body of the loop never runs out of fuel. *)
Lemma merge_item_fuel st path c : merge_item db au st path c <> OutOfFuel.
Proof.
  unfold merge_item, count_sub_cls, Trie.keys, Trie.get, Trie.del.
  destruct (filter _ _);
    [destruct (path =? "")%string; cbn; discriminate|]. cbn [bind].
  destruct (negb _); [discriminate|].
  destruct (_ <? 1); [discriminate|]. cbv zeta.
  destruct (Trie.find _ _); [|discriminate]. cbn [bind].
  rewrite HaveCommonOwners_eq. destruct (_ && _); [|discriminate]. cbn [bind].
  destruct (negb _); [discriminate|].
  destruct (Trie.contains path _); [|discriminate]. cbn [bind].
  rewrite Merge_eq. destruct (_ && _); [|discriminate]. cbn [bind].
  destruct (max_cl_size <? _); [|discriminate].
  destruct (Trie.contains _ _); discriminate.
Qed.

End ItemFacts.

(* ------------------------------------------------------------------ *)
(** ** A pass and the loop, for any relation the steps keep *)

Lemma In_find {V : Type} (tr : Trie.t V) k v :
  sorted tr -> In (k, v) tr -> Trie.find k tr = Some v.
Proof.
  induction tr as [|[k0 v0] tr IH]; simpl; [tauto|]. intros Hs [Heq|Hin].
  - injection Heq as -> ->. now rewrite String.eqb_refl.
  - destruct (String.eqb_spec k k0) as [->|Hne].
    + apply sorted_head_fresh in Hs. apply find_None in Hs.
      exfalso. apply Hs. apply in_map_iff. now exists (k0, v).
    + apply IH; [eapply sorted_tail; eassumption|assumption].
Qed.

Lemma sorted_in_sync (tr : Trie.t ChangeList) :
  sorted tr -> Forall (in_sync tr) tr.
Proof.
  intros Hs. apply Forall_forall. intros [k v] Hin.
  unfold in_sync. simpl. now apply In_find.
Qed.

Section PassFacts.

Variable db : Database.
Variable au : option string.

(** An invariant [I] of the state, a relation [R] between the states
    before and after, and a property [P] of the exceptions. *)
Variable I : state -> Prop.
Variable R : state -> state -> bool -> Prop.
Variable P : exn -> Prop.
Hypothesis R_refl : forall st, R st st false.
Hypothesis R_trans : forall s1 s2 s3 e1 e2,
  R s1 s2 e1 -> R s2 s3 e2 -> R s1 s3 (e1 || e2).
Hypothesis R_step : forall st path c st' e,
  sorted (candidates st) -> Trie.find path (candidates st) = Some c ->
  I st -> item_step db au st path c st' e -> I st' /\ R st st' e.
Hypothesis P_raise : forall st path c x,
  sorted (candidates st) -> Trie.find path (candidates st) = Some c ->
  I st -> merge_item db au st path c = Raise x -> P x.

(** The entries still to visit are untouched by the steps before
    them: the list of a pass stays in step with the trie. *)
Lemma merge_pass_rel items st ed :
  sorted (candidates st) ->
  StronglySorted key_lt items ->
  Forall (in_sync (candidates st)) items ->
  I st ->
  match merge_pass db au items st ed with
  | Return (st', e) =>
      sorted (candidates st') /\ I st' /\ exists e0, e = ed || e0 /\ R st st' e0
  | Raise x => P x
  | OutOfFuel => False
  end.
Proof.
  revert st ed.
  induction items as [|[path c] rest IH]; intros st ed Hs Hi Hsync HI.
  - simpl. repeat split; try assumption.
    exists false. split; [now rewrite orb_false_r|apply R_refl].
  - simpl.
    inversion Hsync as [|x l Hc Hrest]; subst.
    inversion Hi as [|x l Hi' Hlt]; subst.
    unfold in_sync in Hc. simpl in Hc.
    pose proof (merge_item_fuel db au st path c) as Hfuel.
    destruct (merge_item db au st path c) as [[st1 e1]|x|] eqn:Em;
      cbn [bind]; [|eapply P_raise; eassumption|congruence].
    apply merge_item_step in Em.
    destruct (R_step _ _ _ _ _ Hs Hc HI Em) as [HI1 HR1].
    assert (Hs1 : sorted (candidates st1)) by (eapply step_sorted; eassumption).
    assert (Hsync1 : Forall (in_sync (candidates st1)) rest).
    { rewrite Forall_forall in *. intros [k v] Hin. unfold in_sync. simpl.
      specialize (Hlt _ Hin). unfold key_lt in Hlt. simpl in Hlt.
      erewrite step_frame; [now apply (Hrest (k, v))|eassumption|..].
      * intros ->. rewrite compare_refl in Hlt. discriminate.
      * intros ->. eapply prefix_not_after; [apply dirname_prefix|exact Hlt]. }
    specialize (IH st1 (ed || e1) Hs1 Hi' Hsync1 HI1).
    destruct (merge_pass db au rest st1 (ed || e1)) as [[st' e]|x|];
      [|assumption|assumption].
    destruct IH as [Hs' [HI' [e0 [He HR]]]]. repeat split; try assumption.
    exists (e1 || e0). split; [now rewrite orb_assoc|].
    eapply R_trans; eassumption.
Qed.

Lemma merge_loop_rel fuel st :
  sorted (candidates st) ->
  I st ->
  match merge_loop db au fuel st with
  | Return st' => sorted (candidates st') /\ I st' /\ exists e, R st st' e
  | Raise x => P x
  | OutOfFuel => True
  end.
Proof.
  revert st. induction fuel as [|fuel IH]; intros st Hs HI; [exact Logic.I|].
  simpl.
  pose proof (merge_pass_rel (Trie.items (candidates st)) st false
                Hs Hs (sorted_in_sync _ Hs) HI) as Hp.
  destruct (merge_pass db au (Trie.items (candidates st)) st false)
    as [[st1 e1]|x|]; cbn [bind]; [|assumption|exact Logic.I].
  destruct Hp as [Hs1 [HI1 [e0 [He HR]]]]. simpl in He. subst e1.
  destruct e0.
  - specialize (IH st1 Hs1 HI1).
    destruct (merge_loop db au fuel st1) as [st'|x|]; [|assumption|exact Logic.I].
    destruct IH as [Hs' [HI' [e HR']]]. repeat split; try assumption.
    exists (true || e). eapply R_trans; eassumption.
  - repeat split; try assumption. now exists false.
Qed.

End PassFacts.

(* ------------------------------------------------------------------ *)
(** ** The nodes of the trie, and why the loop stops *)

Lemma node_true {V : Type} (tr : Trie.t V) s :
  node tr s = true <->
  exists k, Trie.contains k tr = true /\ String.prefix s k = true.
Proof.
  unfold node. rewrite existsb_exists.
  split; intros [k [H1 H2]]; exists k; split; try assumption;
    now apply contains_In.
Qed.

Lemma filter_one {A : Type} (f : A -> bool) (l : list A) x y :
  List.length (filter f l) = 1%nat ->
  In x l -> In y l -> f x = true -> f y = true -> x = y.
Proof.
  induction l as [|a l IH]; simpl; [tauto|].
  destruct (f a) eqn:Ea.
  - simpl. intros Hlen Hx Hy Hfx Hfy.
    assert (Hnil : filter f l = []) by (destruct (filter f l); simpl in *; [reflexivity|lia]).
    assert (Hno : forall z, In z l -> f z = true -> False).
    { intros z Hz Hfz. assert (In z (filter f l)) by now apply filter_In.
      rewrite Hnil in *. contradiction. }
    destruct Hx as [->|Hx]; [|exfalso; eauto].
    destruct Hy as [->|Hy]; [reflexivity|exfalso; eauto].
  - intros Hlen [->|Hx] [->|Hy] Hfx Hfy; try congruence. auto.
Qed.

Lemma filter_length_le {A : Type} (f g : A -> bool) (l : list A) :
  (forall x, In x l -> f x = true -> g x = true) ->
  (List.length (filter f l) <= List.length (filter g l))%nat.
Proof.
  induction l as [|a l IH]; simpl; [lia|]. intros H.
  assert (IH' : (List.length (filter f l) <= List.length (filter g l))%nat)
    by (apply IH; intros; apply H; auto).
  destruct (f a) eqn:Ef.
  - rewrite (H a) by auto. simpl. lia.
  - destruct (g a); simpl; lia.
Qed.

Lemma filter_length_lt {A : Type} (f g : A -> bool) (l : list A) x :
  (forall x, In x l -> f x = true -> g x = true) ->
  In x l -> g x = true -> f x = false ->
  (List.length (filter f l) < List.length (filter g l))%nat.
Proof.
  induction l as [|a l IH]; simpl; [tauto|]. intros H Hin Hg Hf.
  assert (Hle : (List.length (filter f l) <= List.length (filter g l))%nat)
    by (apply filter_length_le; intros; apply H; auto).
  destruct Hin as [->|Hin].
  - rewrite Hg, Hf. simpl. lia.
  - assert (IH' : (List.length (filter f l) < List.length (filter g l))%nat)
      by (apply IH; auto).
    destruct (f a) eqn:Ef.
    + rewrite (H a) by auto. simpl. lia.
    + destruct (g a); simpl; lia.
Qed.

Lemma prefixes_spec s k : In s (prefixes k) <-> String.prefix s k = true.
Proof.
  revert s. induction k as [|a k IH]; intros s; simpl.
  - split.
    + intros [<-|[]]. reflexivity.
    + intros H. left. destruct s; [reflexivity|discriminate].
  - destruct s as [|b s].
    + split; auto.
    + rewrite in_map_iff. split.
      * intros [H|[r [Hr Hin]]]; [discriminate|].
        injection Hr as <- <-. apply IH in Hin.
        destruct (ascii_dec a a); [assumption|congruence].
      * destruct (ascii_dec b a) as [->|]; [|discriminate].
        intros H. right. exists s. split; [reflexivity|now apply IH].
Qed.

Section NodeFacts.

Variable db : Database.
Variable au : option string.

(** The keys after a step: keys from before, or the directory of
    [path]; after a merge [path] is not one of them. *)
Lemma step_keys st path c st' e k :
  item_step db au st path c st' e ->
  Trie.find path (candidates st) = Some c ->
  Trie.contains k (candidates st') = true ->
  (Trie.contains k (candidates st) = true \/ k = dirname path) /\
  (e = true -> k <> path).
Proof.
  intros Hstep Hc. unfold Trie.contains.
  destruct Hstep; simpl.
  - intros H. split; [now left|discriminate].
  - rewrite find_checked. split; [|discriminate].
    destruct (String.eqb_spec k path) as [->|Hp]; [left; now rewrite Hc|].
    destruct (String.eqb_spec k (dirname path)); [now right|now left].
  - rewrite find_folded.
    destruct (String.eqb_spec k path) as [->|Hp]; [discriminate|].
    intros Hk. split; [|auto].
    destruct (String.eqb_spec k (dirname path)); [now right|now left].
  - destruct (String.eqb_spec k (dirname path)) as [->|Hpp].
    + rewrite find_remove_same. discriminate.
    + rewrite find_remove_other, find_folded by assumption.
      destruct (String.eqb_spec k path) as [->|Hp]; [discriminate|].
      apply String.eqb_neq in Hpp. rewrite Hpp. intros Hk. split; auto.
Qed.

Lemma step_attempt st path c st' :
  item_step db au st path c st' true -> exists p, attempt db au st path c p.
Proof. intros Hstep. inversion Hstep; subst; eauto. Qed.

Lemma step_fewer_nodes st path c st' e :
  sorted (candidates st) ->
  Trie.find path (candidates st) = Some c ->
  item_step db au st path c st' e ->
  fewer_nodes st st' e.
Proof.
  intros Hs Hc Hstep.
  assert (Hpath : Trie.contains path (candidates st) = true)
    by (unfold Trie.contains; now rewrite Hc).
  split.
  - intros s Hn. apply node_true in Hn. destruct Hn as [k [Hk Hpre]].
    apply node_true.
    destruct (step_keys _ _ _ _ _ k Hstep Hc Hk) as [[Hold| ->] _].
    + now exists k.
    + exists path. split; [assumption|].
      eapply prefix_trans; [eassumption|apply dirname_prefix].
  - intros ->. exists path. split.
    + apply node_true. exists path. split; [assumption|apply prefix_refl].
    + destruct (node (candidates st') path) eqn:En; [|reflexivity].
      exfalso. apply node_true in En. destruct En as [k [Hk Hpre]].
      destruct (step_keys _ _ _ _ _ k Hstep Hc Hk) as [Hor Hne].
      specialize (Hne eq_refl).
      destruct (step_attempt _ _ _ _ Hstep) as [p [Hone _]].
      destruct Hor as [Hold| ->].
      * apply Hne. symmetry.
        eapply (filter_one _ _ path k Hone);
          try (now apply contains_In); [apply prefix_refl|assumption].
      * apply Hne. apply prefix_antisym; [apply dirname_prefix|assumption].
Qed.

Lemma fewer_nodes_refl st : fewer_nodes st st false.
Proof. split; [auto|discriminate]. Qed.

Lemma fewer_nodes_trans s1 s2 s3 e1 e2 :
  fewer_nodes s1 s2 e1 -> fewer_nodes s2 s3 e2 -> fewer_nodes s1 s3 (e1 || e2).
Proof.
  intros [M1 S1] [M2 S2]. split; [auto|].
  destruct e1; simpl.
  - intros _. destruct (S1 eq_refl) as [s [Ha Hb]]. exists s. split; [assumption|].
    destruct (node (candidates s3) s) eqn:E; [|reflexivity].
    apply M2 in E. congruence.
  - intros He. destruct (S2 He) as [s [Ha Hb]]. exists s. auto.
Qed.

Lemma fewer_nodes_count U st st' e :
  fewer_nodes st st' e ->
  (forall s, node (candidates st) s = true -> In s U) ->
  (forall s, node (candidates st') s = true -> In s U) /\
  (nodes_in U (candidates st') <= nodes_in U (candidates st))%nat /\
  (e = true -> (nodes_in U (candidates st') < nodes_in U (candidates st))%nat).
Proof.
  intros [Hm Hstrict] HU. split; [auto|]. split.
  - apply filter_length_le. auto.
  - intros He. destruct (Hstrict He) as [s [Ha Hb]].
    apply filter_length_lt with (x := s); auto.
Qed.

Lemma step_fewer_nodes' st path c st' e :
  sorted (candidates st) ->
  Trie.find path (candidates st) = Some c ->
  True -> item_step db au st path c st' e ->
  True /\ fewer_nodes st st' e.
Proof. intros Hs Hc _ Hstep. split; [exact Logic.I|]. eapply step_fewer_nodes; eassumption. Qed.

(** With more passes allowed than the trie has nodes, the loop ends. *)
Lemma merge_loop_enough U fuel st :
  sorted (candidates st) ->
  (forall s, node (candidates st) s = true -> In s U) ->
  (nodes_in U (candidates st) < fuel)%nat ->
  merge_loop db au fuel st <> OutOfFuel.
Proof.
  revert st. induction fuel as [|fuel IH]; intros st Hs HU Hlt; [lia|].
  simpl.
  pose proof (merge_pass_rel db au (fun _ => True) fewer_nodes (fun _ => True)
                fewer_nodes_refl fewer_nodes_trans step_fewer_nodes'
                (fun _ _ _ _ _ _ _ _ => Logic.I)
                (Trie.items (candidates st)) st false
                Hs Hs (sorted_in_sync _ Hs) Logic.I) as Hp.
  destruct (merge_pass db au (Trie.items (candidates st)) st false)
    as [[st1 e1]| |] eqn:Ep; cbn [bind]; [|discriminate|contradiction].
  destruct Hp as [Hs1 [_ [e0 [He HR]]]]. simpl in He. subst e1.
  destruct (fewer_nodes_count U _ _ _ HR HU) as [HU1 [Hle Hstrict]].
  destruct e0; [|discriminate].
  apply IH; [assumption|assumption|]. specialize (Hstrict eq_refl). lia.
Qed.

End NodeFacts.

(* ------------------------------------------------------------------ *)
(** ** The seeded trie *)

Lemma seed_fold files : seed files = fold_left seed_step files Trie.empty.
Proof. reflexivity. Qed.

Lemma seed_fold_sorted files acc :
  sorted acc -> sorted (fold_left seed_step files acc).
Proof.
  revert acc. induction files as [|f files IH]; intros acc Hs; simpl;
    [assumption|].
  apply IH. now apply sorted_set.
Qed.

Lemma seed_sorted files : sorted (seed files).
Proof. rewrite seed_fold. apply seed_fold_sorted. constructor. Qed.

Lemma seed_fold_keys files acc k :
  Trie.contains k (fold_left seed_step files acc) = true ->
  Trie.contains k acc = true \/ In k (map LocalPath files).
Proof.
  revert acc. induction files as [|f files IH]; intros acc; simpl; [auto|].
  intros H. apply IH in H. destruct H as [H|H]; [|auto].
  apply contains_In in H. unfold seed_step in H. apply keys_set in H.
  destruct H as [->|H]; [auto|]. left. now apply contains_In.
Qed.

Lemma seed_keys files k :
  Trie.contains k (seed files) = true -> In k (map LocalPath files).
Proof.
  rewrite seed_fold. intros H. apply seed_fold_keys in H.
  destruct H as [H|H]; [discriminate|assumption].
Qed.

Lemma seed_fold_find files acc k v :
  Trie.find k (fold_left seed_step files acc) = Some v ->
  Trie.find k acc = Some v \/
  exists f, In f files /\ k = LocalPath f /\ v = mkChangeList k [f] None.
Proof.
  revert acc. induction files as [|f files IH]; intros acc; simpl; [auto|].
  intros H. apply IH in H. destruct H as [H|[g [Hg [Hk Hv]]]].
  - unfold seed_step in H. destruct (string_dec k (LocalPath f)) as [->|Hne].
    + rewrite find_set_same in H. injection H as <-. right. exists f. auto.
    + rewrite find_set_other in H by assumption. auto.
  - right. exists g. auto.
Qed.

Lemma seed_find files k v :
  Trie.find k (seed files) = Some v ->
  exists f, In f files /\ k = LocalPath f /\ v = mkChangeList k [f] None.
Proof.
  rewrite seed_fold. intros H. apply seed_fold_find in H.
  destruct H as [H|H]; [discriminate|assumption].
Qed.

Lemma seed_universe files s :
  node (seed files) s = true -> In s (universe files).
Proof.
  intros H. apply node_true in H. destruct H as [k [Hk Hpre]].
  apply seed_keys, in_map_iff in Hk. destruct Hk as [f [<- Hf]].
  unfold universe. apply in_flat_map. exists f. split; [assumption|].
  now apply prefixes_spec.
Qed.

Lemma nodes_in_bound {V : Type} U (tr : Trie.t V) :
  (nodes_in U tr <= List.length U)%nat.
Proof. unfold nodes_in. pose proof (filter_length (node tr) U). lia. Qed.

(* ------------------------------------------------------------------ *)
(** ** Fuel *)

Lemma merge_loop_more_fuel db au fuel fuel' st :
  (fuel <= fuel')%nat ->
  merge_loop db au fuel st <> OutOfFuel ->
  merge_loop db au fuel' st = merge_loop db au fuel st.
Proof.
  revert fuel' st. induction fuel as [|fuel IH]; intros fuel' st Hle;
    [simpl; congruence|].
  destruct fuel' as [|fuel']; [lia|]. simpl.
  destruct (merge_pass db au (Trie.items (candidates st)) st false)
    as [[st1 e1]| |]; cbn [bind]; try reflexivity.
  destruct e1; [|reflexivity]. apply IH. lia.
Qed.

Lemma merge_loop_seed_ends db au fuel files :
  (enough_fuel files <= fuel)%nat ->
  merge_loop db au fuel (mkState (seed files) []) <> OutOfFuel.
Proof.
  intros Hle. apply merge_loop_enough with (U := universe files); simpl.
  - apply seed_sorted.
  - apply seed_universe.
  - pose proof (nodes_in_bound (universe files) (seed files)).
    unfold enough_fuel in Hle. lia.
Qed.

Lemma SplitCLs_ends db au fuel files :
  (enough_fuel files <= fuel)%nat ->
  SplitCLs db au fuel files <> OutOfFuel.
Proof.
  intros Hle. unfold SplitCLs.
  pose proof (merge_loop_seed_ends db au fuel files Hle) as H.
  destruct (merge_loop db au fuel _); cbn [bind]; congruence.
Qed.

Lemma SplitCLs_more_fuel db au fuel files :
  (enough_fuel files <= fuel)%nat ->
  SplitCLs db au fuel files = SplitCLs db au (enough_fuel files) files.
Proof.
  intros Hle. unfold SplitCLs. rewrite (merge_loop_more_fuel db au _ _ _ Hle);
    [reflexivity|].
  apply merge_loop_seed_ends. lia.
Qed.

(** The loop returns after a pass that merged nothing. *)
Lemma merge_loop_fixed_point db au fuel st st' :
  merge_loop db au fuel st = Return st' ->
  exists st0,
    merge_pass db au (Trie.items (candidates st0)) st0 false
      = Return (st', false).
Proof.
  revert st. induction fuel as [|fuel IH]; intros st; [discriminate|]. simpl.
  destruct (merge_pass db au (Trie.items (candidates st)) st false)
    as [[st1 e1]| |] eqn:Ep; cbn [bind]; try discriminate.
  destruct e1; [apply IH|].
  intros [= <-]. now exists st.
Qed.

(* ------------------------------------------------------------------ *)
(** ** The files of the units *)


Lemma files_of_perm u u' :
  Permutation u u' -> Permutation (files_of u) (files_of u').
Proof. apply Permutation_flat_map. Qed.

Lemma tr_files_remove k tr :
  sorted tr ->
  Permutation (tr_files tr) (files_at k tr ++ tr_files (Trie.remove k tr)).
Proof.
  intros Hs. unfold files_at. destruct (Trie.find k tr) as [v|] eqn:E.
  - unfold tr_files. rewrite (files_of_perm _ _ (values_remove k v tr Hs E)).
    reflexivity.
  - now rewrite remove_absent.
Qed.

Lemma remove_agree a b (tr tr' : Trie.t ChangeList) :
  sorted tr -> sorted tr' ->
  (forall k, k <> a -> k <> b -> Trie.find k tr' = Trie.find k tr) ->
  Trie.remove b (Trie.remove a tr') = Trie.remove b (Trie.remove a tr).
Proof.
  intros Hs Hs' Hf. apply sorted_ext; try (now repeat apply sorted_remove).
  intros k. destruct (string_dec k b) as [->|Hb]; [now rewrite !find_remove_same|].
  rewrite !(find_remove_other k b) by assumption.
  destruct (string_dec k a) as [->|Ha]; [now rewrite !find_remove_same|].
  rewrite !(find_remove_other k a) by assumption. auto.
Qed.

(** The files of a trie, with two keys set apart. *)
Lemma tr_files_split a b tr :
  sorted tr -> a <> b ->
  Permutation (tr_files tr)
    (files_at a tr ++ files_at b tr ++
     tr_files (Trie.remove b (Trie.remove a tr))).
Proof.
  intros Hs Hne. rewrite (tr_files_remove a tr Hs) at 1.
  apply Permutation_app_head.
  rewrite (tr_files_remove b (Trie.remove a tr)) at 1
    by now apply sorted_remove.
  unfold files_at at 1. rewrite find_remove_other by congruence.
  reflexivity.
Qed.

Lemma union_files_disjoint a b :
  (forall f, In f a -> In f b -> False) -> union_files a b = a ++ b.
Proof.
  intros H. unfold union_files. f_equal.
  induction b as [|x b IH]; simpl; [reflexivity|].
  unfold mem_file at 1. destruct (in_dec AffectedFile_eq_dec x a) as [Hin|Hin].
  - exfalso. apply (H x); simpl; auto.
  - simpl. f_equal. apply IH. intros f Ha Hb. apply (H f); simpl; auto.
Qed.

Lemma NoDup_app_disjoint {A : Type} (a b c : list A) :
  NoDup (a ++ b ++ c) -> forall x, In x a -> In x b -> False.
Proof.
  induction a as [|y a IH]; simpl; [tauto|]. intros Hnd x [->|Ha] Hb.
  - inversion Hnd as [|? ? Hnot _]; subst. apply Hnot.
    apply in_or_app. right. apply in_or_app. now left.
  - inversion Hnd; subst. eauto.
Qed.

Lemma perm_emit {A : Type} (x l p c : list A) :
  Permutation (x ++ l ++ p ++ c) ((c ++ p ++ x) ++ l).
Proof.
  rewrite <- !app_assoc.
  rewrite (app_assoc x l), (Permutation_app_comm (x ++ l) (p ++ c)).
  rewrite (Permutation_app_comm p c). now rewrite <- !app_assoc.
Qed.

Section PartitionFacts.

Variable db : Database.
Variable au : option string.
Variable files : list AffectedFile.
Hypothesis files_nodup : NoDup files.

(** The invariant of the partition: relative keys, and every file of
    the input in one unit, once. *)
Lemma step_partition st path c st' e :
  sorted (candidates st) ->
  Trie.find path (candidates st) = Some c ->
  relative (candidates st) /\
  Permutation (files_of (all_units st)) files ->
  item_step db au st path c st' e ->
  (relative (candidates st') /\
   Permutation (files_of (all_units st')) files) /\ True.
Proof.
  intros Hs Hc [Hrel Hperm] Hstep. split; [|exact Logic.I].
  assert (Hpath : Trie.contains path (candidates st) = true)
    by (unfold Trie.contains; now rewrite Hc).
  split.
  - intros k Hk.
    destruct (step_keys _ _ _ _ _ _ _ k Hstep Hc Hk) as [[Hold| ->] _];
      [now apply Hrel|].
    apply dirname_relative. now apply Hrel.
  - assert (Hnd : NoDup (tr_files (candidates st))).
    { apply Permutation_sym in Hperm.
      apply (Permutation_NoDup Hperm) in files_nodup.
      unfold all_units, files_of in files_nodup.
      rewrite flat_map_app in files_nodup.
      now apply NoDup_app_remove_r in files_nodup. }
    rewrite <- Hperm. clear Hperm.
    assert (Hs' : sorted (candidates st')) by (eapply step_sorted; eassumption).
    unfold all_units, files_of. rewrite !flat_map_app.
    fold (files_of (change_lists st)) (files_of (change_lists st')).
    fold (files_of (map snd (candidates st)))
         (files_of (map snd (candidates st'))).
    fold (tr_files (candidates st)) (tr_files (candidates st')).
    destruct Hstep as [|p Hat Hcm|p Hat Hcm Hsz|p Hat Hcm Hsz Hcont];
      [reflexivity|..];
      destruct Hat as [_ [Hpp [Hp _]]];
      assert (Hne : path <> dirname path)
        by (apply not_eq_sym, dirname_proper; [now apply Hrel|assumption]);
      pose proof Hne as Ene; apply String.eqb_neq in Ene;
      pose proof Ene as Ene'; rewrite String.eqb_sym in Ene';
      rewrite find_with_parent in Hp;
      assert (Hfp : files_at (dirname path) (candidates st) = _files p)
        by (unfold files_at; destruct (Trie.find (dirname path) (candidates st));
            injection Hp as <-; reflexivity);
      assert (Hfc : files_at path (candidates st) = _files c)
        by (unfold files_at; now rewrite Hc);
      pose proof (tr_files_split path (dirname path) (candidates st) Hs Hne)
        as Hsplit;
      rewrite Hfp, Hfc in Hsplit;
      apply (Permutation_NoDup Hsplit) in Hnd;
      rewrite Hsplit; clear Hsplit;
      cbn [candidates change_lists] in *.
    + apply Permutation_app_tail.
      rewrite (tr_files_split path (dirname path) _ Hs' Hne).
      unfold files_at. rewrite !find_checked, String.eqb_refl, Ene', String.eqb_refl.
      rewrite !ensured_files.
      rewrite (remove_agree path (dirname path) (candidates st)); try assumption.
      * reflexivity.
      * intros k H1 H2. apply String.eqb_neq in H1, H2.
        now rewrite find_checked, H1, H2.
    + apply Permutation_app_tail.
      rewrite (tr_files_split path (dirname path) _ Hs' Hne).
      unfold files_at. rewrite !find_folded, String.eqb_refl, Ene', String.eqb_refl.
      rewrite (remove_agree path (dirname path) (candidates st)); try assumption.
      * simpl. rewrite !ensured_files.
        rewrite union_files_disjoint.
        -- rewrite !app_assoc. apply Permutation_app_tail.
           apply Permutation_app_comm.
        -- intros f Hf1 Hf2. eapply NoDup_app_disjoint; eassumption.
      * intros k H1 H2. apply String.eqb_neq in H1, H2.
        now rewrite find_folded, H1, H2.
    + rewrite (tr_files_split path (dirname path) _ Hs' Hne).
      unfold files_at.
      rewrite find_remove_other, find_folded, String.eqb_refl by assumption.
      rewrite find_remove_same.
      rewrite (remove_agree path (dirname path) (candidates st)); try assumption.
      * unfold files_of. rewrite flat_map_app. simpl. rewrite app_nil_r.
        rewrite !ensured_files.
        rewrite union_files_disjoint
          by (intros f Hf1 Hf2; eapply NoDup_app_disjoint; eassumption).
        apply perm_emit.
      * intros k H1 H2.
        rewrite find_remove_other by assumption.
        apply String.eqb_neq in H1, H2.
        now rewrite find_folded, H1, H2.
Qed.

(** With relative keys the body raises nothing but the [assert]. *)
Lemma merge_item_raise st path c x :
  sorted (candidates st) ->
  Trie.find path (candidates st) = Some c ->
  relative (candidates st) /\
  Permutation (files_of (all_units st)) files ->
  merge_item db au st path c = Raise x -> x = AssertionError.
Proof.
  intros _ Hc [Hrel _].
  assert (Hpath : Trie.contains path (candidates st) = true)
    by (unfold Trie.contains; now rewrite Hc).
  unfold merge_item, count_sub_cls, Trie.keys.
  destruct (filter _ _) as [|k0 ks] eqn:Ek.
  { exfalso. assert (Hin : In path (filter (fun k => String.prefix path k)
                                           (map fst (candidates st)))).
    { apply filter_In. split; [now apply contains_In|apply prefix_refl]. }
    rewrite Ek in Hin. contradiction. }
  cbn [bind]. destruct (negb _); [discriminate|].
  destruct (_ <? 1) eqn:E1; [discriminate|].
  assert (Hpp : dirname path <> "").
  { intros H. rewrite H in E1. discriminate. }
  assert (Hne : dirname path <> path)
    by (apply dirname_proper; [now apply Hrel|assumption]).
  cbv zeta. fold (with_parent (dirname path) (candidates st)).
  unfold Trie.get. rewrite find_with_parent.
  set (p := match Trie.find (dirname path) (candidates st) with
            | Some p => p
            | None => mkChangeList (dirname path) [] None
            end).
  replace (match Trie.find (dirname path) (candidates st) with
           | Some p0 => Some p0
           | None => Some (mkChangeList (dirname path) [] None)
           end) with (Some p)
    by (unfold p; now destruct (Trie.find (dirname path) (candidates st))).
  cbn [bind]. rewrite HaveCommonOwners_eq.
  destruct (_ && _) eqn:Et; [|now intros [= <-]]. cbn [bind].
  apply andb_true_iff in Et. destruct Et as [Etp Etc].
  destruct (negb _); [discriminate|].
  unfold Trie.del. unfold Trie.contains at 1. rewrite find_set_same.
  cbn [bind]. rewrite Merge_eq, !ensured_idem, Etp, Etc. cbn [bind andb].
  fold (checked db au st path c p). fold (unit_of db au p c).
  fold (folded db au st path c p).
  destruct (max_cl_size <? _); [|discriminate].
  unfold Trie.contains. rewrite find_folded.
  apply String.eqb_neq in Hne. rewrite Hne, String.eqb_refl. discriminate.
Qed.

End PartitionFacts.

(* ------------------------------------------------------------------ *)
(** ** C1: the partition *)

Lemma seed_fold_files files acc :
  sorted acc ->
  NoDup (map LocalPath files) ->
  (forall f, In f files -> Trie.find (LocalPath f) acc = None) ->
  Permutation (tr_files (fold_left seed_step files acc)) (tr_files acc ++ files).
Proof.
  revert acc. induction files as [|f files IH]; intros acc Hs Hnd Hfresh; simpl.
  - now rewrite app_nil_r.
  - inversion Hnd as [|x l Hnot Hnd']; subst.
    rewrite IH; [|now apply sorted_set|assumption|].
    + unfold seed_step, tr_files at 1.
      rewrite (files_of_perm _ _ (values_set_fresh (LocalPath f) _ acc
                                    (Hfresh f (or_introl eq_refl)))).
      simpl. fold (tr_files acc).
      change (f :: tr_files acc ++ files) with ([f] ++ tr_files acc ++ files).
      rewrite app_assoc, (Permutation_app_comm [f]), <- app_assoc. reflexivity.
    + intros g Hg. unfold seed_step. rewrite find_set_other.
      * apply Hfresh. now right.
      * intros Heq. apply Hnot. rewrite <- Heq. now apply in_map.
Qed.

Lemma seed_files files :
  NoDup (map LocalPath files) -> Permutation (tr_files (seed files)) files.
Proof.
  intros Hnd. rewrite seed_fold.
  rewrite seed_fold_files; [reflexivity|constructor|assumption|reflexivity].
Qed.

Lemma seed_relative files :
  Forall (fun f => leading_slash (LocalPath f) = false) files ->
  relative (seed files).
Proof.
  intros Hall k Hk. apply seed_keys, in_map_iff in Hk.
  destruct Hk as [f [<- Hf]]. rewrite Forall_forall in Hall. auto.
Qed.

(** C1.  When the paths of the files are non-empty, pairwise distinct
    and relative to the repository, as [LocalPath] gives them (none
    starts with a slash), [SplitCLs] returns units whose file sets hold every file of the input
    exactly once (they are pairwise disjoint and their union is the
    input), or it raises the [AssertionError] of [_EnsureOwners]; it does
    so within [enough_fuel] passes. *)
Theorem SplitCLs_partition db au files fuel :
  NoDup (map LocalPath files) ->
  Forall (fun f => LocalPath f <> "") files ->
  Forall (fun f => leading_slash (LocalPath f) = false) files ->
  (enough_fuel files <= fuel)%nat ->
  match SplitCLs db au fuel files with
  | Return units =>
      Permutation (files_of units) files /\ NoDup (files_of units)
  | Raise x => x = AssertionError
  | OutOfFuel => False
  end.
Proof.
  intros Hnd _ Hrel Hfuel.
  assert (Hndf : NoDup files) by (eapply NoDup_map_inv; eassumption).
  pose proof (SplitCLs_ends db au fuel files Hfuel) as Hends.
  unfold SplitCLs in *.
  pose proof (merge_loop_rel db au
                (fun st => relative (candidates st) /\
                           Permutation (files_of (all_units st)) files)
                (fun _ _ _ => True) (fun x => x = AssertionError)
                (fun _ => Logic.I) (fun _ _ _ _ _ _ _ => Logic.I)
                (step_partition db au files Hndf)
                (merge_item_raise db au files)
                fuel (mkState (seed files) [])) as Hloop.
  cbn [candidates] in Hloop.
  specialize (Hloop (seed_sorted files)).
  assert (Hinit : relative (seed files) /\
                  Permutation (files_of (all_units (mkState (seed files) [])))
                              files).
  { split; [now apply seed_relative|].
    unfold all_units, files_of. simpl. rewrite app_nil_r.
    now apply seed_files. }
  specialize (Hloop Hinit).
  destruct (merge_loop db au fuel (mkState (seed files) [])) as [st|x|];
    cbn [bind] in *; [|assumption|congruence].
  destruct Hloop as [_ [[_ Hperm] _]].
  assert (Hp : Permutation (files_of (change_lists st ++ drain st)) files).
  { rewrite <- Hperm. apply files_of_perm. unfold all_units, drain, Trie.items.
    apply Permutation_app_comm. }
  split; [assumption|].
  apply Permutation_sym in Hp. eapply Permutation_NoDup; eassumption.
Qed.

(** Why the paths are asked to be relative.  On a path that starts
    with a slash, which [LocalPath] does not give, the candidate of the
    root directory is its own parent: it is merged into itself and
    deleted, and the file is in no returned unit. *)
Lemma absolute_path_dropped :
  let files := [file_slash_x] in
  NoDup (map LocalPath files) /\
  Forall (fun f => LocalPath f <> "") files /\
  SplitCLs (everyone "alice") None (enough_fuel files) files = Return [] /\
  ~ Permutation (files_of []) files.
Proof.
  cbv zeta. split; [repeat constructor; simpl; tauto|].
  split; [repeat constructor; discriminate|].
  split; [vm_compute; reflexivity|].
  intros H. apply Permutation_nil in H. discriminate.
Qed.

(** A run on relative paths. *)
Lemma SplitCLs_partition_witness :
  let files := [mkAffectedFile "a/x.txt" [(50, 0)];
                mkAffectedFile "a/y.txt" [(30, 30)];
                mkAffectedFile "b/z.txt" [(2000, 0)]] in
  match SplitCLs (everyone "alice") None (enough_fuel files) files with
  | Return units =>
      Permutation (files_of units) files /\ NoDup (files_of units)
  | Raise x => x = AssertionError
  | OutOfFuel => False
  end.
Proof.
  cbv zeta. apply SplitCLs_partition.
  - repeat constructor; simpl; intuition discriminate.
  - repeat constructor; discriminate.
  - repeat constructor.
  - apply Nat.le_refl.
Defined.

(* ------------------------------------------------------------------ *)
(** ** C9: the loop ends *)

Lemma prefixes_length s : List.length (prefixes s) = S (String.length s).
Proof.
  induction s as [|a s IH]; simpl; [reflexivity|].
  now rewrite length_map, IH.
Qed.

Lemma universe_length files :
  List.length (universe files) =
  list_sum (map (fun f => S (String.length (LocalPath f))) files).
Proof.
  unfold universe. induction files as [|f files IH]; simpl; [reflexivity|].
  now rewrite length_app, prefixes_length, IH.
Qed.

(** C9, as amended.  For every list of files the loop ends, with a
    result or an exception, within [enough_fuel] passes, one more than
    the sum over the files of the length of the path plus one; more
    passes allowed change nothing; and it returns after a pass that made
    no merge.  A step that merges takes a node away from the trie (a
    prefix of the keys: the path it merges stops being one) and no step
    adds a node; the number of entries need not go down. *)
Theorem merge_loop_terminates db au files fuel :
  (enough_fuel files <= fuel)%nat ->
  enough_fuel files =
    S (list_sum (map (fun f => S (String.length (LocalPath f))) files)) /\
  SplitCLs db au fuel files <> OutOfFuel /\
  SplitCLs db au fuel files = SplitCLs db au (enough_fuel files) files /\
  (forall st',
     merge_loop db au fuel (mkState (seed files) []) = Return st' ->
     exists st0,
       merge_pass db au (Trie.items (candidates st0)) st0 false
         = Return (st', false)) /\
  (forall st path c st' e,
     sorted (candidates st) ->
     Trie.find path (candidates st) = Some c ->
     merge_item db au st path c = Return (st', e) ->
     fewer_nodes st st' e).
Proof.
  intros Hfuel. split; [|split; [|split; [|split]]].
  - unfold enough_fuel. now rewrite universe_length.
  - now apply SplitCLs_ends.
  - now apply SplitCLs_more_fuel.
  - intros st'. apply merge_loop_fixed_point.
  - intros st path c st' e Hs Hc Hm. apply merge_item_step in Hm.
    eapply step_fewer_nodes; eassumption.
Qed.

Lemma merge_loop_terminates_witness :
  let files := [file_b_z] in
  (enough_fuel files <= 9)%nat /\
  SplitCLs (everyone "alice") None 9 files <> OutOfFuel.
Proof.
  cbv zeta. split; [vm_compute; lia|].
  apply (merge_loop_terminates (everyone "alice") None [file_b_z] 9).
  vm_compute. lia.
Defined.

(** C9, as stated, fails on the first merge of a file whose directory
    has no candidate yet: the candidate of the file goes and the one of
    the directory comes, and the trie has as many entries as before. *)
Lemma merge_step_entries_counterexample :
  let st := mkState (seed [file_b_z]) [] in
  exists st',
    merge_item (everyone "alice") None st "b/z.txt"
      (mkChangeList "b/z.txt" [file_b_z] None) = Return (st', true) /\
    ~ (List.length (candidates st') < List.length (candidates st))%nat.
Proof.
  cbv zeta. eexists. split; [vm_compute; reflexivity|].
  simpl. lia.
Qed.

(* ------------------------------------------------------------------ *)
(** ** C7: the units the loop emits *)

Lemma inter_nonempty_truthy a b :
  inter_owners a b <> [] -> owners_truthy (Some (inter_owners a b)) = true.
Proof. destruct (inter_owners a b); simpl; congruence. Qed.

Lemma step_over_budget db au st path c st' e :
  sorted (candidates st) ->
  Trie.find path (candidates st) = Some c ->
  Forall over_budget (change_lists st) ->
  item_step db au st path c st' e ->
  Forall over_budget (change_lists st') /\ True.
Proof.
  intros _ _ Hall Hstep. split; [|exact I].
  destruct (step_lists _ _ _ _ _ _ _ Hstep) as [->|[p [-> [Hc Hsz]]]];
    [assumption|].
  apply Forall_app. split; [assumption|]. constructor; [|constructor].
  split; [assumption|]. now apply inter_nonempty_truthy.
Qed.

Lemma merge_loop_over_budget db au fuel st st' :
  sorted (candidates st) ->
  Forall over_budget (change_lists st) ->
  merge_loop db au fuel st = Return st' ->
  Forall over_budget (change_lists st').
Proof.
  intros Hs Hall Hloop.
  pose proof (merge_loop_rel db au
                (fun st => Forall over_budget (change_lists st))
                (fun _ _ _ => True) (fun _ => True)
                (fun _ => I) (fun _ _ _ _ _ _ _ => I)
                (step_over_budget db au)
                (fun _ _ _ _ _ _ _ _ => I)
                fuel st Hs Hall) as H.
  rewrite Hloop in H. tauto.
Qed.

(** C7.  A unit is appended in the loop only when its size is over
    [max_cl_size]: every step of the loop leaves the list as it is or
    appends one unit over the budget, so the units of the list when the
    loop ends are all over it, and a returned unit that is not over the
    budget is one of those the drain appended. *)
Theorem loop_emits_over_budget db au fuel files units :
  SplitCLs db au fuel files = Return units ->
  exists st,
    merge_loop db au fuel (mkState (seed files) []) = Return st /\
    units = change_lists st ++ drain st /\
    Forall (fun u => max_cl_size < GetChangeSizeInBytes u) (change_lists st) /\
    (forall u, In u units -> GetChangeSizeInBytes u <= max_cl_size ->
               In u (drain st)) /\
    (forall s path c s' e,
       merge_item db au s path c = Return (s', e) ->
       change_lists s' = change_lists s \/
       exists u, change_lists s' = change_lists s ++ [u] /\
                 max_cl_size < GetChangeSizeInBytes u).
Proof.
  unfold SplitCLs.
  destruct (merge_loop db au fuel (mkState (seed files) [])) as [st| |] eqn:El;
    cbn [bind]; try discriminate.
  intros [= <-]. exists st.
  assert (Hall : Forall over_budget (change_lists st)).
  { eapply merge_loop_over_budget; [| |exact El]; simpl;
      [apply seed_sorted|constructor]. }
  assert (Hsz : Forall (fun u => max_cl_size < GetChangeSizeInBytes u)
                       (change_lists st)).
  { eapply Forall_impl; [|exact Hall]. intros u [H _]. exact H. }
  repeat split; try assumption.
  - intros u Hin Hle. apply in_app_or in Hin. destruct Hin as [Hin|Hin];
      [|assumption].
    rewrite Forall_forall in Hsz. apply Hsz in Hin. lia.
  - intros s path c s' e Hm. apply merge_item_step in Hm.
    destruct (step_lists _ _ _ _ _ _ _ Hm) as [H|[p [H [_ Hp]]]]; [now left|].
    right. eauto.
Qed.

Lemma loop_emits_over_budget_witness :
  let files := [mkAffectedFile "a/x.txt" [(50, 0)];
                mkAffectedFile "a/y.txt" [(30, 30)];
                mkAffectedFile "b/z.txt" [(2000, 0)]] in
  exists units st,
    SplitCLs (everyone "alice") None 9 files = Return units /\
    units = change_lists st ++ drain st /\
    Forall (fun u => max_cl_size < GetChangeSizeInBytes u) (change_lists st).
Proof.
  cbv zeta. eexists.
  destruct (loop_emits_over_budget (everyone "alice") None 9
              [mkAffectedFile "a/x.txt" [(50, 0)];
               mkAffectedFile "a/y.txt" [(30, 30)];
               mkAffectedFile "b/z.txt" [(2000, 0)]] _
              ltac:(vm_compute; reflexivity)) as [st [_ [H1 [H2 _]]]].
  exists st. split; [reflexivity|]. split; assumption.
Defined.

(* ------------------------------------------------------------------ *)
(** ** C3: the order in which the files come *)

Lemma seed_fold_perm files files' :
  Permutation files files' ->
  NoDup (map LocalPath files) ->
  forall acc, sorted acc ->
  fold_left seed_step files acc = fold_left seed_step files' acc.
Proof.
  induction 1 as [|f l l' Hp IH|f g l|l l' l'' Hp1 IH1 Hp2 IH2];
    intros Hnd acc Hs; simpl.
  - reflexivity.
  - inversion Hnd; subst. apply IH; [assumption|now apply sorted_set].
  - f_equal. unfold seed_step. apply set_set_comm; [assumption|].
    inversion Hnd as [|? ? Hnot _]; subst. intros Heq. apply Hnot.
    simpl. now left.
  - rewrite IH1 by assumption. apply IH2; [|assumption].
    eapply Permutation_NoDup; [|exact Hnd]. now apply Permutation_map.
Qed.

Lemma seed_perm files files' :
  Permutation files files' -> NoDup (map LocalPath files) ->
  seed files = seed files'.
Proof.
  intros Hp Hnd. rewrite !seed_fold. apply seed_fold_perm; try assumption.
  constructor.
Qed.

(** C3.  On the same set of files, with pairwise distinct paths as a
    changeset has them, and the same answers of the database, the result
    of [SplitCLs], the anchor paths and the files of every unit, and the
    exception if it raises, does not depend on the order in which the set
    of files hands them out. *)
Theorem SplitCLs_order_independent db au fuel files files' :
  NoDup (map LocalPath files) ->
  Permutation files files' ->
  SplitCLs db au fuel files = SplitCLs db au fuel files'.
Proof.
  intros Hnd Hp. unfold SplitCLs. now rewrite (seed_perm files files' Hp Hnd).
Qed.

Lemma SplitCLs_order_independent_witness :
  let files := [mkAffectedFile "a/x.txt" [(50, 0)];
                mkAffectedFile "b/z.txt" [(2000, 0)]] in
  let files' := [mkAffectedFile "b/z.txt" [(2000, 0)];
                 mkAffectedFile "a/x.txt" [(50, 0)]] in
  NoDup (map LocalPath files) /\
  Permutation files files' /\
  SplitCLs (everyone "alice") None 9 files
    = SplitCLs (everyone "alice") None 9 files'.
Proof.
  cbv zeta.
  assert (Hnd : NoDup (map LocalPath
                         [mkAffectedFile "a/x.txt" [(50, 0)];
                          mkAffectedFile "b/z.txt" [(2000, 0)]]))
    by (repeat constructor; simpl; intuition discriminate).
  split; [exact Hnd|]. split; [apply perm_swap|].
  apply SplitCLs_order_independent; [exact Hnd|apply perm_swap].
Defined.

(** Why the paths are asked to be distinct.  With two files of the
    same path, which a changeset does not have, the candidate of the one
    that comes later replaces the other, and the two orders of the same
    set give units with different files. *)
Lemma same_path_order_matters :
  Permutation [file_dup_1; file_dup_2] [file_dup_2; file_dup_1] /\
  exists units units',
    SplitCLs (everyone "alice") None 9 [file_dup_1; file_dup_2] = Return units /\
    SplitCLs (everyone "alice") None 9 [file_dup_2; file_dup_1] = Return units' /\
    map _path units = map _path units' /\
    map _files units <> map _files units'.
Proof.
  split; [apply perm_swap|].
  do 2 eexists. split; [vm_compute; reflexivity|].
  split; [vm_compute; reflexivity|].
  split; [reflexivity|]. discriminate.
Qed.

(* ------------------------------------------------------------------ *)
(** ** Runs on one file *)

Lemma count_single p c : count_sub_cls [(p, c)] p = Return 0.
Proof.
  unfold count_sub_cls, Trie.keys. simpl. now rewrite prefix_refl.
Qed.

Lemma length_lt_1 s : s <> "" -> (Z.of_nat (String.length s) <? 1) = false.
Proof. destruct s; [congruence|]. intros _. apply Z.ltb_ge. simpl. lia. Qed.

(** A file right under the root of the repository is not merged, and
    the drain emits its candidate as the seed made it. *)
Lemma SplitCLs_top_level db au fuel f :
  dirname (LocalPath f) = "" ->
  (1 <= fuel)%nat ->
  SplitCLs db au fuel [f] = Return [mkChangeList (LocalPath f) [f] None].
Proof.
  intros Hd Hfuel. destruct fuel as [|fuel]; [lia|].
  unfold SplitCLs.
  change (seed [f]) with [(LocalPath f, mkChangeList (LocalPath f) [f] None)].
  cbn [merge_loop Trie.items candidates merge_pass].
  unfold merge_item. cbn [candidates]. rewrite count_single. cbn [bind].
  rewrite Hd. reflexivity.
Qed.

Lemma inter_nonempty a b : inter_owners a b <> [] -> a <> [] /\ b <> [].
Proof.
  unfold inter_owners. destruct a as [|x a]; [simpl; congruence|].
  intros H. split; [discriminate|]. intros ->. apply H.
  clear H. generalize (x :: a). intros l. induction l; simpl; auto.
Qed.

Lemma common_truthy db au p c :
  common db au p c <> [] ->
  owners_truthy (_owners (ensured db au p)) = true /\
  owners_truthy (_owners (ensured db au c)) = true.
Proof.
  intros H. apply inter_nonempty in H. destruct H as [Ha Hb].
  split; now apply owners_truthy_value.
Qed.

Lemma dirname_before p : dirname p <> p -> String.compare (dirname p) p = Lt.
Proof.
  intros Hne. destruct (prefix_compare _ _ (dirname_prefix p)); congruence.
Qed.

(** A file with a directory, whose candidate is folded into the fresh
    candidate of the directory. *)
Lemma merge_item_single db au lists f :
  let p := LocalPath f in
  let c := mkChangeList p [f] None in
  let d := mkChangeList (dirname p) [] None in
  dirname p <> "" ->
  dirname p <> p ->
  common db au d c <> [] ->
  merge_item db au (mkState [(p, c)] lists) p c =
  if max_cl_size <? GetChangeSizeInBytes c
  then Return (mkState [] (lists ++ [unit_of db au d c]), true)
  else Return (mkState [(dirname p, unit_of db au d c)] lists, true).
Proof.
  intros p c d Hne Hpp Hcommon.
  pose proof (dirname_before _ Hpp) as Hlt. fold p in Hlt.
  pose proof (proj2 (compare_gt_lt p (dirname p)) Hlt) as Hgt.
  pose proof Hpp as Epp. apply String.eqb_neq in Epp.
  pose proof Epp as Epp'. rewrite String.eqb_sym in Epp'.
  destruct (common_truthy _ _ _ _ Hcommon) as [Etd Etc].
  unfold merge_item. cbn [candidates change_lists].
  rewrite count_single. cbn [bind].
  change (negb (0 =? 0)) with false. cbv iota.
  rewrite (length_lt_1 _ Hne). cbv zeta.
  unfold Trie.contains at 1 2 3 4 5. cbn [Trie.find]. fold p. rewrite Epp.
  cbn [negb Trie.set]. fold p. rewrite Hlt.
  unfold Trie.get. cbn [Trie.find]. rewrite String.eqb_refl. cbn [bind].
  fold d. rewrite HaveCommonOwners_eq, Etd, Etc. cbn [bind andb].
  fold (common db au d c).
  rewrite (proj2 (nonempty_length _) Hcommon). cbn [negb].
  cbn [Trie.set]. rewrite compare_refl. cbn [Trie.set]. rewrite Hgt, compare_refl.
  unfold Trie.del, Trie.contains. cbn [Trie.find].
  rewrite Epp', String.eqb_refl. cbn [bind Trie.remove].
  rewrite Epp', String.eqb_refl.
  rewrite Merge_eq, !ensured_idem, Etd, Etc. cbn [bind andb].
  fold (unit_of db au d c). cbn [Trie.find]. rewrite String.eqb_refl.
  cbn [Trie.set]. rewrite compare_refl.
  assert (Hsize : GetChangeSizeInBytes (unit_of db au d c)
                  = GetChangeSizeInBytes c).
  { unfold GetChangeSizeInBytes, unit_of, merged. cbn [_files].
    rewrite !ensured_files. reflexivity. }
  rewrite Hsize. destruct (max_cl_size <? GetChangeSizeInBytes c);
    [|reflexivity].
  cbn [Trie.find]. rewrite String.eqb_refl. cbn [bind Trie.remove].
  rewrite String.eqb_refl. reflexivity.
Qed.

(* ------------------------------------------------------------------ *)
(** ** A file alone in its directory *)

Lemma sorted_keys_NoDup {V : Type} (tr : Trie.t V) :
  sorted tr -> NoDup (map fst tr).
Proof.
  unfold sorted. induction 1 as [|[k v] tr Hs IH Hall]; simpl; constructor.
  - intros Hin. apply in_map_iff in Hin. destruct Hin as [[k' v'] [Heq Hin]].
    simpl in Heq. subst k'. rewrite Forall_forall in Hall.
    specialize (Hall _ Hin). unfold key_lt in Hall. simpl in Hall.
    rewrite compare_refl in Hall. discriminate.
  - assumption.
Qed.

Lemma filter_none {A : Type} (g : A -> bool) (l : list A) :
  (forall k, In k l -> g k = false) -> filter g l = [].
Proof.
  induction l as [|k l IH]; simpl; [reflexivity|]. intros H.
  rewrite (H k (or_introl eq_refl)). apply IH. intros k' Hk'. apply H.
  now right.
Qed.

Lemma filter_single (g : string -> bool) (l : list string) p :
  NoDup l -> In p l -> g p = true ->
  (forall k, In k l -> g k = true -> k = p) ->
  List.length (filter g l) = 1%nat.
Proof.
  induction l as [|k l IH]; simpl; [tauto|].
  intros Hnd [->|Hin] Hp Hall; inversion Hnd as [|? ? Hnot Hnd']; subst.
  - rewrite Hp. simpl. rewrite filter_none; [reflexivity|].
    intros k Hk. destruct (g k) eqn:Ek; [|reflexivity].
    exfalso. apply Hnot. rewrite <- (Hall k (or_intror Hk) Ek). assumption.
  - destruct (g k) eqn:Ek.
    + exfalso. apply Hnot. rewrite (Hall k (or_introl eq_refl) Ek).
      assumption.
    + apply IH; auto.
Qed.

Lemma seed_fold_contains files acc k :
  Trie.contains k acc = true \/ In k (map LocalPath files) ->
  Trie.contains k (fold_left seed_step files acc) = true.
Proof.
  revert acc. induction files as [|f files IH]; intros acc; simpl.
  - tauto.
  - intros H. apply IH. unfold seed_step, Trie.contains.
    destruct (string_dec k (LocalPath f)) as [->|Hne].
    + left. now rewrite find_set_same.
    + rewrite find_set_other by assumption.
      destruct H as [H|[H|H]]; [now left|congruence|now right].
Qed.

Lemma seed_contains files f :
  In f files -> Trie.contains (LocalPath f) (seed files) = true.
Proof.
  intros Hin. rewrite seed_fold. apply seed_fold_contains. right.
  now apply in_map.
Qed.

Section AloneFacts.

Variable db : Database.
Variable au : option string.

(** A return of the body that has gone past the two tests that skip. *)
Lemma merge_item_attempted st path c st' e :
  List.length (filter (fun k => String.prefix path k)
                      (map fst (candidates st))) = 1%nat ->
  dirname path <> "" ->
  merge_item db au st path c = Return (st', e) ->
  exists p,
    attempt db au st path c p /\
    ((common db au p c = [] /\
      st' = mkState (checked db au st path c p) (change_lists st) /\
      e = false) \/
     (common db au p c <> [] /\
      GetChangeSizeInBytes (unit_of db au p c) <= max_cl_size /\
      st' = mkState (folded db au st path c p) (change_lists st) /\
      e = true) \/
     (common db au p c <> [] /\
      max_cl_size < GetChangeSizeInBytes (unit_of db au p c) /\
      st' = mkState (Trie.remove (dirname path) (folded db au st path c p))
                    (change_lists st ++ [unit_of db au p c]) /\
      e = true)).
Proof.
  intros Hlen Hpp.
  unfold merge_item, count_sub_cls, Trie.keys.
  destruct (filter _ _) as [|k0 ks] eqn:Ek; [discriminate|].
  cbn [bind]. rewrite Hlen. change (negb (Z.of_nat 1 - 1 =? 0)) with false.
  cbv iota. rewrite (length_lt_1 _ Hpp). cbv zeta.
  fold (with_parent (dirname path) (candidates st)).
  unfold Trie.get.
  destruct (Trie.find _ (with_parent _ _)) as [p|] eqn:Ef; [|discriminate].
  cbn [bind]. rewrite HaveCommonOwners_eq.
  destruct (_ && _) eqn:Et; [|discriminate]. cbn [bind].
  apply andb_true_iff in Et. destruct Et as [Etp Etc].
  assert (Hat : attempt db au st path c p).
  { repeat split; try assumption. now rewrite Ek. }
  destruct (negb _) eqn:Eh.
  - intros [= <- <-]. exists p. split; [assumption|]. left.
    split; [|split; reflexivity].
    apply negb_true_iff in Eh. unfold common.
    destruct (inter_owners _ _) eqn:Ei; [reflexivity|].
    simpl in Eh. apply Z.ltb_ge in Eh. lia.
  - apply negb_false_iff, nonempty_length in Eh.
    unfold Trie.del. unfold Trie.contains at 1. rewrite find_set_same.
    cbn [bind]. rewrite Merge_eq, !ensured_idem, Etp, Etc. cbn [bind andb].
    fold (checked db au st path c p). fold (unit_of db au p c).
    fold (folded db au st path c p).
    destruct (max_cl_size <? _) eqn:Es.
    + apply Z.ltb_lt in Es.
      destruct (Trie.contains _ (folded _ _ _ _ _ _)) eqn:Ec; [|discriminate].
      cbn [bind]. intros [= <- <-]. exists p. split; [assumption|].
      right. right. split; [assumption|]. split; [assumption|].
      split; reflexivity.
    + apply Z.ltb_ge in Es. intros [= <- <-]. exists p.
      split; [assumption|]. right. left.
      split; [assumption|]. split; [assumption|]. split; reflexivity.
Qed.

(** The entries a pass has still to visit stay as they are. *)
Lemma step_in_sync st path c st' e rest :
  item_step db au st path c st' e ->
  StronglySorted key_lt ((path, c) :: rest) ->
  Forall (in_sync (candidates st)) rest ->
  Forall (in_sync (candidates st')) rest.
Proof.
  intros Hstep Hi Hrest. inversion Hi as [|x l Hi' Hlt]; subst.
  rewrite Forall_forall in *. intros [k v] Hin. unfold in_sync. simpl.
  specialize (Hlt _ Hin). unfold key_lt in Hlt. simpl in Hlt.
  erewrite step_frame; [now apply (Hrest (k, v))|eassumption|..].
  - intros ->. rewrite compare_refl in Hlt. discriminate.
  - intros ->. eapply prefix_not_after; [apply dirname_prefix|exact Hlt].
Qed.

Lemma outside_dirname d q : outside d q -> outside d (dirname q).
Proof.
  unfold outside. intros Hq.
  destruct (String.prefix d (dirname q)) eqn:E; [|reflexivity].
  rewrite (prefix_trans _ _ _ E (dirname_prefix q)) in Hq. discriminate.
Qed.

(** A step on a key outside the directory [d]: it keeps [apart], the
    entries of the directory and the units emitted before. *)
Lemma step_apart p d (ok : string -> Prop) st q cq st' e :
  String.prefix d p = true ->
  (forall k, outside d k -> ok k) ->
  outside d q ->
  Trie.find q (candidates st) = Some cq ->
  item_step db au st q cq st' e ->
  apart p ok st ->
  apart p ok st' /\
  (forall k, String.prefix d k = true ->
             Trie.find k (candidates st') = Trie.find k (candidates st)) /\
  (forall u, In u (change_lists st) -> In u (change_lists st')).
Proof.
  intros Hdp Hok Hq Hfind Hstep [Hkeys [Hlists Hpath]].
  pose proof (outside_dirname _ _ Hq) as Hdq.
  assert (Hframe : forall k, String.prefix d k = true ->
            Trie.find k (candidates st') = Trie.find k (candidates st)).
  { intros k Hk. eapply step_frame; [eassumption|..];
      intros ->; unfold outside in *; congruence. }
  assert (Hk' : forall k, Trie.contains k (candidates st') = true -> ok k).
  { intros k Hk.
    destruct (step_keys db au _ _ _ _ _ k Hstep Hfind Hk) as [[H| ->] _];
      auto. }
  assert (Hparent : forall p0,
            Trie.find (dirname q) (with_parent (dirname q) (candidates st))
              = Some p0 -> _path p0 = dirname q).
  { intros p0. rewrite find_with_parent.
    destruct (Trie.find (dirname q) (candidates st)) eqn:E;
      intros [= <-]; [now apply Hpath|reflexivity]. }
  split; [|split; [exact Hframe|]].
  - split; [exact Hk'|].
    destruct Hstep as [|p0 Hat Hcm|p0 Hat Hcm Hsz|p0 Hat Hcm Hsz Hcont];
      cbn [candidates change_lists] in *.
    + split; assumption.
    + destruct Hat as [_ [_ [Hp0 _]]]. apply Hparent in Hp0.
      split; [assumption|].
      intros k v. rewrite find_checked.
      destruct (String.eqb_spec k q) as [->|_].
      * intros [= <-]. rewrite ensured_path. now apply Hpath.
      * destruct (String.eqb_spec k (dirname q)) as [->|_]; [|apply Hpath].
        intros [= <-]. now rewrite ensured_path.
    + destruct Hat as [_ [_ [Hp0 _]]]. apply Hparent in Hp0.
      split; [assumption|].
      intros k v. rewrite find_folded.
      destruct (String.eqb_spec k q) as [->|_]; [discriminate|].
      destruct (String.eqb_spec k (dirname q)) as [->|_]; [|apply Hpath].
      intros [= <-]. simpl. now rewrite ensured_path.
    + destruct Hat as [_ [_ [Hp0 _]]]. apply Hparent in Hp0.
      split.
      * apply Forall_app. split; [assumption|]. constructor; [|constructor].
        simpl. rewrite ensured_path, Hp0. intros Heq.
        unfold outside in Hdq. rewrite Heq in Hdq. congruence.
      * intros k v. destruct (String.eqb_spec k (dirname q)) as [->|Hne].
        -- rewrite find_remove_same. discriminate.
        -- rewrite find_remove_other, find_folded by assumption.
           destruct (String.eqb_spec k q) as [->|_]; [discriminate|].
           apply String.eqb_neq in Hne. rewrite Hne. apply Hpath.
  - destruct (step_lists db au _ _ _ _ _ Hstep) as [->|[p0 [-> _]]];
      [auto|].
    intros u Hu. apply in_or_app. now left.
Qed.

Variable f : AffectedFile.
Hypothesis dir_nonempty : dirname (LocalPath f) <> "".
Hypothesis dir_proper : dirname (LocalPath f) <> LocalPath f.
Hypothesis have_common :
  common db au (mkChangeList (dirname (LocalPath f)) [] None)
               (mkChangeList (LocalPath f) [f] None) <> [].
Hypothesis over :
  max_cl_size < GetChangeSizeInBytes (mkChangeList (LocalPath f) [f] None).

(** The unit the body emits when it visits the candidate of [f]. *)
Lemma unit_of_alone :
  unit_of db au (mkChangeList (dirname (LocalPath f)) [] None)
                (mkChangeList (LocalPath f) [f] None) =
  mkChangeList (dirname (LocalPath f)) [f]
    (Some (common db au (mkChangeList (dirname (LocalPath f)) [] None)
                        (mkChangeList (LocalPath f) [f] None))).
Proof.
  unfold unit_of, merged, common. now rewrite !ensured_files, ensured_path.
Qed.

(** The visit of the candidate of [f]. *)
Lemma merge_item_waiting st st' e :
  sorted (candidates st) ->
  waiting f st ->
  merge_item db au st (LocalPath f) (mkChangeList (LocalPath f) [f] None)
    = Return (st', e) ->
  emitted_in_dir f
    (unit_of db au (mkChangeList (dirname (LocalPath f)) [] None)
                   (mkChangeList (LocalPath f) [f] None)) st'.
Proof.
  intros Hs [Hfind [Hkeys [Hlists Hpath]]] Hm.
  set (p := LocalPath f) in *. set (d := dirname p) in *.
  assert (Hdp : String.prefix d p = true) by apply dirname_prefix.
  assert (Hlen : List.length (filter (fun k => String.prefix p k)
                                (map fst (candidates st))) = 1%nat).
  { apply filter_single with (p := p).
    - now apply sorted_keys_NoDup.
    - apply contains_In. unfold Trie.contains. now rewrite Hfind.
    - apply prefix_refl.
    - intros k Hk Hpk. apply contains_In in Hk.
      destruct (Hkeys k Hk) as [H|H]; [assumption|].
      unfold outside in H.
      rewrite (prefix_trans _ _ _ Hdp Hpk) in H. discriminate. }
  destruct (merge_item_attempted _ _ _ _ _ Hlen dir_nonempty Hm)
    as [p0 [Hat Hcases]].
  assert (Hp0 : p0 = mkChangeList d [] None).
  { destruct Hat as [_ [_ [Hp0 _]]]. fold p d in Hp0.
    rewrite find_with_parent in Hp0.
    destruct (Trie.find d (candidates st)) eqn:E; [|congruence].
    exfalso.
    assert (Hc : Trie.contains d (candidates st) = true)
      by (unfold Trie.contains; now rewrite E).
    destruct (Hkeys d Hc) as [H|H]; [now apply dir_proper|].
    unfold outside in H. rewrite prefix_refl in H. discriminate. }
  subst p0.
  assert (Hsize : GetChangeSizeInBytes
                    (unit_of db au (mkChangeList d [] None)
                                   (mkChangeList p [f] None))
                  = GetChangeSizeInBytes (mkChangeList p [f] None)).
  { unfold d, p. now rewrite unit_of_alone. }
  destruct Hcases as [[Hc _]|[[_ [Hle _]]|[_ [_ [-> _]]]]].
  - now apply have_common in Hc.
  - rewrite Hsize in Hle. fold p in over. lia.
  - clear Hsize Hat Hm. subst d p.
    split; [apply in_or_app; right; now left|].
    split; [|split]; cbn [candidates change_lists].
    + intros k. unfold Trie.contains.
      destruct (String.eqb_spec k (dirname (LocalPath f))) as [->|Hne].
      * rewrite find_remove_same. discriminate.
      * rewrite find_remove_other, find_folded by assumption.
        destruct (String.eqb_spec k (LocalPath f)) as [->|Hnp];
          [discriminate|].
        apply String.eqb_neq in Hne. rewrite Hne. intros Hk.
        destruct (Hkeys k Hk) as [H|H]; [contradiction|assumption].
    + apply Forall_app. split; [assumption|]. constructor; [|constructor].
      rewrite unit_of_alone. simpl. exact dir_proper.
    + intros k v.
      destruct (String.eqb_spec k (dirname (LocalPath f))) as [->|Hne].
      * rewrite find_remove_same. discriminate.
      * rewrite find_remove_other, find_folded by assumption.
        destruct (String.eqb_spec k (LocalPath f)) as [->|Hnp];
          [discriminate|].
        apply String.eqb_neq in Hne. rewrite Hne. apply Hpath.
Qed.

(** Once the unit is emitted, no step comes back to the directory. *)
Lemma step_emitted_in_dir u st path c st' e :
  sorted (candidates st) -> Trie.find path (candidates st) = Some c ->
  emitted_in_dir f u st -> item_step db au st path c st' e ->
  emitted_in_dir f u st' /\ True.
Proof.
  intros _ Hfind [Hin Hap] Hstep. split; [|exact I].
  assert (Hq : outside (dirname (LocalPath f)) path).
  { destruct Hap as [Hkeys _]. apply Hkeys. unfold Trie.contains.
    now rewrite Hfind. }
  destruct (step_apart (LocalPath f) (dirname (LocalPath f))
              (outside (dirname (LocalPath f))) _ _ _ _ _
              (dirname_prefix _) (fun k H => H) Hq Hfind Hstep Hap)
    as [Hap' [_ Hmono]].
  split; auto.
Qed.

(** A pass that starts before the visit ends after it. *)
Lemma merge_pass_waiting items : forall st ed,
  sorted (candidates st) ->
  StronglySorted key_lt items ->
  Forall (in_sync (candidates st)) items ->
  waiting f st ->
  In (LocalPath f, mkChangeList (LocalPath f) [f] None) items ->
  match merge_pass db au items st ed with
  | Return (st', e) =>
      sorted (candidates st') /\
      emitted_in_dir f
        (unit_of db au (mkChangeList (dirname (LocalPath f)) [] None)
                       (mkChangeList (LocalPath f) [f] None)) st'
  | _ => True
  end.
Proof.
  induction items as [|[q cq] rest IH]; intros st ed Hs Hi Hsync Hw Hin;
    [destruct Hin|].
  cbn [merge_pass].
  inversion Hsync as [|x l Hc Hrest]; subst.
  unfold in_sync in Hc. simpl in Hc.
  destruct (merge_item db au st q cq) as [[st1 e1]|x|] eqn:Em;
    cbn [bind]; [|exact I|exact I].
  pose proof (merge_item_step _ _ _ _ _ _ _ Em) as Hstep.
  assert (Hs1 : sorted (candidates st1)) by (eapply step_sorted; eassumption).
  assert (Hsync1 : Forall (in_sync (candidates st1)) rest)
    by (eapply step_in_sync; eassumption).
  assert (Hi' : StronglySorted key_lt rest) by now inversion Hi.
  destruct (string_dec q (LocalPath f)) as [->|Hne].
  - assert (cq = mkChangeList (LocalPath f) [f] None)
      by (destruct Hw as [Hf _]; congruence).
    subst cq.
    pose proof (merge_item_waiting _ _ _ Hs Hw Em) as Hemit.
    pose proof (merge_pass_rel db au
                  (emitted_in_dir f
                     (unit_of db au
                        (mkChangeList (dirname (LocalPath f)) [] None)
                        (mkChangeList (LocalPath f) [f] None)))
                  (fun _ _ _ => True) (fun _ => True)
                  (fun _ => I) (fun _ _ _ _ _ _ _ => I)
                  (step_emitted_in_dir _) (fun _ _ _ _ _ _ _ _ => I)
                  rest st1 (ed || e1) Hs1 Hi' Hsync1 Hemit) as Hp.
    destruct (merge_pass db au rest st1 (ed || e1)) as [[st' e]|x|];
      [|exact I|exact I].
    destruct Hp as [Hs' [He _]]. split; assumption.
  - destruct Hin as [Heq|Hin]; [congruence|].
    apply IH; try assumption.
    destruct Hw as [Hfind Hap].
    assert (Hq : outside (dirname (LocalPath f)) q).
    { destruct Hap as [Hkeys _].
      destruct (Hkeys q) as [H|H]; [|contradiction|assumption].
      unfold Trie.contains. now rewrite Hc. }
    destruct (step_apart (LocalPath f) (dirname (LocalPath f))
                (fun k => k = LocalPath f \/
                          outside (dirname (LocalPath f)) k) _ _ _ _ _
                (dirname_prefix _) (fun k H => or_intror H) Hq Hc Hstep Hap)
      as [Hap' [Hframe _]].
    split; [|assumption].
    rewrite Hframe; [assumption|apply dirname_prefix].
Qed.

(** The loop, from a state before the visit. *)
Lemma merge_loop_waiting fuel st st' :
  sorted (candidates st) ->
  waiting f st ->
  merge_loop db au fuel st = Return st' ->
  sorted (candidates st') /\
  emitted_in_dir f
    (unit_of db au (mkChangeList (dirname (LocalPath f)) [] None)
                   (mkChangeList (LocalPath f) [f] None)) st'.
Proof.
  destruct fuel as [|fuel]; [discriminate|]. intros Hs Hw. cbn [merge_loop].
  pose proof (merge_pass_waiting (Trie.items (candidates st)) st false
                Hs Hs (sorted_in_sync _ Hs) Hw
                (find_In _ _ _ (proj1 Hw))) as Hp.
  destruct (merge_pass db au (Trie.items (candidates st)) st false)
    as [[st1 e1]|x|]; cbn [bind]; try discriminate.
  destruct Hp as [Hs1 He1].
  destruct e1; [|intros [= <-]; split; assumption].
  intros Hloop.
  pose proof (merge_loop_rel db au
                (emitted_in_dir f
                   (unit_of db au
                      (mkChangeList (dirname (LocalPath f)) [] None)
                      (mkChangeList (LocalPath f) [f] None)))
                (fun _ _ _ => True) (fun _ => True)
                (fun _ => I) (fun _ _ _ _ _ _ _ => I)
                (step_emitted_in_dir _) (fun _ _ _ _ _ _ _ _ => I)
                fuel st1 Hs1 He1) as Hr.
  rewrite Hloop in Hr. destruct Hr as [Hs' [He' _]]. split; assumption.
Qed.

(** The seeded trie, when [f] is the one file in its directory. *)
Lemma seed_waiting files :
  In f files ->
  (forall g, In g files -> g <> f ->
             outside (dirname (LocalPath f)) (LocalPath g)) ->
  waiting f (mkState (seed files) []).
Proof.
  intros Hin Halone.
  assert (Hsame : forall g, In g files -> LocalPath g = LocalPath f -> g = f).
  { intros g Hg Heq. destruct (AffectedFile_eq_dec g f) as [|Hne];
      [assumption|]. specialize (Halone g Hg Hne). unfold outside in Halone.
    rewrite Heq, dirname_prefix in Halone. discriminate. }
  split; [|repeat split]; cbn [candidates change_lists].
  - pose proof (seed_contains files f Hin) as Hc. unfold Trie.contains in Hc.
    destruct (Trie.find (LocalPath f) (seed files)) as [v|] eqn:E;
      [|discriminate].
    destruct (seed_find _ _ _ E) as [g [Hg [Heq ->]]].
    now rewrite (Hsame g Hg (eq_sym Heq)).
  - intros k Hk. apply seed_keys, in_map_iff in Hk.
    destruct Hk as [g [<- Hg]].
    destruct (AffectedFile_eq_dec g f) as [->|Hne]; [now left|].
    right. now apply Halone.
  - constructor.
  - intros k v Hf. destruct (seed_find _ _ _ Hf) as [g [_ [_ ->]]].
    reflexivity.
Qed.

End AloneFacts.

(* ------------------------------------------------------------------ *)
(** ** C4: a file over the budget *)

(** The budget is not looked at when the candidates are seeded.  The
    candidate of a file over the budget that is the whole change is
    merged into the candidate made for its directory; the test after the
    merge then emits it at once, and the one returned unit is anchored at
    the directory. *)
Lemma SplitCLs_one_file_over_budget db au fuel f :
  let p := LocalPath f in
  let c := mkChangeList p [f] None in
  let d := mkChangeList (dirname p) [] None in
  dirname p <> "" ->
  dirname p <> p ->
  common db au d c <> [] ->
  max_cl_size < GetChangeSizeInBytes c ->
  (2 <= fuel)%nat ->
  SplitCLs db au fuel [f] =
    Return [mkChangeList (dirname p) [f] (Some (common db au d c))].
Proof.
  intros p c d Hne Hpp Hcommon Hsize Hfuel.
  destruct fuel as [|[|fuel]]; try lia.
  pose proof (merge_item_single db au [] f Hne Hpp Hcommon) as Hm.
  subst p c d. cbv zeta in Hm.
  unfold SplitCLs.
  change (seed [f])
    with [(LocalPath f, mkChangeList (LocalPath f) [f] None)].
  cbn [merge_loop Trie.items candidates merge_pass].
  rewrite Hm, (proj2 (Z.ltb_lt _ _) Hsize). cbn.
  unfold unit_of, merged, common. rewrite !ensured_files, ensured_path.
  reflexivity.
Qed.

(** C4, as amended.  The budget is not looked at when the candidates are
    seeded: it is looked at after a merge only.  In any changeset, take a
    file over the budget whose path has a directory, such that no other
    file of the changeset is in that directory or below (no other path
    starts with the path of the directory), and whose candidate has an
    owner in common with the candidate made for the directory.  The body
    merges the candidate of the file into the candidate of the directory,
    and the test after the merge emits it at once: when the run returns,
    the unit anchored at the directory, with the file alone and the
    common owners, is among the units the loop has emitted, and no
    returned unit is anchored at the path of the file. *)
Theorem SplitCLs_single_over_budget db au fuel files f units :
  let p := LocalPath f in
  let c := mkChangeList p [f] None in
  let d := mkChangeList (dirname p) [] None in
  In f files ->
  dirname p <> "" ->
  dirname p <> p ->
  (forall g, In g files -> g <> f ->
             String.prefix (dirname p) (LocalPath g) = false) ->
  common db au d c <> [] ->
  max_cl_size < GetChangeSizeInBytes c ->
  SplitCLs db au fuel files = Return units ->
  exists st,
    merge_loop db au fuel (mkState (seed files) []) = Return st /\
    units = change_lists st ++ drain st /\
    In (mkChangeList (dirname p) [f] (Some (common db au d c)))
       (change_lists st) /\
    (forall u, In u units -> _path u <> p).
Proof.
  intros p c d Hin Hne Hpp Halone Hcommon Hsize.
  unfold SplitCLs.
  destruct (merge_loop db au fuel (mkState (seed files) [])) as [st| |] eqn:El;
    cbn [bind]; try discriminate.
  intros [= <-]. exists st. split; [reflexivity|]. split; [reflexivity|].
  destruct (merge_loop_waiting db au f Hne Hpp Hcommon Hsize fuel
              (mkState (seed files) []) st
              (seed_sorted files) (seed_waiting f files Hin Halone) El)
    as [Hs [Hemit [Hkeys [Hlists Hpath]]]].
  rewrite unit_of_alone in Hemit. split; [exact Hemit|].
  intros u Hu. apply in_app_or in Hu. destruct Hu as [Hu|Hu].
  - rewrite Forall_forall in Hlists. now apply Hlists.
  - unfold drain, Trie.items in Hu. apply in_map_iff in Hu.
    destruct Hu as [[k v] [<- Hkv]]. simpl.
    apply In_find in Hkv; [|assumption].
    rewrite (Hpath k v Hkv). intros ->.
    assert (Hc : Trie.contains p (candidates st) = true)
      by (unfold Trie.contains; now rewrite Hkv).
    apply Hkeys in Hc. unfold outside, p in Hc.
    rewrite dirname_prefix in Hc. discriminate.
Qed.

(** The scenario of the specification: two small files in [a] and a
    file of 2000 bytes in [b]. *)
Lemma SplitCLs_single_over_budget_witness :
  let x := mkAffectedFile "a/x.txt" [(50, 0)] in
  let y := mkAffectedFile "a/y.txt" [(60, 0)] in
  let z := mkAffectedFile "b/z.txt" [(2000, 0)] in
  exists st,
    merge_loop (everyone "alice") None 9 (mkState (seed [x; y; z]) [])
      = Return st /\
    [mkChangeList "b" [z] (Some ["alice"]);
     mkChangeList "a" [x; y] (Some ["alice"])] = change_lists st ++ drain st /\
    In (mkChangeList "b" [z] (Some ["alice"])) (change_lists st).
Proof.
  cbv zeta.
  destruct (SplitCLs_single_over_budget (everyone "alice") None 9
              [mkAffectedFile "a/x.txt" [(50, 0)];
               mkAffectedFile "a/y.txt" [(60, 0)];
               mkAffectedFile "b/z.txt" [(2000, 0)]]
              (mkAffectedFile "b/z.txt" [(2000, 0)])
              [mkChangeList "b" [mkAffectedFile "b/z.txt" [(2000, 0)]]
                            (Some ["alice"]);
               mkChangeList "a" [mkAffectedFile "a/x.txt" [(50, 0)];
                                 mkAffectedFile "a/y.txt" [(60, 0)]]
                            (Some ["alice"])])
    as [st [H0 [H1 [H2 _]]]].
  - simpl. auto.
  - vm_compute. discriminate.
  - vm_compute. discriminate.
  - intros g [<-|[<-|[<-|[]]]] Hg; [reflexivity|reflexivity|].
    now contradiction Hg.
  - vm_compute. discriminate.
  - vm_compute. reflexivity.
  - vm_compute. reflexivity.
  - exists st. split; [exact H0|]. split; [exact H1|]. exact H2.
Defined.

(** C4, as stated, fails on the scenario of the specification: the file
    of 2000 bytes is merged into the candidate of its directory [b], and
    no returned unit is anchored at the path of the file. *)
Lemma SplitCLs_scenario_counterexample :
  let x := mkAffectedFile "a/x.txt" [(50, 0)] in
  let y := mkAffectedFile "a/y.txt" [(60, 0)] in
  let z := mkAffectedFile "b/z.txt" [(2000, 0)] in
  exists units,
    SplitCLs (everyone "alice") None 9 [x; y; z] = Return units /\
    units = [mkChangeList "b" [z] (Some ["alice"]);
             mkChangeList "a" [x; y] (Some ["alice"])] /\
    ~ In "b/z.txt" (map _path units).
Proof.
  cbv zeta. eexists. split; [vm_compute; reflexivity|].
  split; [reflexivity|].
  simpl. intuition discriminate.
Qed.

(* ------------------------------------------------------------------ *)
(** ** C2: when the approver set is resolved *)

Lemma GetOwners_Return db au self self' os :
  GetOwners db au self = Return (self', os) ->
  os <> [] /\ _owners self' = Some os /\ self' = ensured db au self.
Proof.
  rewrite GetOwners_eq.
  destruct (owners_truthy (_owners (ensured db au self))) eqn:E;
    [|discriminate].
  intros [= <- <-]. split; [now apply owners_truthy_value|]. split; [|reflexivity].
  destruct (_owners (ensured db au self)) as [[|o l]|]; simpl in *;
    congruence.
Qed.

Lemma GetOwners_Raise db au self x :
  GetOwners db au self = Raise x ->
  x = AssertionError /\ covering_owners db au (owner_query self) = [].
Proof.
  unfold GetOwners, _EnsureOwners.
  destruct (negb (owners_truthy (_owners self))); cbn [bind]; [|discriminate].
  destruct (covering_owners db au (owner_query self)); cbn [bind];
    [|discriminate].
  intros [= <-]. auto.
Qed.

(** C2, as amended.  [GetOwners] never returns an empty approver set: it
    returns a set that is not empty, or raises the [AssertionError] when
    the database gives no owner that covers the paths asked.  The units
    the loop emits have an approver set that is known and not empty.
    The drain appends the remaining candidates without resolving their
    approver sets: a file right under the root is returned as a unit
    whatever the database says, and the [assert] fails only when the
    caller later asks that unit for its owners. *)
Theorem approvers_resolved_lazily db au :
  (forall self self' os,
     GetOwners db au self = Return (self', os) -> os <> []) /\
  (forall self x,
     GetOwners db au self = Raise x ->
     x = AssertionError /\ covering_owners db au (owner_query self) = []) /\
  (forall fuel files st,
     merge_loop db au fuel (mkState (seed files) []) = Return st ->
     Forall (fun u => owners_truthy (_owners u) = true) (change_lists st)) /\
  (forall fuel f,
     dirname (LocalPath f) = "" -> (1 <= fuel)%nat ->
     SplitCLs db au fuel [f] = Return [mkChangeList (LocalPath f) [f] None]).
Proof.
  split; [|split; [|split]].
  - intros self self' os H. now apply GetOwners_Return in H.
  - apply GetOwners_Raise.
  - intros fuel files st Hl.
    apply merge_loop_over_budget in Hl; simpl;
      [|apply seed_sorted|constructor].
    eapply Forall_impl; [|exact Hl]. intros u [_ H]. exact H.
  - intros fuel f. apply SplitCLs_top_level.
Qed.

Lemma approvers_resolved_lazily_witness :
  dirname (LocalPath file_x) = "" /\ (1 <= 1)%nat /\
  SplitCLs nobody None 1 [file_x]
    = Return [mkChangeList (LocalPath file_x) [file_x] None].
Proof.
  split; [reflexivity|]. split; [lia|].
  apply (proj2 (proj2 (proj2 (approvers_resolved_lazily nobody None)))).
  - reflexivity.
  - lia.
Defined.

(** C2, as stated, fails on a file right under the root that nobody
    owns: the run does not abort, it returns the unit, and the approver
    set of that unit resolves empty when it is asked for. *)
Lemma unapprovable_unit_counterexample :
  exists u,
    SplitCLs nobody None (enough_fuel [file_x]) [file_x] = Return [u] /\
    _files u = [file_x] /\
    GetOwners nobody None u = Raise AssertionError.
Proof.
  eexists. split; [vm_compute; reflexivity|]. split; reflexivity.
Qed.

(* ------------------------------------------------------------------ *)
(** ** C6: what is checked when the files come in *)

Lemma set_set_same {V : Type} k (v1 v2 : V) tr :
  sorted tr -> Trie.set k v2 (Trie.set k v1 tr) = Trie.set k v2 tr.
Proof.
  intros Hs. apply sorted_ext; try (now repeat apply sorted_set).
  intros k'. destruct (string_dec k' k) as [->|Hne].
  - now rewrite !find_set_same.
  - now rewrite !find_set_other by assumption.
Qed.

Lemma seed_duplicate f g files :
  LocalPath f = LocalPath g -> seed (f :: g :: files) = seed (g :: files).
Proof.
  intros Heq. rewrite !seed_fold. simpl. f_equal. unfold seed_step.
  rewrite Heq. apply (set_set_same (LocalPath g) _ _ []). constructor.
Qed.

(** *** A candidate under the empty key *)

Lemma set_below {V : Type} k (v c0 : V) tr :
  k <> "" -> Trie.set k v (("", c0) :: tr) = ("", c0) :: Trie.set k v tr.
Proof. destruct k; [congruence|reflexivity]. Qed.

Lemma find_below {V : Type} k (c0 : V) tr :
  k <> "" -> Trie.find k (("", c0) :: tr) = Trie.find k tr.
Proof. destruct k; [congruence|reflexivity]. Qed.

Lemma contains_below {V : Type} k (c0 : V) tr :
  k <> "" -> Trie.contains k (("", c0) :: tr) = Trie.contains k tr.
Proof. intros H. unfold Trie.contains. now rewrite find_below. Qed.

Lemma remove_below {V : Type} k (c0 : V) tr :
  k <> "" -> Trie.remove k (("", c0) :: tr) = ("", c0) :: Trie.remove k tr.
Proof. destruct k; [congruence|reflexivity]. Qed.

Lemma keys_below {V : Type} k (c0 : V) tr :
  k <> "" -> Trie.keys k (("", c0) :: tr) = Trie.keys k tr.
Proof. destruct k; [congruence|reflexivity]. Qed.

Lemma set_nameless {V : Type} (v : V) tr :
  (forall k, Trie.contains k tr = true -> k <> "") ->
  Trie.set "" v tr = ("", v) :: tr.
Proof.
  destruct tr as [|[k v'] rest]; [reflexivity|]. intros H.
  destruct k as [|a k]; [|reflexivity].
  exfalso. now apply (H ""). 
Qed.

Lemma filter_all_prefix (l : list string) :
  filter (fun k => String.prefix "" k) l = l.
Proof.
  induction l as [|k l IH]; [reflexivity|]. simpl.
  destruct k; simpl; now rewrite IH.
Qed.

Section NamelessFacts.

Variable db : Database.
Variable au : option string.
Variable c0 : ChangeList.

(** The body on the candidate under the empty key: it goes on to the
    next candidate. *)
Lemma merge_item_nameless st :
  merge_item db au (with_nameless c0 st) "" c0
    = Return (with_nameless c0 st, false).
Proof.
  unfold merge_item, count_sub_cls, Trie.keys.
  cbn [with_nameless candidates map fst]. rewrite filter_all_prefix.
  cbn [bind]. destruct (negb _); reflexivity.
Qed.

(** The body on another candidate: the candidate under the empty key
    is not looked at. *)
Lemma merge_item_below st q c :
  q <> "" ->
  merge_item db au (with_nameless c0 st) q c =
  outcome_map (fun r => (with_nameless c0 (fst r), snd r))
              (merge_item db au st q c).
Proof.
  intros Hq. unfold merge_item, count_sub_cls.
  cbn [with_nameless candidates change_lists].
  rewrite (keys_below q c0 _ Hq).
  destruct (Trie.keys q (candidates st)) as [ks| |]; cbn [bind outcome_map];
    try reflexivity.
  destruct (negb _); [reflexivity|].
  destruct (Z.of_nat (String.length (dirname q)) <? 1) eqn:E1; [reflexivity|].
  assert (Hd : dirname q <> "").
  { intros H. rewrite H in E1. discriminate. }
  cbv zeta. rewrite (contains_below _ c0 _ Hd).
  assert (Hget : forall tr,
            Trie.get (dirname q) (("", c0) :: tr) = Trie.get (dirname q) tr).
  { intros tr. unfold Trie.get. now rewrite find_below. }
  assert (Hrest : forall tr,
    (parent_cl <- Trie.get (dirname q) (("", c0) :: tr) ;;
     '(parent_cl, candidate, have) <- HaveCommonOwners db au parent_cl c ;;
     let cands := Trie.set q candidate
                    (Trie.set (dirname q) parent_cl (("", c0) :: tr)) in
     if negb have then Return (mkState cands (change_lists st), false)
     else
       cands <- Trie.del q cands ;;
       '(parent_cl, candidate) <- Merge db au parent_cl candidate ;;
       let cands :=
         if Trie.contains (dirname q) cands
         then Trie.set (dirname q) parent_cl cands
         else cands in
       if max_cl_size <? GetChangeSizeInBytes parent_cl then
         let lists := change_lists st ++ [parent_cl] in
         cands <- Trie.del (dirname q) cands ;;
         Return (mkState cands lists, true)
       else Return (mkState cands (change_lists st), true)) =
    outcome_map (fun r => (with_nameless c0 (fst r), snd r))
    (parent_cl <- Trie.get (dirname q) tr ;;
     '(parent_cl, candidate, have) <- HaveCommonOwners db au parent_cl c ;;
     let cands := Trie.set q candidate (Trie.set (dirname q) parent_cl tr) in
     if negb have then Return (mkState cands (change_lists st), false)
     else
       cands <- Trie.del q cands ;;
       '(parent_cl, candidate) <- Merge db au parent_cl candidate ;;
       let cands :=
         if Trie.contains (dirname q) cands
         then Trie.set (dirname q) parent_cl cands
         else cands in
       if max_cl_size <? GetChangeSizeInBytes parent_cl then
         let lists := change_lists st ++ [parent_cl] in
         cands <- Trie.del (dirname q) cands ;;
         Return (mkState cands lists, true)
       else Return (mkState cands (change_lists st), true))).
  { intros tr. rewrite Hget.
    destruct (Trie.get (dirname q) tr) as [p| |]; cbn [bind outcome_map];
      try reflexivity.
    destruct (HaveCommonOwners db au p c) as [[[p1 c1] have]| |];
      cbn [bind outcome_map]; try reflexivity.
    cbv zeta. rewrite (set_below (dirname q)), (set_below q) by assumption.
    destruct (negb have); [reflexivity|].
    unfold Trie.del. rewrite (contains_below q) by assumption.
    destruct (Trie.contains q _); cbn [bind outcome_map]; [|reflexivity].
    rewrite (remove_below q) by assumption.
    destruct (Merge db au p1 c1) as [[p2 c2]| |]; cbn [bind outcome_map];
      try reflexivity.
    set (tr1 := Trie.remove q (Trie.set q c1 (Trie.set (dirname q) p1 tr))).
    rewrite (contains_below (dirname q) c0 tr1) by assumption.
    destruct (Trie.contains (dirname q) tr1) eqn:Ec.
    - rewrite (set_below (dirname q)) by assumption.
      destruct (max_cl_size <? _); [|reflexivity].
      rewrite (contains_below (dirname q)) by assumption.
      destruct (Trie.contains (dirname q) (Trie.set (dirname q) p2 tr1));
        cbn [bind outcome_map]; [|reflexivity].
      now rewrite (remove_below (dirname q)) by assumption.
    - destruct (max_cl_size <? _); [|reflexivity].
      rewrite (contains_below (dirname q)) by assumption.
      rewrite Ec. reflexivity. }
  destruct (negb (Trie.contains (dirname q) (candidates st))).
  - rewrite (set_below (dirname q)) by assumption. apply Hrest.
  - apply Hrest.
Qed.

Lemma merge_pass_below items : forall st ed,
  Forall (fun kv => fst kv <> "") items ->
  merge_pass db au items (with_nameless c0 st) ed =
  outcome_map (fun r => (with_nameless c0 (fst r), snd r))
              (merge_pass db au items st ed).
Proof.
  induction items as [|[q c] rest IH]; intros st ed Hall; [reflexivity|].
  inversion Hall as [|x l Hq Hrest]; subst. simpl in Hq.
  cbn [merge_pass]. rewrite (merge_item_below st q c Hq).
  destruct (merge_item db au st q c) as [[st1 e1]| |];
    cbn [bind outcome_map fst snd]; try reflexivity.
  now apply IH.
Qed.

(** A step makes no candidate under the empty key. *)
Lemma step_no_nameless st path c st' e :
  sorted (candidates st) -> Trie.find path (candidates st) = Some c ->
  (forall k, Trie.contains k (candidates st) = true -> k <> "") ->
  item_step db au st path c st' e ->
  (forall k, Trie.contains k (candidates st') = true -> k <> "") /\ True.
Proof.
  intros _ Hfind Hall Hstep. split; [|exact I]. intros k Hk.
  destruct (step_keys db au _ _ _ _ _ k Hstep Hfind Hk) as [[H| ->] _];
    [now apply Hall|].
  destruct Hstep as [|p Hat _|p Hat _ _|p Hat _ _ _];
    [now apply Hall|..]; now destruct Hat as [_ [Hpp _]].
Qed.

(** The loop with one more candidate under the empty key. *)
Lemma merge_loop_below fuel : forall st,
  sorted (candidates st) ->
  (forall k, Trie.contains k (candidates st) = true -> k <> "") ->
  merge_loop db au fuel (with_nameless c0 st) =
  outcome_map (with_nameless c0) (merge_loop db au fuel st).
Proof.
  induction fuel as [|fuel IH]; intros st Hs Hall; [reflexivity|].
  cbn [merge_loop]. unfold Trie.items at 1.
  cbn [with_nameless candidates merge_pass].
  change (mkState (("", c0) :: candidates st) (change_lists st))
    with (with_nameless c0 st).
  rewrite merge_item_nameless. cbn [bind orb].
  rewrite merge_pass_below.
  2:{ apply Forall_forall. intros [k v] Hin. simpl. apply Hall.
      apply contains_In. apply in_map_iff. now exists (k, v). }
  pose proof (merge_pass_rel db au
                (fun st => forall k, Trie.contains k (candidates st) = true
                                     -> k <> "")
                (fun _ _ _ => True) (fun _ => True)
                (fun _ => I) (fun _ _ _ _ _ _ _ => I)
                step_no_nameless (fun _ _ _ _ _ _ _ _ => I)
                (candidates st) st false Hs Hs (sorted_in_sync _ Hs) Hall)
    as Hp.
  unfold Trie.items.
  destruct (merge_pass db au (candidates st) st false) as [[st1 e1]| |];
    cbn [bind outcome_map fst snd]; try reflexivity.
  destruct Hp as [Hs1 [Hall1 _]].
  destruct e1; [now apply IH|reflexivity].
Qed.

End NamelessFacts.

(** *** The seeded trie *)

Lemma seed_fold_below files : forall c0 acc,
  (forall g, In g files -> LocalPath g <> "") ->
  fold_left seed_step files (("", c0) :: acc)
    = ("", c0) :: fold_left seed_step files acc.
Proof.
  induction files as [|g files IH]; intros c0 acc Hall; [reflexivity|].
  simpl. unfold seed_step at 2.
  rewrite set_below by (apply Hall; now left).
  apply IH. intros g' Hg'. apply Hall. now right.
Qed.

(** A file with the empty path, wherever it comes among the others. *)
Lemma seed_nameless l1 l2 f :
  LocalPath f = "" ->
  (forall g, In g (l1 ++ l2) -> LocalPath g <> "") ->
  seed (l1 ++ f :: l2) = ("", mkChangeList "" [f] None) :: seed (l1 ++ l2).
Proof.
  intros Hf Hall. rewrite !seed_fold, !fold_left_app. simpl.
  unfold seed_step at 2. rewrite Hf.
  rewrite set_nameless.
  - apply seed_fold_below. intros g Hg. apply Hall, in_or_app. now right.
  - intros k Hk. apply seed_fold_keys in Hk. destruct Hk as [Hk|Hk];
      [discriminate|].
    apply in_map_iff in Hk. destruct Hk as [g [<- Hg]].
    apply Hall, in_or_app. now left.
Qed.

(** A candidate that a later file of the same path replaces. *)
Lemma seed_fold_overwritten k l : forall acc1 acc2,
  sorted acc1 -> sorted acc2 ->
  (forall k', k' <> k -> Trie.find k' acc1 = Trie.find k' acc2) ->
  (exists g, In g l /\ LocalPath g = k) ->
  fold_left seed_step l acc1 = fold_left seed_step l acc2.
Proof.
  induction l as [|h l IH]; intros acc1 acc2 Hs1 Hs2 Hag [g [Hg Hk]];
    [destruct Hg|].
  simpl. destruct (string_dec (LocalPath h) k) as [Hh|Hh].
  - f_equal. unfold seed_step. apply sorted_ext; try now apply sorted_set.
    intros k'. destruct (string_dec k' (LocalPath h)) as [->|Hne].
    + now rewrite !find_set_same.
    + rewrite !find_set_other by assumption. apply Hag. congruence.
  - apply IH; try (unfold seed_step; now apply sorted_set).
    + intros k' Hk'. unfold seed_step.
      destruct (string_dec k' (LocalPath h)) as [->|Hne].
      * now rewrite !find_set_same.
      * rewrite !find_set_other by assumption. now apply Hag.
    + destruct Hg as [->|Hg]; [contradiction|]. now exists g.
Qed.

Lemma seed_overwritten l1 l2 f g :
  In g l2 -> LocalPath g = LocalPath f ->
  seed (l1 ++ f :: l2) = seed (l1 ++ l2).
Proof.
  intros Hg Heq. rewrite !seed_fold, !fold_left_app. simpl.
  apply (seed_fold_overwritten (LocalPath f)).
  - unfold seed_step. apply sorted_set, seed_fold_sorted. constructor.
  - apply seed_fold_sorted. constructor.
  - intros k' Hk'. unfold seed_step. now rewrite find_set_other.
  - now exists g.
Qed.

(** C6, as amended.  [SplitCLs] checks nothing when the files come in,
    and neither input is turned down.  A file with the empty path,
    wherever it comes among the other files, gets a candidate under the
    empty key, which no step of the loop touches: the call ends as the
    call without the file ends, with the same exception when that one
    raises, and when that one returns with one more unit, anchored at the
    empty path and holding the file alone, the first of the candidates
    the drain appends.  Of two files with the same path, wherever they
    come, the candidate of the later one replaces the candidate of the
    earlier one: the seeded trie, and so the result of the call, is that
    of the changeset without the earlier file. *)
Theorem SplitCLs_no_ingestion_check db au fuel l1 l2 f :
  (LocalPath f = "" ->
   (forall g, In g (l1 ++ l2) -> LocalPath g <> "") ->
   match merge_loop db au fuel (mkState (seed (l1 ++ l2)) []) with
   | Return st =>
       SplitCLs db au fuel (l1 ++ l2)
         = Return (change_lists st ++ drain st) /\
       SplitCLs db au fuel (l1 ++ f :: l2)
         = Return (change_lists st ++ mkChangeList "" [f] None :: drain st)
   | Raise x =>
       SplitCLs db au fuel (l1 ++ l2) = Raise x /\
       SplitCLs db au fuel (l1 ++ f :: l2) = Raise x
   | OutOfFuel =>
       SplitCLs db au fuel (l1 ++ l2) = OutOfFuel /\
       SplitCLs db au fuel (l1 ++ f :: l2) = OutOfFuel
   end) /\
  (forall g,
     In g l2 -> LocalPath g = LocalPath f ->
     seed (l1 ++ f :: l2) = seed (l1 ++ l2) /\
     SplitCLs db au fuel (l1 ++ f :: l2) = SplitCLs db au fuel (l1 ++ l2)).
Proof.
  split.
  - intros Hf Hall. unfold SplitCLs.
    rewrite (seed_nameless l1 l2 f Hf Hall).
    change (mkState (("", mkChangeList "" [f] None) :: seed (l1 ++ l2)) [])
      with (with_nameless (mkChangeList "" [f] None)
                          (mkState (seed (l1 ++ l2)) [])).
    rewrite merge_loop_below.
    + destruct (merge_loop db au fuel (mkState (seed (l1 ++ l2)) []));
        split; reflexivity.
    + apply seed_sorted.
    + cbn [candidates]. intros k Hk. apply seed_keys, in_map_iff in Hk.
      destruct Hk as [g [<- Hg]]. now apply Hall.
  - intros g Hg Heq.
    pose proof (seed_overwritten l1 l2 f g Hg Heq) as Hseed.
    split; [assumption|]. unfold SplitCLs. now rewrite Hseed.
Qed.

(** A file with the empty path between two others, and a file whose
    path comes again two files later. *)
Lemma SplitCLs_no_ingestion_check_witness :
  SplitCLs (everyone "alice") None 9 [file_a_x; file_nameless; file_b_z]
    = Return [mkChangeList "" [file_nameless] None;
              mkChangeList "a" [file_a_x] (Some ["alice"]);
              mkChangeList "b" [file_b_z] (Some ["alice"])] /\
  SplitCLs nobody None 9 [file_dup_1; file_x; file_dup_2]
    = SplitCLs nobody None 9 [file_x; file_dup_2].
Proof.
  split.
  - pose proof (proj1 (SplitCLs_no_ingestion_check (everyone "alice") None 9
                         [file_a_x] [file_b_z] file_nameless)
                  eq_refl) as H.
    assert (Hall : forall g, In g ([file_a_x] ++ [file_b_z]) ->
                             LocalPath g <> "")
      by (intros g [<-|[<-|[]]]; discriminate).
    specialize (H Hall).
    assert (Hloop : merge_loop (everyone "alice") None 9
                      (mkState (seed ([file_a_x] ++ [file_b_z])) [])
                    = Return (mkState
                                [("a", mkChangeList "a" [file_a_x]
                                         (Some ["alice"]));
                                 ("b", mkChangeList "b" [file_b_z]
                                         (Some ["alice"]))] []))
      by (vm_compute; reflexivity).
    rewrite Hloop in H. exact (proj2 H).
  - apply (proj2 (SplitCLs_no_ingestion_check nobody None 9
                    [] [file_x; file_dup_2] file_dup_1) file_dup_2).
    + simpl. auto.
    + reflexivity.
Defined.

(** C6, as stated, fails: the call returns units for a file with the
    empty path, and for two files with the same path. *)
Lemma ingestion_counterexample :
  LocalPath file_nameless = "" /\
  (exists units,
     SplitCLs (everyone "alice") None (enough_fuel [file_nameless])
       [file_nameless] = Return units) /\
  LocalPath file_dup_1 = LocalPath file_dup_2 /\
  (exists units,
     SplitCLs (everyone "alice") None (enough_fuel [file_dup_1; file_dup_2])
       [file_dup_1; file_dup_2] = Return units).
Proof.
  split; [reflexivity|]. split; [eexists; vm_compute; reflexivity|].
  split; [reflexivity|]. eexists. vm_compute. reflexivity.
Qed.

(* ------------------------------------------------------------------ *)
(** ** C5: the approver set after a merge *)

(** C5, as amended.  [Merge] stores in [_owners] the owners the two
    change lists had in common before the merge.  When that set is not
    empty a later [GetOwners] returns it as it is stored, whatever the
    database would answer for the merged files; only when it is empty
    does [GetOwners] ask the database again, over the files the change
    list then has. *)
Theorem Merge_stores_common_owners db au self other self' other' :
  Merge db au self other = Return (self', other') ->
  _owners self' = Some (common db au self other) /\
  _files self' = union_files (_files self) (_files other) /\
  (common db au self other <> [] ->
   forall db' au',
     GetOwners db' au' self' = Return (self', common db au self other)) /\
  (common db au self other = [] ->
   GetOwners db au self' =
     match covering_owners db au (owner_query self') with
     | [] => Raise AssertionError
     | os => Return (set_owners self' (Some os), os)
     end).
Proof.
  rewrite Merge_eq. destruct (_ && _); [|discriminate].
  intros [= <- <-]. fold (unit_of db au self other).
  assert (Ho : _owners (unit_of db au self other)
               = Some (common db au self other)) by reflexivity.
  split; [exact Ho|]. split.
  - unfold unit_of, merged. cbn [_files]. now rewrite !ensured_files.
  - split.
    + intros Hne db' au'. rewrite GetOwners_eq.
      assert (Ht : owners_truthy (_owners (unit_of db au self other)) = true).
      { rewrite Ho. apply owners_truthy_value. exact Hne. }
      rewrite (ensured_truthy db' au' _ Ht), Ht, Ho. reflexivity.
    + intros He. unfold GetOwners, _EnsureOwners. rewrite Ho, He. cbn [owners_truthy negb].
      now destruct (covering_owners db au (owner_query (unit_of db au self other))).
Qed.

Lemma Merge_stores_common_owners_witness :
  let dir := mkChangeList "a" [] None in
  let leaf := mkChangeList "a/x" [file_a_x] None in
  exists self',
    Merge root_above_ann None dir leaf
      = Return (self', mkChangeList "a/x" [file_a_x] (Some ["root"; "ann"])) /\
    _owners self' = Some ["root"] /\
    _files self' = [file_a_x].
Proof.
  cbv zeta. eexists. split; [vm_compute; reflexivity|].
  pose proof (Merge_stores_common_owners root_above_ann None
                (mkChangeList "a" [] None)
                (mkChangeList "a/x" [file_a_x] None) _ _
                ltac:(vm_compute; reflexivity)) as [H1 [H2 _]].
  split; [exact H1|exact H2].
Defined.

(** C5, as stated, fails after the merge of a file into the candidate
    of its directory: [GetOwners] returns the owner kept at the merge,
    and the database, asked over the merged file set, names two. *)
Lemma GetOwners_after_merge_counterexample :
  let dir := mkChangeList "a" [] None in
  let leaf := mkChangeList "a/x" [file_a_x] None in
  exists self' other',
    Merge root_above_ann None dir leaf = Return (self', other') /\
    GetOwners root_above_ann None self' = Return (self', ["root"]) /\
    covering_owners root_above_ann None (owner_query self') = ["root"; "ann"].
Proof.
  cbv zeta. do 2 eexists. split; [vm_compute; reflexivity|].
  split; vm_compute; reflexivity.
Qed.

(* ------------------------------------------------------------------ *)
(** ** C10: a unit without files *)

(** C10.  There is an input for which [SplitCLs] returns a unit with no
    file: the candidate made for the directory [a] when the merge of
    [a/x] is tried has no owner in common with the candidate of the file,
    the merge is not made, the candidate stays in the trie and the drain
    emits it.  The approver set of a change list without files is what
    the database answers for the path of the change list. *)
Theorem empty_unit_emitted :
  common ann_and_root None
    (mkChangeList "a" [] None) (mkChangeList "a/x" [file_a_x] None) = [] /\
  SplitCLs ann_and_root None (enough_fuel [file_a_x]) [file_a_x] =
    Return [mkChangeList "a" [] (Some ["root"]);
            mkChangeList "a/x" [file_a_x] (Some ["ann"])] /\
  covering_owners ann_and_root None ["a"] = ["root"] /\
  (forall db au path,
     GetOwners db au (mkChangeList path [] None) =
       match covering_owners db au [path] with
       | [] => Raise AssertionError
       | os => Return (mkChangeList path [] (Some os), os)
       end).
Proof.
  split; [vm_compute; reflexivity|].
  split; [vm_compute; reflexivity|].
  split; [vm_compute; reflexivity|].
  intros db au path. unfold GetOwners, _EnsureOwners, owner_query. simpl.
  now destruct (covering_owners db au [path]).
Qed.

(* ------------------------------------------------------------------ *)
(** ** C8: the count of the candidates in subdirectories *)

(** C8 at the failing input.  After the first pass over the three files
    the trie has the candidates of [d/a], [d/ab] and [d/b].  For [d/a]
    the code counts one candidate below, the sibling [d/ab] whose key
    starts with the characters of [d/a], where no key lies in a
    subdirectory of [d/a]; the body leaves [d/a] alone in the second
    pass, and the files of [d/ab] and [d/b] end in one unit and the file
    of [d/a] in another. *)
Theorem sub_cls_counts_sibling :
  let files := [file_d_a_x; file_d_ab_y; file_d_b_z] in
  let db := everyone "alice" in
  exists st1,
    merge_pass db None (Trie.items (seed files)) (mkState (seed files) []) false
      = Return (st1, true) /\
    map fst (candidates st1) = ["d/a"; "d/ab"; "d/b"] /\
    count_sub_cls (candidates st1) "d/a" = Return 1 /\
    spec_sub_candidate_count (candidates st1) "d/a" = 0 /\
    merge_item db None st1 "d/a"
      (mkChangeList "d/a" [file_d_a_x] (Some ["alice"])) = Return (st1, false) /\
    SplitCLs db None (enough_fuel files) files =
      Return [mkChangeList "d" [file_d_ab_y; file_d_b_z] (Some ["alice"]);
              mkChangeList "d" [file_d_a_x] (Some ["alice"])].
Proof.
  cbv zeta. eexists. split; [vm_compute; reflexivity|].
  repeat split; vm_compute; reflexivity.
Qed.

(* ================================================================== *)
(** * Further properties of [SplitCLs] *)

(* ------------------------------------------------------------------ *)
(** ** What holds of every unit of a run *)

Section UnitFacts.

Variable db : Database.
Variable au : option string.

(** What is asked of the candidate [v] under the key [k], and of an
    emitted unit. *)
Variable A : string -> ChangeList -> Prop.
Variable B : ChangeList -> Prop.

Hypothesis A_fresh : forall pp, pp <> "" -> A pp (mkChangeList pp [] None).
Hypothesis A_ensured : forall k v, A k v -> A k (ensured db au v).
Hypothesis A_keep : forall path p c,
  dirname path <> "" -> A (dirname path) p -> A path c ->
  owners_truthy (_owners p) = true -> owners_truthy (_owners c) = true ->
  inter_owners (owners_value (_owners p)) (owners_value (_owners c)) <> [] ->
  GetChangeSizeInBytes (merged p c) <= max_cl_size ->
  A (dirname path) (merged p c).
Hypothesis B_emit : forall path p c,
  dirname path <> "" -> A (dirname path) p -> A path c ->
  owners_truthy (_owners p) = true -> owners_truthy (_owners c) = true ->
  inter_owners (owners_value (_owners p)) (owners_value (_owners c)) <> [] ->
  max_cl_size < GetChangeSizeInBytes (merged p c) ->
  B (merged p c).

Lemma step_units st path c st' e :
  sorted (candidates st) ->
  Trie.find path (candidates st) = Some c ->
  (forall k v, Trie.find k (candidates st) = Some v -> A k v) /\
  Forall B (change_lists st) ->
  item_step db au st path c st' e ->
  ((forall k v, Trie.find k (candidates st') = Some v -> A k v) /\
   Forall B (change_lists st')) /\ True.
Proof.
  intros _ Hc [HA HB] Hstep. split; [|exact I].
  destruct Hstep as [|p Hat Hcm|p Hat Hcm Hsz|p Hat Hcm Hsz Hcont];
    [now split|..];
    destruct Hat as [_ [Hpp [Hp [Htp Htc]]]];
    assert (HAp : A (dirname path) (ensured db au p))
      by (apply A_ensured; rewrite find_with_parent in Hp;
          destruct (Trie.find (dirname path) (candidates st)) eqn:E;
          injection Hp as <-; [now apply HA|now apply A_fresh]);
    assert (HAc : A path (ensured db au c)) by (apply A_ensured; now apply HA);
    cbn [candidates change_lists].
  - split; [|assumption]. intros k v. rewrite find_checked.
    destruct (String.eqb_spec k path) as [->|_]; [now intros [= <-]|].
    destruct (String.eqb_spec k (dirname path)) as [->|_]; [now intros [= <-]|].
    apply HA.
  - split; [|assumption]. intros k v. rewrite find_folded.
    destruct (String.eqb_spec k path) as [->|_]; [discriminate|].
    destruct (String.eqb_spec k (dirname path)) as [->|_]; [|apply HA].
    intros [= <-]. now apply A_keep.
  - split.
    + intros k v. destruct (String.eqb_spec k (dirname path)) as [->|Hne].
      * rewrite find_remove_same. discriminate.
      * rewrite find_remove_other, find_folded by assumption.
        destruct (String.eqb_spec k path) as [->|_]; [discriminate|].
        apply String.eqb_neq in Hne. rewrite Hne. apply HA.
    + apply Forall_app. split; [assumption|]. constructor; [|constructor].
      now apply (B_emit path).
Qed.

(** The units a run returns: the emitted ones, all as [B] asks, then
    the candidates left in the trie, in the order of their keys, each as
    [A] asks. *)
Lemma SplitCLs_units fuel files units :
  (forall f, In f files ->
             A (LocalPath f) (mkChangeList (LocalPath f) [f] None)) ->
  SplitCLs db au fuel files = Return units ->
  exists st,
    units = change_lists st ++ drain st /\
    sorted (candidates st) /\
    Forall B (change_lists st) /\
    (forall k v, In (k, v) (candidates st) -> A k v).
Proof.
  intros Hseed. unfold SplitCLs.
  pose proof (merge_loop_rel db au
                (fun st => (forall k v, Trie.find k (candidates st) = Some v
                                        -> A k v) /\
                           Forall B (change_lists st))
                (fun _ _ _ => True) (fun _ => True)
                (fun _ => I) (fun _ _ _ _ _ _ _ => I)
                step_units (fun _ _ _ _ _ _ _ _ => I)
                fuel (mkState (seed files) [])) as Hloop.
  cbn [candidates change_lists] in Hloop.
  specialize (Hloop (seed_sorted files)).
  destruct (merge_loop db au fuel (mkState (seed files) [])) as [st| |];
    cbn [bind]; try discriminate.
  intros [= <-]. exists st.
  destruct Hloop as [Hs [[HA HB] _]].
  - split; [|constructor]. intros k v Hf. apply seed_find in Hf.
    destruct Hf as [f [Hin [-> ->]]]. now apply Hseed.
  - repeat split; try assumption. intros k v Hin. apply HA.
    now apply In_find.
Qed.

(** The same, of the state the loop ends in. *)
Lemma merge_loop_units fuel files st :
  (forall f, In f files ->
             A (LocalPath f) (mkChangeList (LocalPath f) [f] None)) ->
  merge_loop db au fuel (mkState (seed files) []) = Return st ->
  sorted (candidates st) /\
  Forall B (change_lists st) /\
  (forall k v, In (k, v) (candidates st) -> A k v).
Proof.
  intros Hseed Hrun.
  pose proof (merge_loop_rel db au
                (fun st => (forall k v, Trie.find k (candidates st) = Some v
                                        -> A k v) /\
                           Forall B (change_lists st))
                (fun _ _ _ => True) (fun _ => True)
                (fun _ => I) (fun _ _ _ _ _ _ _ => I)
                step_units (fun _ _ _ _ _ _ _ _ => I)
                fuel (mkState (seed files) [])) as Hloop.
  cbn [candidates change_lists] in Hloop.
  specialize (Hloop (seed_sorted files)).
  rewrite Hrun in Hloop.
  destruct Hloop as [Hs [[HA HB] _]].
  - split; [|constructor]. intros k v Hf. apply seed_find in Hf.
    destruct Hf as [f [Hin [-> ->]]]. now apply Hseed.
  - repeat split; try assumption. intros k v Hin. apply HA.
    now apply In_find.
Qed.

End UnitFacts.

(** The state a returning run ends in. *)
Lemma SplitCLs_state db au fuel files units :
  SplitCLs db au fuel files = Return units ->
  exists st,
    merge_loop db au fuel (mkState (seed files) []) = Return st /\
    units = change_lists st ++ drain st.
Proof.
  unfold SplitCLs.
  destruct (merge_loop db au fuel (mkState (seed files) [])) as [st| |];
    cbn [bind]; try discriminate.
  intros [= <-]. now exists st.
Qed.

(* ------------------------------------------------------------------ *)
(** ** The path of a unit and the paths of its files *)

Lemma in_union_files f a b :
  In f (union_files a b) <-> In f a \/ In f b.
Proof.
  unfold union_files. rewrite in_app_iff, filter_In. split.
  - tauto.
  - intros [H|H]; [now left|].
    destruct (in_dec AffectedFile_eq_dec f a) as [Ha|Ha]; [now left|].
    right. split; [assumption|]. unfold mem_file.
    now destruct (in_dec AffectedFile_eq_dec f a).
Qed.

Lemma iter_dirname_prefix k p : String.prefix (iter_dirname k p) p = true.
Proof.
  induction k as [|k IH]; simpl; [apply prefix_refl|].
  eapply prefix_trans; [apply dirname_prefix|exact IH].
Qed.

Lemma anchored_merged path p c :
  _path p = dirname path -> anchored p ->
  _path c = path -> anchored c ->
  anchored (merged p c).
Proof.
  intros Hp Ap Hc Ac f Hf. simpl in *. apply in_union_files in Hf.
  destruct Hf as [Hf|Hf].
  - now apply Ap.
  - destruct (Ac f Hf) as [k Hk]. exists (S k). simpl. congruence.
Qed.

(** X1.  The path of a returned unit is, for each of its files, the path of
    the file or what [os.path.dirname] makes of it in some number of
    steps; so it is the beginning of the path of each of its files. *)
Theorem SplitCLs_units_anchored db au fuel files units :
  SplitCLs db au fuel files = Return units ->
  forall u f, In u units -> In f (_files u) ->
    (exists k, iter_dirname k (LocalPath f) = _path u) /\
    String.prefix (_path u) (LocalPath f) = true.
Proof.
  intros Hrun.
  destruct (SplitCLs_units db au
              (fun k v => _path v = k /\ anchored v) anchored) with
      (fuel := fuel) (files := files) (units := units)
    as [st [Hu [_ [HB HA]]]]; try assumption.
  - intros pp _. split; [reflexivity|]. intros f [].
  - intros k v [Hp Ha]. split; [now rewrite ensured_path|].
    intros f. rewrite ensured_files, ensured_path. apply Ha.
  - intros path p c _ [Hp Ap] [Hc Ac] _ _ _ _.
    split; [exact Hp|]. now apply (anchored_merged path).
  - intros path p c _ [Hp Ap] [Hc Ac] _ _ _ _.
    now apply (anchored_merged path).
  - intros f _. split; [reflexivity|]. intros g [<-|[]]. now exists 0%nat.
  - intros u f Hin Hf.
    assert (Hanch : anchored u).
    { subst units. apply in_app_or in Hin. destruct Hin as [Hin|Hin].
      - rewrite Forall_forall in HB. now apply HB.
      - unfold drain, Trie.items in Hin. apply in_map_iff in Hin.
        destruct Hin as [[k v] [<- Hin]]. now apply (HA k v). }
    destruct (Hanch f Hf) as [k Hk]. split; [now exists k|].
    rewrite <- Hk. apply iter_dirname_prefix.
Qed.

Lemma SplitCLs_units_anchored_witness :
  let x := mkAffectedFile "a/x.txt" [(50, 0)] in
  let y := mkAffectedFile "a/y.txt" [(60, 0)] in
  let u := mkChangeList "a" [x; y] (Some ["alice"]) in
  (exists k, iter_dirname k (LocalPath y) = _path u) /\
  String.prefix (_path u) (LocalPath y) = true.
Proof.
  cbv zeta.
  apply (SplitCLs_units_anchored (everyone "alice") None 9
           [mkAffectedFile "a/x.txt" [(50, 0)];
            mkAffectedFile "a/y.txt" [(60, 0)]]
           [mkChangeList "a" [mkAffectedFile "a/x.txt" [(50, 0)];
                              mkAffectedFile "a/y.txt" [(60, 0)]]
                         (Some ["alice"])]).
  - vm_compute. reflexivity.
  - simpl. auto.
  - simpl. auto.
Defined.

(* ------------------------------------------------------------------ *)
(** ** The order of the returned units *)

Lemma sorted_values_by_path (tr : Trie.t ChangeList) :
  sorted tr ->
  (forall k v, In (k, v) tr -> _path v = k) ->
  StronglySorted path_lt (map snd tr).
Proof.
  unfold sorted. induction 1 as [|[k v] tr Hs IH Hall]; intros Hp; simpl.
  - constructor.
  - constructor.
    + apply IH. intros k' v' Hin. apply Hp. now right.
    + apply Forall_forall. intros u Hu. apply in_map_iff in Hu.
      destruct Hu as [[k' v'] [<- Hin]]. rewrite Forall_forall in Hall.
      specialize (Hall _ Hin). unfold key_lt in Hall. unfold path_lt.
      simpl in *. rewrite (Hp k v) by now left.
      rewrite (Hp k' v') by now right. exact Hall.
Qed.

(** X2.  The returned list is the list of the units the loop emitted,
    each over the budget, in the order of their emission, followed by
    the candidates the loop left in the trie, in the strictly increasing
    order of their paths; so no two of the latter are anchored at the
    same path. *)
Theorem SplitCLs_drain_sorted db au fuel files units :
  SplitCLs db au fuel files = Return units ->
  exists st,
    merge_loop db au fuel (mkState (seed files) []) = Return st /\
    units = change_lists st ++ drain st /\
    Forall (fun u => max_cl_size < GetChangeSizeInBytes u) (change_lists st) /\
    StronglySorted path_lt (drain st) /\
    NoDup (map _path (drain st)).
Proof.
  intros Hrun.
  destruct (SplitCLs_state _ _ _ _ _ Hrun) as [st [Hloop Hu]].
  exists st. split; [assumption|]. split; [assumption|].
  destruct (merge_loop_units db au
              (fun k v => _path v = k)
              (fun u => max_cl_size < GetChangeSizeInBytes u)) with
      (fuel := fuel) (files := files) (st := st)
    as [Hs [HB HA]]; try assumption; auto.
  - intros k v Hp. now rewrite ensured_path.
  - assert (Hsorted : StronglySorted path_lt (drain st))
      by now apply sorted_values_by_path.
    repeat split; try assumption.
    clear -Hsorted. induction Hsorted as [|u l Hs IH Hall]; simpl.
    + constructor.
    + constructor; [|assumption]. intros Hin. apply in_map_iff in Hin.
      destruct Hin as [u' [Heq Hin]]. rewrite Forall_forall in Hall.
      specialize (Hall _ Hin). unfold path_lt in Hall.
      rewrite Heq, compare_refl in Hall. discriminate.
Qed.

(** Three files right under the root, handed out in the order [z], [x],
    [y]: the units come back in the order of their paths. *)
Lemma SplitCLs_drain_sorted_witness :
  let x := mkAffectedFile "x" [(2000, 0)] in
  let y := mkAffectedFile "y" [(10, 0)] in
  let z := mkAffectedFile "z" [(2000, 0)] in
  exists st,
    merge_loop nobody None 1 (mkState (seed [z; x; y]) []) = Return st /\
    [mkChangeList "x" [x] None; mkChangeList "y" [y] None;
     mkChangeList "z" [z] None] = change_lists st ++ drain st /\
    change_lists st = [] /\
    StronglySorted path_lt (drain st).
Proof.
  cbv zeta.
  destruct (SplitCLs_drain_sorted nobody None 1
              [mkAffectedFile "z" [(2000, 0)]; mkAffectedFile "x" [(2000, 0)];
               mkAffectedFile "y" [(10, 0)]]
              [mkChangeList "x" [mkAffectedFile "x" [(2000, 0)]] None;
               mkChangeList "y" [mkAffectedFile "y" [(10, 0)]] None;
               mkChangeList "z" [mkAffectedFile "z" [(2000, 0)]] None])
    as [st [H0 [H1 [_ [H2 _]]]]].
  - vm_compute. reflexivity.
  - exists st. split; [exact H0|]. split; [exact H1|].
    split; [|exact H2].
    vm_compute in H0. injection H0 as <-. reflexivity.
Defined.

(* ------------------------------------------------------------------ *)
(** ** No unit for the root of the repository *)

(** X3.  When no file has the empty path, no returned unit is anchored at
    the empty path: the loop makes a candidate for a directory only when
    the path of the directory is not empty, and so never makes one for
    the root of the repository. *)
Theorem SplitCLs_no_root_unit db au fuel files units :
  (forall f, In f files -> LocalPath f <> "") ->
  SplitCLs db au fuel files = Return units ->
  forall u, In u units -> _path u <> "".
Proof.
  intros Hne Hrun.
  destruct (SplitCLs_units db au
              (fun k v => k <> "" /\ _path v = k)
              (fun u => _path u <> "")) with
      (fuel := fuel) (files := files) (units := units)
    as [st [Hu [_ [HB HA]]]]; try assumption.
  - intros pp Hpp. now split.
  - intros k v [Hk Hp]. split; [assumption|now rewrite ensured_path].
  - intros path p c Hpp [_ Hp] _ _ _ _ _. now split.
  - intros path p c Hpp [_ Hp] _ _ _ _ _. simpl. congruence.
  - intros f Hf. split; [now apply Hne|reflexivity].
  - intros u Hin. subst units. apply in_app_or in Hin.
    destruct Hin as [Hin|Hin].
    + rewrite Forall_forall in HB. now apply HB.
    + unfold drain, Trie.items in Hin. apply in_map_iff in Hin.
      destruct Hin as [[k v] [<- Hin]]. destruct (HA k v Hin) as [Hk Hp].
      simpl. congruence.
Qed.

Lemma SplitCLs_no_root_unit_witness :
  SplitCLs nobody None 1 [file_x] = Return [mkChangeList "x" [file_x] None] /\
  _path (mkChangeList "x" [file_x] None) <> "".
Proof.
  split; [vm_compute; reflexivity|].
  apply (SplitCLs_no_root_unit nobody None 1 [file_x]
           [mkChangeList "x" [file_x] None]).
  - intros f [<-|[]]. vm_compute. discriminate.
  - vm_compute. reflexivity.
  - simpl. auto.
Defined.

(* ------------------------------------------------------------------ *)
(** ** The files of the units are files of the input *)

(** X4.  Whatever the input, a file of a returned unit is a file that was
    given: the run makes up no file. *)
Theorem SplitCLs_files_from_input db au fuel files units :
  SplitCLs db au fuel files = Return units ->
  forall u f, In u units -> In f (_files u) -> In f files.
Proof.
  intros Hrun.
  destruct (SplitCLs_units db au
              (fun _ v => incl (_files v) files)
              (fun u => incl (_files u) files)) with
      (fuel := fuel) (files := files) (units := units)
    as [st [Hu [_ [HB HA]]]]; try assumption.
  - intros pp _ f [].
  - intros k v Hv. now rewrite ensured_files.
  - intros path p c _ Hp Hc _ _ _ _ f Hf. simpl in Hf.
    apply in_union_files in Hf. destruct Hf; auto.
  - intros path p c _ Hp Hc _ _ _ _ f Hf. simpl in Hf.
    apply in_union_files in Hf. destruct Hf; auto.
  - intros f Hf g [<-|[]]. assumption.
  - intros u f Hin Hf. subst units. apply in_app_or in Hin.
    destruct Hin as [Hin|Hin].
    + rewrite Forall_forall in HB. now apply (HB u).
    + unfold drain, Trie.items in Hin. apply in_map_iff in Hin.
      destruct Hin as [[k v] [<- Hin]]. now apply (HA k v).
Qed.

Lemma SplitCLs_files_from_input_witness :
  In file_x [file_x].
Proof.
  apply (SplitCLs_files_from_input nobody None 1 [file_x]
           [mkChangeList "x" [file_x] None] ltac:(vm_compute; reflexivity)
           (mkChangeList "x" [file_x] None) file_x); simpl; auto.
Defined.

(* ------------------------------------------------------------------ *)
(** ** The size of the units *)

Lemma size_as_sum u :
  GetChangeSizeInBytes u = fold_right Z.add 0 (map file_size (_files u)).
Proof.
  unfold GetChangeSizeInBytes. induction (_files u) as [|f l IH]; simpl;
    [reflexivity|].
  rewrite <- IH. unfold file_size.
  induction (map (fun c => fst c + snd c) (ChangeSizeInBytes f)) as [|z zs IHz];
    simpl; [reflexivity|]. rewrite IHz. lia.
Qed.

Lemma sum_sizes_app a b :
  fold_right Z.add 0 (map file_size (a ++ b)) =
  fold_right Z.add 0 (map file_size a) + fold_right Z.add 0 (map file_size b).
Proof. induction a as [|f a IH]; simpl; [reflexivity|]. rewrite IH. lia. Qed.

Lemma sum_sizes_filter (g : AffectedFile -> bool) b :
  (forall f, In f b -> 0 <= file_size f) ->
  fold_right Z.add 0 (map file_size (filter g b)) <=
  fold_right Z.add 0 (map file_size b).
Proof.
  induction b as [|f b IH]; simpl; [lia|]. intros Hpos.
  assert (0 <= file_size f) by (apply Hpos; auto).
  assert (IH' := IH (fun x Hx => Hpos x (or_intror Hx))).
  destruct (g f); simpl; lia.
Qed.

(** A merge adds at most the size of what it takes in. *)
Lemma size_merged_le p c :
  (forall f, In f (_files c) -> 0 <= file_size f) ->
  GetChangeSizeInBytes (merged p c) <=
  GetChangeSizeInBytes p + GetChangeSizeInBytes c.
Proof.
  intros Hpos. rewrite !size_as_sum. simpl. unfold union_files.
  rewrite sum_sizes_app.
  pose proof (sum_sizes_filter (fun f => negb (mem_file f (_files p)))
                (_files c) Hpos). lia.
Qed.

(** X5.  The remark in the source, "we might end up with CLs of size
    2 * max_cl_size".  When no file alone is over the budget (and no
    file has a negative size), the units the loop has emitted when it
    ends are over the budget and at most twice the budget, and the
    candidates it has left, which the drain appends, are within the
    budget. *)
Theorem SplitCLs_size_bound db au fuel files units :
  (forall f, In f files -> 0 <= file_size f <= max_cl_size) ->
  SplitCLs db au fuel files = Return units ->
  exists st,
    merge_loop db au fuel (mkState (seed files) []) = Return st /\
    units = change_lists st ++ drain st /\
    Forall (fun u => max_cl_size < GetChangeSizeInBytes u <= 2 * max_cl_size)
           (change_lists st) /\
    Forall (fun u => GetChangeSizeInBytes u <= max_cl_size) (drain st).
Proof.
  intros Hsize Hrun.
  assert (Hbound : forall p c,
    (incl (_files p) files /\ GetChangeSizeInBytes p <= max_cl_size) ->
    (incl (_files c) files /\ GetChangeSizeInBytes c <= max_cl_size) ->
    incl (_files (merged p c)) files /\
    GetChangeSizeInBytes (merged p c) <= 2 * max_cl_size).
  { intros p c [Hip Hp] [Hic Hc]. split.
    - intros f Hf. simpl in Hf. apply in_union_files in Hf. destruct Hf; auto.
    - pose proof (size_merged_le p c
                    (fun f Hf => proj1 (Hsize f (Hic f Hf)))). lia. }
  destruct (SplitCLs_state _ _ _ _ _ Hrun) as [st [Hloop Hu]].
  exists st. split; [assumption|]. split; [assumption|].
  destruct (merge_loop_units db au
              (fun _ v => incl (_files v) files /\
                          GetChangeSizeInBytes v <= max_cl_size)
              (fun u => max_cl_size < GetChangeSizeInBytes u
                                    <= 2 * max_cl_size)) with
      (fuel := fuel) (files := files) (st := st)
    as [_ [HB HA]]; try assumption.
  - intros pp _. split; [intros f []|]. vm_compute. discriminate.
  - intros k v [Hi Hv]. rewrite ensured_files. split; [assumption|].
    rewrite size_as_sum, ensured_files, <- size_as_sum. assumption.
  - intros path p c _ Hp Hc _ _ _ Hle. split; [|assumption].
    now apply Hbound.
  - intros path p c _ Hp Hc _ _ _ Hlt. split; [assumption|].
    now apply Hbound.
  - intros f Hf. split; [intros g [<-|[]]; assumption|].
    rewrite size_as_sum. simpl. pose proof (Hsize f Hf). lia.
  - split; [assumption|].
    apply Forall_forall. intros u Hin.
    unfold drain, Trie.items in Hin. apply in_map_iff in Hin.
    destruct Hin as [[k v] [<- Hin]]. now destruct (HA k v Hin).
Qed.

(** Three files of 600 bytes: the loop emits one unit of 1200 bytes and
    leaves a candidate of 600 bytes. *)
Lemma SplitCLs_size_bound_witness :
  exists st,
    merge_loop (everyone "alice") None 9
      (mkState (seed [file_d_a_x; file_d_ab_y; file_d_b_z]) []) = Return st /\
    change_lists st
      = [mkChangeList "d" [file_d_ab_y; file_d_b_z] (Some ["alice"])] /\
    drain st = [mkChangeList "d" [file_d_a_x] (Some ["alice"])] /\
    Forall (fun u => max_cl_size < GetChangeSizeInBytes u <= 2 * max_cl_size)
           (change_lists st) /\
    Forall (fun u => GetChangeSizeInBytes u <= max_cl_size) (drain st).
Proof.
  destruct (SplitCLs_size_bound (everyone "alice") None 9
              [file_d_a_x; file_d_ab_y; file_d_b_z]
              [mkChangeList "d" [file_d_ab_y; file_d_b_z] (Some ["alice"]);
               mkChangeList "d" [file_d_a_x] (Some ["alice"])])
    as [st [H0 [_ [H2 H3]]]].
  - intros f [<-|[<-|[<-|[]]]]; vm_compute; split; discriminate.
  - vm_compute. reflexivity.
  - exists st. split; [exact H0|].
    assert (Hst : st = mkState [("d", mkChangeList "d" [file_d_a_x]
                                        (Some ["alice"]))]
                    [mkChangeList "d" [file_d_ab_y; file_d_b_z]
                                  (Some ["alice"])])
      by (vm_compute in H0; now injection H0 as <-).
    split; [now rewrite Hst|]. split; [now rewrite Hst|].
    split; assumption.
Defined.

(* ================================================================== *)
(** * Further properties of [ChangeList] *)

(* ------------------------------------------------------------------ *)
(** ** What [_EnsureOwners] computes *)

Lemma in_add_owner x o s : In x (add_owner o s) <-> x = o \/ In x s.
Proof.
  unfold add_owner, mem_owner.
  destruct (in_dec string_dec o s) as [Hin|Hin].
  - split; [auto|]. intros [->|H]; assumption.
  - rewrite in_app_iff. simpl. intuition.
Qed.

Lemma NoDup_add_owner o s : NoDup s -> NoDup (add_owner o s).
Proof.
  intros Hnd. unfold add_owner, mem_owner.
  destruct (in_dec string_dec o s) as [Hin|Hin]; [assumption|].
  apply NoDup_app; [assumption|repeat constructor; simpl; tauto|].
  intros x Hx [<-|[]]. contradiction.
Qed.

Lemma covering_fold db files (l acc : list string) o :
  In o (fold_left
          (fun acc owner =>
             if (Z.of_nat (List.length (files_not_covered_by db files [owner]))
                 =? 0)
             then add_owner owner acc else acc) l acc) <->
  In o acc \/ (In o l /\ files_not_covered_by db files [o] = []).
Proof.
  revert acc. induction l as [|x l IH]; intros acc; simpl; [tauto|].
  rewrite IH.
  destruct (files_not_covered_by db files [x]) as [|y ys] eqn:E; simpl.
  - rewrite in_add_owner. split.
    + intros [[->|H]|[H1 H2]]; auto.
    + intros [H|[[->|H1] H2]]; auto.
  - split.
    + intros [H|[H1 H2]]; auto.
    + intros [H|[[->|H1] H2]]; auto. rewrite E in H2. discriminate.
Qed.

Lemma covering_owners_spec db au files o :
  In o (covering_owners db au files) <->
  In o (all_possible_owners db files au) /\
  files_not_covered_by db files [o] = [].
Proof.
  unfold covering_owners. rewrite covering_fold. simpl. tauto.
Qed.

Lemma covering_owners_NoDup db au files : NoDup (covering_owners db au files).
Proof.
  unfold covering_owners.
  assert (H : forall l acc, NoDup acc ->
            NoDup (fold_left
              (fun acc owner =>
                 if (Z.of_nat (List.length
                       (files_not_covered_by db files [owner])) =? 0)
                 then add_owner owner acc else acc) l acc)).
  { induction l as [|x l IH]; intros acc Hnd; simpl; [assumption|].
    apply IH. destruct (_ =? 0); [now apply NoDup_add_owner|assumption]. }
  apply H. constructor.
Qed.

(** X6.  The first access.  On a change list whose approver set is not
    known (or is empty), [GetOwners] asks the database over the paths of
    the files, or over the path of the change list when it has no file;
    what it returns and stores is, without repetition, the possible
    owners that leave none of these paths uncovered, and it is not
    empty. *)
Theorem GetOwners_first_access db au self self' os :
  owners_truthy (_owners self) = false ->
  GetOwners db au self = Return (self', os) ->
  os <> [] /\ NoDup os /\
  _owners self' = Some os /\
  _path self' = _path self /\ _files self' = _files self /\
  (forall o, In o os <->
     In o (all_possible_owners db (owner_query self) au) /\
     files_not_covered_by db (owner_query self) [o] = []).
Proof.
  intros Hf Hget. destruct (GetOwners_Return _ _ _ _ _ Hget) as [Hne [Ho ->]].
  unfold ensured in *. rewrite Hf in *. simpl in Ho. injection Ho as <-.
  split; [assumption|]. split; [apply covering_owners_NoDup|].
  do 3 (split; [reflexivity|]).
  intros o. apply covering_owners_spec.
Qed.

Lemma GetOwners_first_access_witness :
  exists self',
    GetOwners root_above_ann None (mkChangeList "a/x" [file_a_x] None)
      = Return (self', ["root"; "ann"]) /\
    NoDup ["root"; "ann"].
Proof.
  eexists. split; [vm_compute; reflexivity|].
  apply (GetOwners_first_access root_above_ann None
           (mkChangeList "a/x" [file_a_x] None) _ ["root"; "ann"]
           eq_refl ltac:(vm_compute; reflexivity)).
Defined.

(** X7.  The later accesses.  After [GetOwners] has returned, the change
    list it leaves gives the same owners again and stays as it is, and
    the database is not looked at: the answer is the same with any
    database and any author. *)
Theorem GetOwners_memoized db au self self' os :
  GetOwners db au self = Return (self', os) ->
  forall db' au', GetOwners db' au' self' = Return (self', os).
Proof.
  intros Hget db' au'. destruct (GetOwners_Return _ _ _ _ _ Hget) as [Hne [Ho _]].
  assert (Ht : owners_truthy (_owners self') = true)
    by (rewrite Ho; now apply owners_truthy_value).
  rewrite GetOwners_eq, (ensured_truthy db' au' _ Ht), Ht, Ho. reflexivity.
Qed.

Lemma GetOwners_memoized_witness :
  GetOwners nobody None (mkChangeList "a/x" [file_a_x] (Some ["root"; "ann"]))
    = Return (mkChangeList "a/x" [file_a_x] (Some ["root"; "ann"]),
              ["root"; "ann"]).
Proof.
  apply (GetOwners_memoized root_above_ann None
           (mkChangeList "a/x" [file_a_x] None)).
  vm_compute. reflexivity.
Defined.

(* ------------------------------------------------------------------ *)
(** ** The two arguments of [HaveCommonOwners] *)

Lemma inter_owners_In o a b : In o (inter_owners a b) <-> In o a /\ In o b.
Proof.
  unfold inter_owners, mem_owner. rewrite filter_In.
  destruct (in_dec string_dec o b); intuition discriminate.
Qed.

Lemma inter_owners_nil_sym a b : inter_owners a b = [] -> inter_owners b a = [].
Proof.
  intros H. destruct (inter_owners b a) as [|o l] eqn:E; [reflexivity|].
  assert (Hin : In o (inter_owners b a)) by (rewrite E; now left).
  apply inter_owners_In in Hin.
  assert (Hin' : In o (inter_owners a b)) by (apply inter_owners_In; tauto).
  rewrite H in Hin'. contradiction.
Qed.

Lemma have_common_sym x y :
  (0 <? Z.of_nat (List.length (inter_owners x y))) =
  (0 <? Z.of_nat (List.length (inter_owners y x))).
Proof.
  destruct (inter_owners x y) eqn:E1.
  - now rewrite (inter_owners_nil_sym _ _ E1).
  - destruct (inter_owners y x) eqn:E2.
    + rewrite (inter_owners_nil_sym _ _ E2) in E1. discriminate.
    + reflexivity.
Qed.

Lemma EnsureOwners_obj_eq db au self :
  _EnsureOwners_obj db au self =
  (if owners_truthy (_owners self) then self
   else set_owners self (Some (covering_owners db au (owner_query self))),
   if owners_truthy (_owners (ensured db au self)) then None
   else Some AssertionError).
Proof.
  unfold _EnsureOwners_obj, ensured.
  destruct (owners_truthy (_owners self)) eqn:E; cbn [negb]; [now rewrite E|].
  now destruct (covering_owners db au (owner_query self)).
Qed.

(** X8.  [HaveCommonOwners] does not depend on which of the two change
    lists it is called on when it returns: the answer and the two change
    lists it leaves are the same.  When one of the calls raises, the other
    raises the [AssertionError] as well, but the objects are not left the
    same: the receiver is left as its own [_EnsureOwners] leaves it, and
    the argument is left untouched when the [assert] of the receiver
    fails.  The outcomes are those of the method as [SplitCLs] uses it. *)
Theorem HaveCommonOwners_symmetric db au a b :
  match HaveCommonOwners_obj db au a b with
  | (a', b', Return have) =>
      HaveCommonOwners_obj db au b a = (b', a', Return have) /\
      HaveCommonOwners db au a b = Return (a', b', have) /\
      HaveCommonOwners db au b a = Return (b', a', have)
  | (a', b', Raise x) =>
      x = AssertionError /\
      HaveCommonOwners db au a b = Raise AssertionError /\
      HaveCommonOwners db au b a = Raise AssertionError /\
      exists b'' a'',
        HaveCommonOwners_obj db au b a = (b'', a'', Raise AssertionError) /\
        a' = fst (_EnsureOwners_obj db au a) /\
        b'' = fst (_EnsureOwners_obj db au b) /\
        (snd (_EnsureOwners_obj db au a) <> None -> b' = b) /\
        (snd (_EnsureOwners_obj db au b) <> None -> a'' = a)
  | (_, _, OutOfFuel) => False
  end.
Proof.
  unfold HaveCommonOwners_obj. rewrite !HaveCommonOwners_eq.
  rewrite !EnsureOwners_obj_eq. cbn [fst snd].
  fold (ensured db au a). fold (ensured db au b).
  destruct (owners_truthy (_owners (ensured db au a))) eqn:Ea;
    destruct (owners_truthy (_owners (ensured db au b))) eqn:Eb;
    cbn [andb].
  - split; [|split]; [|reflexivity|]; do 2 f_equal; apply have_common_sym.
  - repeat split. exists (ensured db au b), a.
    repeat split; try congruence.
  - repeat split. exists (ensured db au b), (ensured db au a).
    repeat split; congruence.
  - repeat split. exists (ensured db au b), a.
    repeat split; congruence.
Qed.

(** The objects after the exception, in the two orders: with a file
    that [ann] owns and a file that nobody owns, the call on the first
    leaves it with its owners, and the call on the second leaves the
    first as it was. *)
Lemma HaveCommonOwners_raise_objects :
  let a := mkChangeList "a/x" [file_a_x] None in
  let b := mkChangeList "x" [file_x] None in
  HaveCommonOwners_obj ann_and_root None a b
    = (mkChangeList "a/x" [file_a_x] (Some ["ann"]),
       mkChangeList "x" [file_x] (Some []), Raise AssertionError) /\
  HaveCommonOwners_obj ann_and_root None b a
    = (mkChangeList "x" [file_x] (Some []), a, Raise AssertionError).
Proof. split; reflexivity. Qed.

(* ------------------------------------------------------------------ *)
(** ** What [Merge] does to the files *)

Lemma NoDup_union_files a b : NoDup a -> NoDup b -> NoDup (union_files a b).
Proof.
  intros Ha Hb. unfold union_files. apply NoDup_app; [assumption| |].
  - now apply NoDup_filter.
  - intros f Hf Hf'. apply filter_In in Hf'. destruct Hf' as [_ H].
    unfold mem_file in H. destruct (in_dec AffectedFile_eq_dec f a);
      [discriminate|contradiction].
Qed.

(** X9.  [Merge] keeps the path of the change list and leaves the other one
    with its files.  A file is in the merged change list when it is in
    one of the two; no file comes twice; and when the two had no file in
    common the size of the merged one is the sum of their sizes. *)
Theorem Merge_files db au self other self' other' :
  Merge db au self other = Return (self', other') ->
  _path self' = _path self /\
  _files other' = _files other /\
  (forall f, In f (_files self') <->
             In f (_files self) \/ In f (_files other)) /\
  (NoDup (_files self) -> NoDup (_files other) -> NoDup (_files self')) /\
  ((forall f, In f (_files self) -> In f (_files other) -> False) ->
   GetChangeSizeInBytes self' =
     GetChangeSizeInBytes self + GetChangeSizeInBytes other).
Proof.
  rewrite Merge_eq. destruct (_ && _); [|discriminate].
  intros [= <- <-]. unfold merged. cbn [_path _files].
  rewrite !ensured_files, ensured_path.
  split; [reflexivity|]. split; [reflexivity|].
  split; [intros f; apply in_union_files|].
  split; [apply NoDup_union_files|].
  intros Hdis. rewrite !size_as_sum. cbn [_files].
  rewrite union_files_disjoint by assumption. apply sum_sizes_app.
Qed.

Lemma Merge_files_witness :
  exists self' other',
    Merge root_above_ann None (mkChangeList "a" [] None)
      (mkChangeList "a/x" [file_a_x] None) = Return (self', other') /\
    _path self' = "a".
Proof.
  do 2 eexists. split; [vm_compute; reflexivity|].
  apply (Merge_files root_above_ann None (mkChangeList "a" [] None)
           (mkChangeList "a/x" [file_a_x] None) _ _
           ltac:(vm_compute; reflexivity)).
Defined.

(* ------------------------------------------------------------------ *)
(** ** The approvers of the returned units *)

Lemma owners_sound_ensured db au v :
  owners_sound db au v -> owners_sound db au (ensured db au v).
Proof.
  intros H. unfold ensured.
  destruct (owners_truthy (_owners v)) eqn:E; [exact H|].
  destruct H as [H1 _]. rewrite E in H1.
  specialize (H1 eq_refl). split; simpl; [auto|].
  intros o f _ Ho Hf. unfold owner_query, GetFiles in Ho.
  destruct (_files v) as [|g [|g' l]]; simpl in *; [tauto| |lia].
  destruct Hf as [<-|[]]. exact Ho.
Qed.

Lemma owners_sound_merged db au p c :
  owners_sound db au p -> owners_sound db au c ->
  owners_truthy (_owners p) = true -> owners_truthy (_owners c) = true ->
  inter_owners (owners_value (_owners p)) (owners_value (_owners c)) <> [] ->
  owners_sound db au (merged p c).
Proof.
  intros [_ Hp] [_ Hc] Htp Htc Hne. split.
  - cbn [merged _owners]. intros H.
    rewrite (inter_nonempty_truthy _ _ Hne) in H. discriminate.
  - cbn [merged _owners _files owners_value]. intros o f _ Ho Hf. apply inter_owners_In in Ho. destruct Ho as [Hop Hoc].
    apply in_union_files in Hf. destruct Hf as [Hf|Hf]; auto.
Qed.

Lemma SplitCLs_owners_sound db au fuel files units :
  SplitCLs db au fuel files = Return units ->
  forall u, In u units -> owners_sound db au u.
Proof.
  intros Hrun.
  destruct (SplitCLs_units db au
              (fun _ v => owners_sound db au v) (owners_sound db au)) with
      (fuel := fuel) (files := files) (units := units)
    as [st [Hu [_ [HB HA]]]]; try assumption.
  - intros pp _. split; simpl; [lia|discriminate].
  - intros k v. apply owners_sound_ensured.
  - intros path p c _ Hp Hc Htp Htc Hne _. now apply owners_sound_merged.
  - intros path p c _ Hp Hc Htp Htc Hne _. now apply owners_sound_merged.
  - intros f _. split; simpl; [lia|discriminate].
  - intros u Hin.
    subst units. apply in_app_or in Hin. destruct Hin as [Hin|Hin].
    + rewrite Forall_forall in HB. now apply HB.
    + unfold drain, Trie.items in Hin. apply in_map_iff in Hin.
      destruct Hin as [[k v] [<- Hin]]. now apply (HA k v).
Qed.

Lemma owners_sound_covers db au u u' os :
  owners_sound db au u -> GetOwners db au u = Return (u', os) ->
  forall o f, In o os -> In f (_files u) -> covers db au o (LocalPath f).
Proof.
  intros Hsound Hget o f Ho Hf.
  apply owners_sound_ensured in Hsound. destruct Hsound as [_ Hs].
  rewrite GetOwners_eq in Hget.
  destruct (owners_truthy (_owners (ensured db au u))) eqn:Et;
    [|discriminate].
  injection Hget as <- <-.
  apply covering_owners_spec.
  apply Hs; [reflexivity|exact Ho|now rewrite ensured_files].
Qed.

(** X10.  Every returned unit either has no approver set yet and one file at
    most, or has an approver set of which every owner is found by
    [_EnsureOwners] for each file of the unit taken alone.  So whenever
    the caller's [GetOwners] returns on a returned unit, every owner it
    returns is, for every file of the unit, a possible owner of the file
    that leaves the file covered. *)
Theorem SplitCLs_owners_cover db au fuel files units :
  SplitCLs db au fuel files = Return units ->
  forall u u' os, In u units -> GetOwners db au u = Return (u', os) ->
  forall o f, In o os -> In f (_files u) -> covers db au o (LocalPath f).
Proof.
  intros Hrun u u' os Hin Hget.
  eapply owners_sound_covers; [|exact Hget].
  eapply SplitCLs_owners_sound; eassumption.
Qed.

Lemma SplitCLs_owners_cover_witness :
  covers (everyone "alice") None "alice" "a/y.txt".
Proof.
  apply (SplitCLs_owners_cover (everyone "alice") None 9
           [mkAffectedFile "a/x.txt" [(50, 0)];
            mkAffectedFile "a/y.txt" [(60, 0)]]
           [mkChangeList "a" [mkAffectedFile "a/x.txt" [(50, 0)];
                              mkAffectedFile "a/y.txt" [(60, 0)]]
                         (Some ["alice"])]
           ltac:(vm_compute; reflexivity)
           (mkChangeList "a" [mkAffectedFile "a/x.txt" [(50, 0)];
                              mkAffectedFile "a/y.txt" [(60, 0)]]
                         (Some ["alice"]))
           _ ["alice"]
           ltac:(simpl; auto) ltac:(vm_compute; reflexivity)
           "alice" (mkAffectedFile "a/y.txt" [(60, 0)]));
    simpl; auto.
Defined.

(* ================================================================== *)
(** * The text of a description *)

(* ------------------------------------------------------------------ *)
(** ** [FormatDescriptionOrComment] *)

Lemma prefix_app_iff a s :
  String.prefix a s = true <-> exists b, s = (a ++ b)%string.
Proof.
  revert s. induction a as [|x a IH]; intros s.
  - split; [intros _; now exists s|intros _; now destruct s].
  - destruct s as [|y s].
    + split; [discriminate|]. intros [b Hb]. discriminate.
    + rewrite prefix_cons, IH. split.
      * intros [-> [b ->]]. now exists b.
      * intros [b Hb]. simpl in Hb. injection Hb as -> ->. split; eauto.
Qed.

Lemma string_app_assoc (a b c : string) :
  ((a ++ b) ++ c = a ++ b ++ c)%string.
Proof. induction a as [|x a IH]; simpl; [reflexivity|now rewrite IH]. Qed.

Lemma string_app_length (a b : string) :
  String.length (a ++ b) = (String.length a + String.length b)%nat.
Proof. induction a as [|x a IH]; simpl; [reflexivity|now rewrite IH]. Qed.

(** A text in which [old] does not occur is left as it is. *)
Lemma replace_absent old new s :
  (forall a b, s <> (a ++ old ++ b)%string) ->
  str_replace old new s = s.
Proof.
  unfold str_replace. induction s as [|c r IH]; intros Hno; [reflexivity|].
  cbn [replace_from].
  destruct (String.prefix old (String c r)) eqn:E.
  - apply prefix_app_iff in E. destruct E as [b Hb].
    exfalso. apply (Hno EmptyString b). exact Hb.
  - f_equal. apply IH. intros a b Hab. apply (Hno (String c a) b).
    simpl. now rewrite Hab.
Qed.

(** The characters to pass are passed. *)
Lemma replace_skip old new t s :
  replace_from old new (String.length t) (t ++ s) = replace_from old new 0 s.
Proof. induction t as [|c t IH]; simpl; [reflexivity|exact IH]. Qed.

(** A word whose first character does not come again in it does not
    start before the end of a text and go on into a copy of itself. *)
Lemma prefix_before_char w x h y :
  String.prefix w (x ++ String h y) = true ->
  ~ In h (list_ascii_of_string w) ->
  String.prefix w x = true.
Proof.
  revert x. induction w as [|a w IH]; intros x; [now destruct x|].
  destruct x as [|e x]; cbn [append].
  - rewrite prefix_cons. intros [-> _] Hnot. exfalso. apply Hnot. now left.
  - rewrite !prefix_cons. intros [-> Hp] Hnot. split; [reflexivity|].
    apply IH; [assumption|]. intros Hin. apply Hnot. now right.
Qed.

Lemma placeholder_no_straddle c x b :
  String.prefix placeholder (String c x ++ placeholder ++ b) = true ->
  String.prefix placeholder (String c x) = true.
Proof.
  unfold placeholder. cbn [append]. rewrite !prefix_cons. intros [<- Hp].
  split; [reflexivity|].
  apply (prefix_before_char _ _ _ _ Hp).
  simpl. intuition discriminate.
Qed.

Lemma prefix_app_r a x y :
  String.prefix a x = true -> String.prefix a (x ++ y) = true.
Proof.
  intros H. apply prefix_app_iff in H. destruct H as [b ->].
  apply prefix_app_iff. exists (b ++ y)%string. apply string_app_assoc.
Qed.

Lemma replace_placeholder_app new a b k :
  (k <= String.length a)%nat ->
  replace_from placeholder new k (a ++ placeholder ++ b) =
  (replace_from placeholder new k a ++ new
     ++ replace_from placeholder new 0 b)%string.
Proof.
  revert k. induction a as [|c r IH]; intros k Hk.
  - simpl in Hk. assert (k = 0%nat) by lia. subst k.
    assert (Hp : String.prefix placeholder (placeholder ++ b) = true)
      by (apply prefix_app_iff; now exists b).
    unfold placeholder in *. cbn [append replace_from] in *. rewrite Hp.
    reflexivity.
  - destruct k as [|k].
    + cbn [replace_from append].
      destruct (String.prefix placeholder (String c (r ++ placeholder ++ b)))
        eqn:E.
      * apply (placeholder_no_straddle c r b) in E. rewrite E.
        rewrite string_app_assoc. f_equal. apply IH.
        apply prefix_length in E. simpl in E. simpl. lia.
      * destruct (String.prefix placeholder (String c r)) eqn:E'.
        -- apply (prefix_app_r _ _ (placeholder ++ b)) in E'.
           simpl in E'. simpl in E. congruence.
        -- simpl. f_equal. apply IH. lia.
    + cbn [replace_from append]. apply IH. simpl in Hk. lia.
Qed.

(** X11.  [FormatDescriptionOrComment] leaves a text without [$directory] as
    it is, and in a text with [$directory] it puts a slash and the
    directory in its place, the text before and the text after being
    formatted each on its own: every [$directory] of the text is
    replaced. *)
Theorem FormatDescriptionOrComment_replaces txt a b directory :
  ((forall x y, txt <> (x ++ "$directory" ++ y)%string) ->
   FormatDescriptionOrComment txt directory = txt) /\
  FormatDescriptionOrComment (a ++ "$directory" ++ b) directory =
    (FormatDescriptionOrComment a directory ++ "/" ++ directory
       ++ FormatDescriptionOrComment b directory)%string.
Proof.
  split.
  - apply replace_absent.
  - unfold FormatDescriptionOrComment, str_replace.
    pose proof (replace_placeholder_app ("/" ++ directory) a b 0
                  ltac:(lia)) as H.
    unfold placeholder in *. rewrite H. now rewrite string_app_assoc.
Qed.

Lemma FormatDescriptionOrComment_replaces_witness :
  FormatDescriptionOrComment "Update foo." "chrome/browser" = "Update foo.".
Proof.
  apply (proj1 (FormatDescriptionOrComment_replaces
                  "Update foo." "" "" "chrome/browser")).
  intros x y H.
  assert (Hlen : String.length "Update foo." =
                 String.length (x ++ "$directory" ++ y)) by now rewrite <- H.
  rewrite !string_app_length in Hlen. simpl in Hlen.
  assert (Hp : String.prefix x "Update foo." = true)
    by (apply prefix_app_iff; eexists; exact H).
  destruct x as [|c0 [|c1 [|c2 x]]]; simpl in Hlen; try lia;
    simpl in H; try discriminate.
Defined.

(* ------------------------------------------------------------------ *)
(** ** [AddUploadedByGitClSplitToDescription] *)

Lemma string_app_nil_r (s : string) : (s ++ "")%string = s.
Proof. induction s as [|c s IH]; simpl; [reflexivity|now rewrite IH]. Qed.

Lemma concat_cons sep x l :
  l <> [] -> String.concat sep (x :: l) = (x ++ sep ++ String.concat sep l)%string.
Proof. destruct l; [congruence|reflexivity]. Qed.

(** Joining two lists of lines that are not empty. *)
Lemma concat_app sep a b :
  a <> [] -> b <> [] ->
  String.concat sep (a ++ b) =
  (String.concat sep a ++ sep ++ String.concat sep b)%string.
Proof.
  intros Ha Hb. induction a as [|x a IH]; [congruence|].
  destruct a as [|y a].
  - simpl app. now rewrite concat_cons.
  - change ((x :: y :: a) ++ b) with (x :: (y :: a) ++ b).
    rewrite concat_cons by discriminate. rewrite IH by discriminate.
    rewrite (concat_cons sep x (y :: a)) by discriminate.
    now rewrite !string_app_assoc.
Qed.

(** X12.  The text [AddUploadedByGitClSplitToDescription] returns.  With no
    line before the footers the call raises an [IndexError].  Otherwise
    the lines before the footers are kept as they are; the line "This CL
    was uploaded by git cl split." follows them, after an empty line
    when the last of them is empty or blank and right after them when it
    is not; and the footers, when there are some, come last, after one
    empty line. *)
Theorem AddUploadedByGitClSplitToDescription_text split_footers description :
  let lines := fst (split_footers description) in
  let footers := snd (split_footers description) in
  let last := List.last lines EmptyString in
  (lines = [] ->
   AddUploadedByGitClSplitToDescription split_footers description
     = Err IndexError) /\
  (lines <> [] ->
   AddUploadedByGitClSplitToDescription split_footers description =
     Ok (String.concat newline lines
         ++ (if (last =? "")%string || isspace last then newline else "")
         ++ newline ++ uploaded_by_line
         ++ match footers with
            | [] => ""
            | _ => newline ++ newline ++ String.concat newline footers
            end)%string).
Proof.
  cbv zeta. unfold AddUploadedByGitClSplitToDescription.
  destruct (split_footers description) as [lines footers]. cbn [fst snd].
  split; [intros ->; reflexivity|]. intros Hne.
  assert (Hl : last_line lines = Ok (List.last lines EmptyString))
    by (destruct lines; [congruence|reflexivity]).
  rewrite Hl. f_equal.
  set (pad := (List.last lines "" =? "")%string || isspace (List.last lines "")).
  assert (Hlines : String.concat newline
                     ((if pad then lines ++ [""] else lines)
                        ++ [uploaded_by_line]) =
                   (String.concat newline lines
                      ++ (if pad then newline else "")
                      ++ newline ++ uploaded_by_line)%string).
  { destruct pad.
    - rewrite !concat_app; try discriminate; try assumption.
      + simpl. now rewrite !string_app_assoc.
      + destruct lines; discriminate.
    - rewrite concat_app; try discriminate; try assumption. reflexivity. }
  destruct footers as [|f footers].
  - rewrite Hlines. now rewrite string_app_nil_r.
  - rewrite (concat_app newline _ ([""] ++ f :: footers));
      [|destruct pad, lines; discriminate|discriminate].
    rewrite Hlines.
    rewrite (concat_app newline [""] (f :: footers)) by discriminate.
    simpl (String.concat newline [""]).
    rewrite !string_app_assoc. reflexivity.
Qed.

Lemma AddUploadedByGitClSplitToDescription_text_witness :
  AddUploadedByGitClSplitToDescription
    (fun _ => (["Update foo."], ["Bug: 1"])) "any" =
  Ok ("Update foo." ++ newline ++ "This CL was uploaded by git cl split."
      ++ newline ++ newline ++ "Bug: 1")%string.
Proof.
  apply (proj2 (AddUploadedByGitClSplitToDescription_text
                  (fun _ => (["Update foo."], ["Bug: 1"])) "any")).
  discriminate.
Defined.

(* ================================================================== *)
(** * The reviewers *)

(* ------------------------------------------------------------------ *)
(** ** [_SelectReviewer] *)

Lemma random_choice_In {A : Type} draw (seq : list A) :
  seq <> [] -> exists x, random_choice draw seq = Ok x /\ In x seq.
Proof.
  intros Hne. unfold random_choice. destruct seq as [|a seq]; [congruence|].
  destruct (nth_error (a :: seq) (draw mod List.length (a :: seq))) as [x|]
    eqn:E.
  - exists x. split; [reflexivity|]. eapply nth_error_In; eassumption.
  - exfalso. apply nth_error_None in E.
    pose proof (Nat.mod_upper_bound draw (List.length (a :: seq))) as H.
    simpl in *. lia.
Qed.

Lemma diff_owners_In o a b : In o (diff_owners a b) <-> In o a /\ ~ In o b.
Proof.
  unfold diff_owners, mem_owner. rewrite filter_In.
  destruct (in_dec string_dec o b); simpl; intuition discriminate.
Qed.

Lemma SelectReviewer_nonempty draw owners used :
  owners <> [] ->
  exists reviewer used',
    _SelectReviewer draw owners used = Ok (reviewer, used') /\
    In reviewer owners /\
    ((exists o, In o owners /\ ~ In o used) -> ~ In reviewer used) /\
    (forall o, In o used' <-> o = reviewer \/ In o used).
Proof.
  unfold _SelectReviewer. intros Hne.
  destruct (diff_owners owners used) as [|d ds] eqn:Ed.
  - simpl. destruct (random_choice_In draw owners Hne) as [r [-> Hr]].
    exists r, (add_owner r used). split; [reflexivity|]. split; [assumption|].
    split; [|intros o; apply in_add_owner].
    intros [o [Ho Hu]]. exfalso.
    assert (Hin : In o (diff_owners owners used))
      by (apply diff_owners_In; tauto).
    rewrite Ed in Hin. contradiction.
  - replace (Z.of_nat (List.length (d :: ds)) <? 1) with false
      by (symmetry; apply Z.ltb_ge; simpl; lia).
    destruct (random_choice_In draw (d :: ds) ltac:(discriminate))
      as [r [-> Hr]].
    rewrite <- Ed in Hr. apply diff_owners_In in Hr. destruct Hr as [Hr Hu].
    exists r, (add_owner r used). split; [reflexivity|]. split; [assumption|].
    split; [auto|intros o; apply in_add_owner].
Qed.

(** X13.  Whatever the generator draws, [_SelectReviewer] on a set of owners
    that is not empty returns one of the owners, and one that was not
    used before whenever an owner is left that was not; it adds the
    reviewer to the used ones and takes none away.  On the empty set of
    owners it raises the [IndexError] of [random.choice]. *)
Theorem SelectReviewer_picks_owner draw owners used :
  (owners = [] -> _SelectReviewer draw owners used = Err IndexError) /\
  (owners <> [] ->
   exists reviewer used',
     _SelectReviewer draw owners used = Ok (reviewer, used') /\
     In reviewer owners /\
     ((exists o, In o owners /\ ~ In o used) -> ~ In reviewer used) /\
     (forall o, In o used' <-> o = reviewer \/ In o used)).
Proof.
  split; [intros ->; reflexivity|apply SelectReviewer_nonempty].
Qed.

Lemma SelectReviewer_picks_owner_witness :
  exists reviewer used',
    _SelectReviewer 7 ["ann"; "bob"] ["ann"] = Ok (reviewer, used') /\
    In reviewer ["ann"; "bob"] /\ ~ In reviewer ["ann"].
Proof.
  destruct (proj2 (SelectReviewer_picks_owner 7 ["ann"; "bob"] ["ann"])
              ltac:(discriminate)) as [r [u [H1 [H2 [H3 _]]]]].
  exists r, u. split; [exact H1|]. split; [exact H2|].
  apply H3. exists "bob". split; [simpl; auto|].
  simpl. intuition discriminate.
Defined.

(* ------------------------------------------------------------------ *)
(** ** The loop of [SplitCl] *)

Lemma str_replace_sep p : str_replace os_path_sep "/" p = p.
Proof.
  unfold str_replace, os_path_sep. induction p as [|c r IH]; [reflexivity|].
  cbn [replace_from].
  destruct (String.prefix "/" (String c r)) eqn:E.
  - apply prefix_cons in E. destruct E as [<- _]. simpl. now rewrite IH.
  - now rewrite IH.
Qed.

Lemma GetOwners_lift db au cl :
  match lift (GetOwners db au cl) with
  | Ok (cl', os) => GetOwners db au cl = Return (cl', os) /\ os <> []
  | Err e => e = Core AssertionError /\
             GetOwners db au cl = Raise AssertionError
  end.
Proof.
  destruct (GetOwners db au cl) as [[cl' os]|x|] eqn:E; simpl.
  - split; [reflexivity|]. now apply GetOwners_Return in E.
  - apply GetOwners_Raise in E. destruct E as [-> _]. auto.
  - rewrite GetOwners_eq in E. destruct (owners_truthy _); discriminate.
Qed.

Lemma call_for_fields dry_run files num_cls i cl r :
  call_index (call_for dry_run files num_cls i cl r) = i /\
  call_directory (call_for dry_run files num_cls i cl r) = _path cl /\
  call_reviewer (call_for dry_run files num_cls i cl r) = r.
Proof. unfold call_for. now destruct dry_run. Qed.

Section LoopFacts.

Variable db : Database.
Variable au : option string.
Variable dry_run : bool.
Variable files : list AffectedFile.
Variable num_cls : nat.
Variable raised : cl_call -> option failure.
Variable draw : nat -> nat.

(** One iteration. *)
Lemma review_loop_cons i cl rest used :
  review_loop db au dry_run files num_cls raised draw i (cl :: rest) used =
  match lift (GetOwners db au cl) with
  | Err e => ([], Some e)
  | Ok (cl', os) =>
      match _SelectReviewer (draw i) os used with
      | Err e => ([], Some e)
      | Ok (r, used') =>
          match raised (call_for dry_run files num_cls i cl r) with
          | Some e => ([call_for dry_run files num_cls i cl r], Some e)
          | None =>
              (call_for dry_run files num_cls i cl r
                 :: fst (review_loop db au dry_run files num_cls raised draw
                                     (S i) rest used'),
               snd (review_loop db au dry_run files num_cls raised draw
                                (S i) rest used'))
          end
      end
  end.
Proof.
  cbn [review_loop]. destruct (lift (GetOwners db au cl)) as [[cl' os]|e];
    [|reflexivity].
  destruct (_SelectReviewer (draw i) os used) as [[r used']|e]; [|reflexivity].
  unfold call_for, GetPath, GetFiles. rewrite str_replace_sep.
  destruct (raised _); [reflexivity|].
  now destruct (review_loop db au dry_run files num_cls raised draw
                            (S i) rest used').
Qed.

(** The calls of the loop: one for each change list up to the first
    whose owners cannot be found or whose call raises, with a reviewer
    among the owners of the change list, and not among the reviewers used
    before when it has an owner that is not; and how the loop ends. *)
Lemma review_loop_calls cls : forall i used calls ended,
  review_loop db au dry_run files num_cls raised draw i cls used
    = (calls, ended) ->
  (forall k call,
     nth_error calls k = Some call ->
     exists cl cl' os r,
       nth_error cls k = Some cl /\
       GetOwners db au cl = Return (cl', os) /\ In r os /\
       call = call_for dry_run files num_cls (i + k) cl r /\
       ((S k < List.length calls)%nat -> raised call = None) /\
       ((exists o, In o os /\ ~ In o used /\
                   ~ In o (map call_reviewer (firstn k calls))) ->
        ~ In r used /\ ~ In r (map call_reviewer (firstn k calls)))) /\
  match ended with
  | None =>
      List.length calls = List.length cls /\
      Forall (fun call => raised call = None) calls
  | Some e =>
      (e = Core AssertionError /\
       Forall (fun call => raised call = None) calls /\
       exists cl, nth_error cls (List.length calls) = Some cl /\
                  GetOwners db au cl = Raise AssertionError) \/
      (exists call,
         nth_error calls (pred (List.length calls)) = Some call /\
         raised call = Some e)
  end.
Proof.
  induction cls as [|cl rest IH]; intros i used calls ended.
  - simpl. intros [= <- <-]. split; [|split; [reflexivity|constructor]].
    intros [|k] call; discriminate.
  - rewrite review_loop_cons.
    pose proof (GetOwners_lift db au cl) as Hg.
    destruct (lift (GetOwners db au cl)) as [[cl' os]|e].
    + destruct Hg as [Hget Hne].
      destruct (SelectReviewer_nonempty (draw i) os used Hne)
        as [r [used' [-> [Hr [Hfresh Hused']]]]].
      destruct (call_for_fields dry_run files num_cls i cl r)
        as [_ [_ Hrr]].
      destruct (raised (call_for dry_run files num_cls i cl r)) as [e|] eqn:Er.
      * intros [= <- <-]. split.
        -- intros [|[|k]] call Hk; try discriminate.
           simpl in Hk. injection Hk as <-. exists cl, cl', os, r.
           rewrite Nat.add_0_r.
           split; [reflexivity|]. split; [assumption|].
           split; [assumption|]. split; [reflexivity|].
           split; [simpl; lia|].
           intros [o [Ho [Hu _]]]. split; [|simpl; tauto].
           apply Hfresh. eauto.
        -- right. exists (call_for dry_run files num_cls i cl r).
           split; [reflexivity|assumption].
      * destruct (review_loop db au dry_run files num_cls raised draw (S i)
                              rest used') as [calls' ended'] eqn:El.
        cbn [fst snd]. intros [= <- <-].
        destruct (IH _ _ _ _ El) as [H1 H2]. split.
        -- intros [|k] call Hk.
           ++ simpl in Hk. injection Hk as <-. exists cl, cl', os, r.
              rewrite Nat.add_0_r.
              split; [reflexivity|]. split; [assumption|].
              split; [assumption|]. split; [reflexivity|].
              split; [intros _; assumption|].
              intros [o [Ho [Hu _]]]. split; [|simpl; tauto].
              apply Hfresh. eauto.
           ++ simpl in Hk. destruct (H1 k call Hk)
                as [c [c' [os' [r' [Hc [Hg' [Hr' [Hcall [Hret Hsp]]]]]]]]].
              exists c, c', os', r'. rewrite Nat.add_succ_r.
              split; [assumption|]. split; [assumption|].
              split; [assumption|]. split; [assumption|].
              split; [intros Hlt; apply Hret; simpl in Hlt; lia|].
              intros [o [Ho [Hu Hp]]].
              cbn [firstn map] in Hp |- *. rewrite Hrr in Hp |- *.
              simpl in Hp.
              destruct Hsp as [Hn1 Hn2].
              { exists o. repeat split; try tauto.
                rewrite Hused'. intros [->|Hin]; tauto. }
              split.
              ** intros Hin. apply Hn1. apply Hused'. now right.
              ** intros [Heq|Hin]; [|tauto].
                 apply Hn1. apply Hused'. now left.
        -- destruct ended' as [e|].
           ++ destruct H2 as [[-> [Hall [c [Hc Hraise]]]]|[call [Hk He]]].
              ** left. split; [reflexivity|].
                 split; [now constructor|]. exists c. auto.
              ** right. exists call. split; [|assumption].
                 destruct calls' as [|c0 calls']; [discriminate|].
                 exact Hk.
           ++ destruct H2 as [Hlen Hall]. split; [simpl; congruence|].
              now constructor.
    + destruct Hg as [-> Hraise]. intros [= <- <-]. split.
      * intros [|k] call; discriminate.
      * left. split; [reflexivity|]. split; [constructor|].
        exists cl. auto.
Qed.

End LoopFacts.

(* ------------------------------------------------------------------ *)
(** ** The calls of the loop *)

(** X14.  The loop of [SplitCl] makes its calls in the order of the
    change lists, with the indices 1, 2, ...: [PrintClInfo] with the
    paths of the files of the change list in a dry run, otherwise
    [UploadCl] with all the files of the change.  Every call but the last
    has returned.  The loop ends in one of three ways: after one call for
    each change list, all of which returned; with the [AssertionError] of
    [_EnsureOwners] at the first change list for which the database finds
    no owner, after the calls for the change lists before it, which
    returned; or with the exception that the last call made has raised
    (the [CalledProcessError] of a git command, which [SplitCl] catches,
    or another one), the change lists after it being left without a
    call.  The [IndexError] of [random.choice] never ends it. *)
Theorem review_loop_endings db au dry_run files num_cls raised draw cls
    calls ended :
  review_loop db au dry_run files num_cls raised draw 1 cls []
    = (calls, ended) ->
  (forall k call,
     nth_error calls k = Some call ->
     exists cl r,
       nth_error cls k = Some cl /\
       call = call_for dry_run files num_cls (S k) cl r /\
       ((S k < List.length calls)%nat -> raised call = None)) /\
  match ended with
  | None =>
      List.length calls = List.length cls /\
      Forall (fun call => raised call = None) calls
  | Some e =>
      (e = Core AssertionError /\
       Forall (fun call => raised call = None) calls /\
       exists cl, nth_error cls (List.length calls) = Some cl /\
                  GetOwners db au cl = Raise AssertionError) \/
      (exists call,
         nth_error calls (pred (List.length calls)) = Some call /\
         raised call = Some e)
  end.
Proof.
  intros Hrun.
  destruct (review_loop_calls db au dry_run files num_cls raised draw cls
              _ _ _ _ Hrun) as [H1 H2].
  split; [|exact H2].
  intros k call Hk.
  destruct (H1 k call Hk) as [cl [cl' [os [r [Hc [_ [_ [Hcall [Hret _]]]]]]]]].
  exists cl, r. repeat split; assumption.
Qed.

(** Two change lists with an owner each, and an upload that fails for
    the first: the loop ends there, with the one call. *)
Lemma review_loop_endings_witness :
  let cls := [mkChangeList "a/x" [file_a_x] None;
              mkChangeList "a" [] None] in
  let raised := fun c => match call_index c with
                         | 1%nat => Some CalledProcessError
                         | _ => None
                         end in
  exists call,
    review_loop ann_and_root None false [file_a_x] 2 raised (fun _ => 0%nat)
                1 cls [] = ([call], Some CalledProcessError) /\
    nth_error [call] 0 = Some call /\
    raised call = Some CalledProcessError.
Proof.
  cbv zeta.
  exists (UploadCl_call 1 "a/x" [file_a_x] "ann").
  split; [vm_compute; reflexivity|].
  destruct (review_loop_endings ann_and_root None false [file_a_x] 2
              (fun c => match call_index c with
                        | 1%nat => Some CalledProcessError
                        | _ => None
                        end)
              (fun _ => 0%nat)
              [mkChangeList "a/x" [file_a_x] None; mkChangeList "a" [] None]
              [UploadCl_call 1 "a/x" [file_a_x] "ann"]
              (Some CalledProcessError)
              ltac:(vm_compute; reflexivity)) as [_ [[H _]|[call [Hk He]]]].
  - discriminate.
  - simpl in Hk. injection Hk as <-. split; [reflexivity|exact He].
Defined.

(** X15.  The reviewer of a call is an owner of its change list, and one
    for whom no earlier call of the loop was made, whenever the change
    list has such an owner: the loop asks an owner a second time only for
    a change list all of whose owners have been asked.  This holds
    whatever the calls raise. *)
Theorem review_loop_spreads_reviewers db au dry_run files num_cls raised draw
    cls calls ended :
  review_loop db au dry_run files num_cls raised draw 1 cls []
    = (calls, ended) ->
  forall k call cl cl' os,
    nth_error calls k = Some call -> nth_error cls k = Some cl ->
    GetOwners db au cl = Return (cl', os) ->
    In (call_reviewer call) os /\
    ((exists o, In o os /\ ~ In o (map call_reviewer (firstn k calls))) ->
     ~ In (call_reviewer call) (map call_reviewer (firstn k calls))).
Proof.
  intros Hrun k call cl cl' os Hk Hcl Hget.
  destruct (review_loop_calls db au dry_run files num_cls raised draw cls
              _ _ _ _ Hrun) as [H1 _].
  destruct (H1 k call Hk)
    as [c [c' [os' [r [Hc [Hg [Hr [Hcall [_ Hsp]]]]]]]]].
  assert (c = cl) by congruence. subst c.
  rewrite Hget in Hg. injection Hg as <- <-.
  destruct (call_for_fields dry_run files num_cls (1 + k) cl r)
    as [_ [_ Hrr]].
  rewrite Hcall, Hrr. split; [assumption|].
  intros [o [Ho Hn]]. apply Hsp. exists o. simpl. tauto.
Qed.

Lemma review_loop_spreads_reviewers_witness :
  In "ann" ["root"; "ann"] /\
  ~ In "ann" (map call_reviewer
                (firstn 1 [PrintClInfo_call 1 2 "a/x" ["a/x"] "root";
                           PrintClInfo_call 2 2 "a/x" ["a/x"] "ann"])).
Proof.
  split; [simpl; auto|].
  eapply (proj2 (review_loop_spreads_reviewers root_above_ann None true
              [file_a_x] 2 (fun _ => None) (fun _ => 0%nat)
              [mkChangeList "a/x" [file_a_x] None;
               mkChangeList "a/x" [file_a_x] None]
              [PrintClInfo_call 1 2 "a/x" ["a/x"] "root";
               PrintClInfo_call 2 2 "a/x" ["a/x"] "ann"]
              None
              ltac:(vm_compute; reflexivity)
              1%nat (PrintClInfo_call 2 2 "a/x" ["a/x"] "ann")
              (mkChangeList "a/x" [file_a_x] None) _ ["root"; "ann"]
              ltac:(reflexivity) ltac:(reflexivity)
              ltac:(vm_compute; reflexivity))).
  exists "ann". split; [simpl; auto|].
  simpl. intuition discriminate.
Defined.

(** X16.  [SplitCLs] followed by the loop of [SplitCl]: the call of index
    [k + 1] is made for the [k]-th returned unit, with the path of the
    unit as its directory and with a reviewer who, for every file of the
    unit, is a possible owner of the file that leaves it covered.  This
    holds whatever the calls raise. *)
Theorem SplitCl_reviewer_covers db au dry_run raised draw fuel files units
    calls ended :
  SplitCLs db au fuel files = Return units ->
  review_loop db au dry_run files (List.length units) raised draw 1 units []
    = (calls, ended) ->
  forall k call,
    nth_error calls k = Some call ->
    exists u,
      nth_error units k = Some u /\
      call_index call = S k /\
      call_directory call = _path u /\
      forall f, In f (_files u) ->
                covers db au (call_reviewer call) (LocalPath f).
Proof.
  intros Hsplit Hrun k call Hk.
  destruct (review_loop_calls db au dry_run files (List.length units) raised
              draw units _ _ _ _ Hrun) as [H1 _].
  destruct (H1 k call Hk) as [u [u' [os [r [Hu [Hg [Hr [Hcall _]]]]]]]].
  destruct (call_for_fields dry_run files (List.length units) (1 + k) u r)
    as [Hi [Hd Hrr]].
  exists u. rewrite Hcall, Hi, Hd, Hrr.
  split; [assumption|]. split; [reflexivity|]. split; [reflexivity|].
  intros f Hf.
  eapply owners_sound_covers; [|exact Hg|exact Hr|exact Hf].
  eapply SplitCLs_owners_sound; [exact Hsplit|].
  eapply nth_error_In; eassumption.
Qed.

Lemma SplitCl_reviewer_covers_witness :
  exists u,
    nth_error [mkChangeList "a" [mkAffectedFile "a/x.txt" [(50, 0)];
                                 mkAffectedFile "a/y.txt" [(60, 0)]]
                            (Some ["alice"])] 0 = Some u /\
    call_index (UploadCl_call 1 "a" [mkAffectedFile "a/x.txt" [(50, 0)];
                                     mkAffectedFile "a/y.txt" [(60, 0)]]
                              "alice") = 1%nat /\
    call_directory (UploadCl_call 1 "a" [mkAffectedFile "a/x.txt" [(50, 0)];
                                         mkAffectedFile "a/y.txt" [(60, 0)]]
                                  "alice") = _path u /\
    forall f, In f (_files u) ->
              covers (everyone "alice") None
                (call_reviewer
                   (UploadCl_call 1 "a" [mkAffectedFile "a/x.txt" [(50, 0)];
                                         mkAffectedFile "a/y.txt" [(60, 0)]]
                                  "alice"))
                (LocalPath f).
Proof.
  apply (SplitCl_reviewer_covers (everyone "alice") None false
           (fun _ => None) (fun _ => 0%nat) 9
           [mkAffectedFile "a/x.txt" [(50, 0)];
            mkAffectedFile "a/y.txt" [(60, 0)]]
           [mkChangeList "a" [mkAffectedFile "a/x.txt" [(50, 0)];
                              mkAffectedFile "a/y.txt" [(60, 0)]]
                         (Some ["alice"])]
           [UploadCl_call 1 "a" [mkAffectedFile "a/x.txt" [(50, 0)];
                                 mkAffectedFile "a/y.txt" [(60, 0)]]
                          "alice"]
           None
           ltac:(vm_compute; reflexivity) ltac:(vm_compute; reflexivity)
           0%nat _ ltac:(reflexivity)).
Defined.
